(** * mobx-url-sync: a shallow embedding of the URL synchronisation engine

    The development follows [src/index.ts] (class [MobXURLSync], one
    debounced writer for all registered fields) and the per-field variant
    of the same class that the repository also carries ([registerField],
    [getDefaultSerializer], [loadFromURLForField],
    [startInterceptorForField]), in [Module PerField].

    Conventions.
    - A JavaScript string is modelled by the sequence of bytes of its UTF-8
      encoding ([string] of the Standard Library); the replacement of
      ill-formed UTF-8 by U+FFFD inside [URLSearchParams] is not modelled.
    - The host (browser, MobX) is modelled by explicit state: a heap of
      store objects, [window.location], the log of [history.replaceState]
      calls, the clock read by [Date.now()] and the pending [setTimeout]
      callbacks.  Synchronous code takes no time: the clock only moves
      between events.
    - Numbers and non-primitive values are kept abstract in the class
      [JSRuntime]; millisecond time stamps and delays are integers ([Z]).
    - MobX's [intercept] throws on a store or property it does not observe:
      [register_with] and [PerField.registerField_with] take the outcome of
      that call as a parameter, [register] and [PerField.registerField] are
      the calls on stores MobX accepts.  [PerField.registerField_with] also
      returns the caller's [config] object, which the method writes into. *)

From stdpp Require Import base option list gmap strings.
From Stdlib Require Import ZArith Ascii String DecimalString Lia.

Local Open Scope string_scope.
Local Open Scope Z_scope.

(** ** Strings *)

Module Str.

(** [s.split(sep)[0]]: the part of [s] before the first [sep]. *)
Fixpoint before (sep : ascii) (s : string) : string :=
  match s with
  | EmptyString => EmptyString
  | String c s' => if Ascii.eqb c sep then EmptyString else String c (before sep s')
  end.

(** The suffix of [s] that starts at the first [sep] ([sep] included),
    empty when [sep] does not occur. *)
Fixpoint from (sep : ascii) (s : string) : string :=
  match s with
  | EmptyString => EmptyString
  | String c s' => if Ascii.eqb c sep then s else from sep s'
  end.

(** [s.split(sep)]: never empty, [""] splits into [[""]]. *)
Fixpoint split (sep : ascii) (s : string) : list string :=
  match s with
  | EmptyString => [EmptyString]
  | String c s' =>
      if Ascii.eqb c sep then EmptyString :: split sep s'
      else match split sep s' with
           | p :: ps => String c p :: ps
           | [] => [String c EmptyString]
           end
  end.

Fixpoint occurs (c : ascii) (s : string) : bool :=
  match s with
  | EmptyString => false
  | String c' s' => Ascii.eqb c' c || occurs c s'
  end.

Fixpoint replace (a b : ascii) (s : string) : string :=
  match s with
  | EmptyString => EmptyString
  | String c s' => String (if Ascii.eqb c a then b else c) (replace a b s')
  end.

End Str.

(** ** [URLSearchParams]: the application/x-www-form-urlencoded codec *)

Module URLSearchParams.

(** The list of name/value pairs of a [URLSearchParams] object, in order;
    duplicates are possible. *)
Definition t : Type := list (string * string).

(** Bytes the urlencoded serializer leaves as they are:
    [*], [-], [.], [_], ASCII digits and letters. *)
Definition unreserved (c : ascii) : bool :=
  let n := nat_of_ascii c in
  ((n =? 42) || (n =? 45) || (n =? 46) || (n =? 95)
   || ((48 <=? n) && (n <=? 57))
   || ((65 <=? n) && (n <=? 90))
   || ((97 <=? n) && (n <=? 122)))%nat.

Definition hex_digit (n : nat) : ascii :=
  if (n <? 10)%nat then ascii_of_nat (48 + n) else ascii_of_nat (55 + n).

Definition hex_value (c : ascii) : option nat :=
  let n := nat_of_ascii c in
  if ((48 <=? n) && (n <=? 57))%nat then Some (n - 48)%nat
  else if ((65 <=? n) && (n <=? 70))%nat then Some (n - 55)%nat
  else if ((97 <=? n) && (n <=? 102))%nat then Some (n - 87)%nat
  else None.

Definition encode_byte (c : ascii) (rest : string) : string :=
  if Ascii.eqb c " " then String "+" rest
  else if unreserved c then String c rest
  else
    let n := nat_of_ascii c in
    String "%" (String (hex_digit (n / 16)) (String (hex_digit (n mod 16)) rest)).

Fixpoint encode (s : string) : string :=
  match s with
  | EmptyString => EmptyString
  | String c s' => encode_byte c (encode s')
  end.

Fixpoint percent_decode (s : string) : string :=
  match s with
  | EmptyString => EmptyString
  | String c s1 =>
      if Ascii.eqb c "%" then
        match s1 with
        | String a (String b rest) =>
            match hex_value a, hex_value b with
            | Some x, Some y => String (ascii_of_nat (16 * x + y)) (percent_decode rest)
            | _, _ => String c (percent_decode s1)
            end
        | _ => String c (percent_decode s1)
        end
      else String c (percent_decode s1)
  end.

Definition decode (s : string) : string :=
  percent_decode (Str.replace "+" " " s).

Definition render_pair (kv : string * string) : string :=
  encode kv.1 +:+ "=" +:+ encode kv.2.

(** [params.toString()] *)
Definition toString (p : t) : string :=
  String.concat "&" (map render_pair p).

Definition parse_pair (piece : string) : string * string :=
  if Str.occurs "=" piece then
    (decode (Str.before "=" piece),
     decode (match Str.from "=" piece with
             | String _ v => v
             | EmptyString => EmptyString
             end))
  else (decode piece, EmptyString).

Definition parse (s : string) : t :=
  map parse_pair
      (filter (fun piece => piece ≠ EmptyString) (Str.split "&" s)).

(** [new URLSearchParams(init)] for a string [init]: one leading [?] is
    dropped, the rest is parsed. *)
Definition new (init : string) : t :=
  match init with
  | String "?" s => parse s
  | _ => parse init
  end.

(** [new URLSearchParams()] *)
Definition empty : t := [].

Definition has (p : t) (name : string) : bool :=
  existsb (fun kv => String.eqb kv.1 name) p.

(** [params.get(name)]: the first value, [None] for JavaScript's [null]. *)
Fixpoint get (p : t) (name : string) : option string :=
  match p with
  | [] => None
  | (k, v) :: p' => if String.eqb k name then Some v else get p' name
  end.

(** [params.delete(name)]: every pair of that name goes. *)
Definition delete (p : t) (name : string) : t :=
  filter (fun kv => kv.1 ≠ name) p.

(** [params.set(name, value)]: the first pair of that name takes the value
    and the others go; without such a pair, one is appended. *)
Fixpoint set (p : t) (name value : string) : t :=
  match p with
  | [] => [(name, value)]
  | (k, v) :: p' =>
      if String.eqb k name then (k, value) :: delete p' name
      else (k, v) :: set p' name value
  end.

End URLSearchParams.

(** ** JavaScript values, exceptions and the host state *)

(** A thrown value; the engine itself only throws [new Error(message)]. *)
Inductive exn : Type := Error (message : string).

Inductive result (A : Type) : Type :=
| Ok (a : A)
| Throw (e : exn).
Arguments Ok {A} a.
Arguments Throw {A} e.

Definition result_bind {A B} (r : result A) (k : A → result B) : result B :=
  match r with
  | Ok a => k a
  | Throw e => Throw e
  end.

Definition result_map {A B} (f : A → B) (r : result A) : result B :=
  result_bind r (fun a => Ok (f a)).

(** What the engine needs of the language runtime: the number type with
    [String(n)], and the values that are neither primitive nor nullish
    (objects, functions, symbols, ...) with [String(o)], which may throw, and
    [o instanceof C]. *)
Class JSRuntime : Type := {
  number : Type;
  object : Type;
  ctor : Type;
  NumberToString : number → string;
  ObjectToString : object → result string;
  instance_of : object → ctor → bool
}.

Inductive value {R : JSRuntime} : Type :=
| VUndefined
| VNull
| VBoolean (b : bool)
| VNumber (n : number)
| VString (s : string)
| VObject (o : object).

(** A store is a reference to a heap object. *)
Definition loc : Type := positive.

(** [window.location].  [href] is the whole URL: scheme and authority
    (kept together in [origin]), then the path, the query and the fragment;
    [pathname] is the path alone, [search] is empty or the query with its
    leading question mark, [hash] likewise for the fragment. *)
Record Location : Type := {
  origin : string;
  pathname : string;
  search : string;
  hash : string
}.

Definition href (l : Location) : string :=
  origin l +:+ pathname l +:+ search l +:+ hash l.

(** [window]: the location, the arguments of the [history.replaceState]
    calls made so far (oldest first), the clock, and the pending
    [setTimeout] callbacks as (handle, due time). *)
Record Window : Type := {
  location : Location;
  history : list string;
  clock : Z;
  timeouts : list (nat * Z);
  nextTimeout : nat
}.

(** The heap: each store object maps property names to values. *)
Abbreviation heap := (gmap loc (gmap string value)).

Definition dquote : string := String (ascii_of_nat 34) EmptyString.

Section Engine.
Context {R : JSRuntime}.

(** [typeof v]; every non-primitive, non-undefined value reads "object"
    here: the engine only compares the result with the three primitive
    names. *)
Definition typeof (v : value) : string :=
  match v with
  | VUndefined => "undefined"
  | VNull => "object"
  | VBoolean _ => "boolean"
  | VNumber _ => "number"
  | VString _ => "string"
  | VObject _ => "object"
  end.

(** [String(v)] *)
Definition ToString (v : value) : result string :=
  match v with
  | VUndefined => Ok "undefined"
  | VNull => Ok "null"
  | VBoolean true => Ok "true"
  | VBoolean false => Ok "false"
  | VNumber n => Ok (NumberToString n)
  | VString s => Ok s
  | VObject o => ObjectToString o
  end.

(** [v instanceof C]: false on primitives. *)
Definition instanceof (v : value) (C : ctor) : bool :=
  match v with
  | VObject o => instance_of o C
  | _ => false
  end.

(** [a ?? b] *)
Definition nullish_or (a b : value) : value :=
  match a with
  | VUndefined | VNull => b
  | _ => a
  end.

(** [store[property]] *)
Definition heap_get (h : heap) (store : loc) (property : string) : value :=
  default VUndefined (h !! store ≫= fun o => o !! property).

(** [store[property] = v] *)
Definition heap_set (h : heap) (store : loc) (property : string) (v : value) : heap :=
  <[store := <[property := v]> (default ∅ (h !! store))]> h.

Definition serialize_fn : Type := value → result string.
Definition deserialize_fn : Type := string → result value.

(** [interface Serializer<T>] *)
Record Serializer : Type := {
  classConstructor : ctor;
  s_serialize : serialize_fn;
  s_deserialize : deserialize_fn
}.

(** [interface SyncedField<QP>] *)
Record SyncedField : Type := {
  store : loc;
  property : string;
  queryParam : string;
  defaultValue : value;
  serialize : serialize_fn;
  deserialize : deserialize_fn
}.

(** The [config] argument of [register]; an absent [defaultValue] is
    [VUndefined]. *)
Record Config : Type := {
  cfg_defaultValue : value;
  cfg_serialize : option serialize_fn;
  cfg_deserialize : option deserialize_fn
}.

Definition no_config : Config :=
  {| cfg_defaultValue := VUndefined; cfg_serialize := None; cfg_deserialize := None |}.

(** A JavaScript [Map] with string keys, in insertion order. *)
Definition Map_has {V} (m : list (string * V)) (k : string) : bool :=
  existsb (fun kv => String.eqb kv.1 k) m.

Fixpoint Map_get {V} (m : list (string * V)) (k : string) : option V :=
  match m with
  | [] => None
  | (k', v) :: m' => if String.eqb k' k then Some v else Map_get m' k
  end.

Fixpoint Map_set {V} (m : list (string * V)) (k : string) (v : V) : list (string * V) :=
  match m with
  | [] => [(k, v)]
  | (k', v') :: m' =>
      if String.eqb k' k then (k', v) :: m' else (k', v') :: Map_set m' k v
  end.

(** The instance fields of [class MobXURLSync]; [serializers] is listed
    in [for ... in] order, [lastUpdateTime = 0] means no update yet. *)
Record MobXURLSync : Type := {
  serializers : list (string * Serializer);
  debounceDelay : Z;
  fields : list (string * SyncedField);
  updateTimer : option nat;
  lastUpdateTime : Z
}.

Record state : Type := {
  this : MobXURLSync;
  reactionValue : string;            (* last value of the reaction's expression *)
  interceptors : list (loc * string); (* properties given a pass-through interceptor *)
  stores : heap;
  window : Window
}.

Definition DEFAULT_DEBOUNCE_DELAY : Z := 500.

(** [new MobXURLSync(serializers, { debounceDelay })] *)
Definition new_MobXURLSync (serializers : list (string * Serializer))
           (debounceDelay : option Z) : MobXURLSync :=
  {| serializers := serializers;
     debounceDelay := default DEFAULT_DEBOUNCE_DELAY debounceDelay;
     fields := [];
     updateTimer := None;
     lastUpdateTime := 0 |}.

Definition with_fields (e : MobXURLSync) fs : MobXURLSync :=
  {| serializers := serializers e; debounceDelay := debounceDelay e;
     fields := fs; updateTimer := updateTimer e; lastUpdateTime := lastUpdateTime e |}.
Definition with_updateTimer (e : MobXURLSync) t : MobXURLSync :=
  {| serializers := serializers e; debounceDelay := debounceDelay e;
     fields := fields e; updateTimer := t; lastUpdateTime := lastUpdateTime e |}.
Definition with_lastUpdateTime (e : MobXURLSync) t : MobXURLSync :=
  {| serializers := serializers e; debounceDelay := debounceDelay e;
     fields := fields e; updateTimer := updateTimer e; lastUpdateTime := t |}.

Definition with_this (st : state) e : state :=
  {| this := e; reactionValue := reactionValue st; interceptors := interceptors st;
     stores := stores st; window := window st |}.
Definition with_reactionValue (st : state) v : state :=
  {| this := this st; reactionValue := v; interceptors := interceptors st;
     stores := stores st; window := window st |}.
Definition with_interceptors (st : state) i : state :=
  {| this := this st; reactionValue := reactionValue st; interceptors := i;
     stores := stores st; window := window st |}.
Definition with_stores (st : state) h : state :=
  {| this := this st; reactionValue := reactionValue st; interceptors := interceptors st;
     stores := h; window := window st |}.
Definition with_window (st : state) w : state :=
  {| this := this st; reactionValue := reactionValue st; interceptors := interceptors st;
     stores := stores st; window := w |}.

(** A method: it ends normally or throws, and leaves a state either way. *)
Definition M (A : Type) : Type := state → result A * state.

(** *** The host's operations *)

(** [window.setTimeout(callback, wait)]: a negative wait counts as 0. *)
Definition setTimeout (wait : Z) (w : Window) : nat * Window :=
  (nextTimeout w,
   {| location := location w; history := history w; clock := clock w;
      timeouts := timeouts w ++ [(nextTimeout w, clock w + Z.max 0 wait)];
      nextTimeout := S (nextTimeout w) |}).

(** [clearTimeout(handle)] *)
Definition clearTimeout (handle : nat) (w : Window) : Window :=
  {| location := location w; history := history w; clock := clock w;
     timeouts := filter (fun t => t.1 ≠ handle) (timeouts w);
     nextTimeout := nextTimeout w |}.

(** The characters the URL parser leaves as they are in a path: printable
    ASCII outside the path percent-encode set (double quote, [#], [<], [>],
    [?], [^], backquote, braces), the backslash excluded, which the parser
    reads as a slash. *)
Definition path_char (c : ascii) : bool :=
  let n := nat_of_ascii c in
  (33 <=? n)%nat && (n <=? 126)%nat
  && negb (existsb (Nat.eqb n) [34; 35; 60; 62; 63; 92; 94; 96; 123; 125]%nat).

(** No segment is empty or starts with a dot or a percent sign, so none is
    a dot segment ([.], [..], [%2e]), which the parser would resolve away;
    [slash]: the previous character ended a segment. *)
Fixpoint path_segments (slash : bool) (p : string) : bool :=
  match p with
  | EmptyString => true
  | String c rest =>
      path_char c
      && negb (slash && (Ascii.eqb c "/" || Ascii.eqb c "." || Ascii.eqb c "%"))
      && path_segments (Ascii.eqb c "/") rest
  end.

(** A path that [history.replaceState] resolves on the document's own
    origin and leaves as it is: a slash followed by such segments.  A
    reference starting with two slashes, or a slash and a backslash, names
    another host, and the browser refuses it with a SecurityError; a [#]
    would start a fragment.  The paths [location.pathname] reports are of
    this kind, up to empty segments and segments starting with a dot or an
    escape, which are left out here. *)
Definition path_absolute (p : string) : bool :=
  match p with
  | String "/" rest => path_segments true rest
  | _ => false
  end.

(** [window.history.replaceState(null, '', url)] for a [url] made of a
    path and an optional query, the path being one the browser resolves on
    the document's own origin and leaves as it is (see [path_absolute]; the
    theorems that read the location after a write assume it, on other paths
    the browser throws or normalises): the call is logged, the entry's path
    and query are replaced and its fragment is dropped. *)
Definition replaceState (url : string) (w : Window) : Window :=
  {| location :=
       {| origin := origin (location w);
          pathname := Str.before "?" url;
          search := (let q := Str.from "?" url in if String.eqb q "?" then "" else q);
          hash := "" |};
     history := history w ++ [url];
     clock := clock w;
     timeouts := timeouts w;
     nextTimeout := nextTimeout w |}.

Definition set_clock (t : Z) (w : Window) : Window :=
  {| location := location w; history := history w; clock := t;
     timeouts := timeouts w; nextTimeout := nextTimeout w |}.

(** *** [getAutoSerializer] *)

Fixpoint find_serializer (l : list (string * Serializer)) (val : value)
  : option (serialize_fn * deserialize_fn) :=
  match l with
  | [] => None
  | (_, s) :: l' =>
      if instanceof val (classConstructor s) then Some (s_serialize s, s_deserialize s)
      else find_serializer l' val
  end.

(** The serialize/deserialize halves of the object the method returns. *)
Definition getAutoSerializer (e : MobXURLSync) (val : value)
  : option (serialize_fn * deserialize_fn) :=
  if bool_decide (typeof val ∈ ["string"; "number"; "boolean"]) then
    Some (ToString, fun s => Ok (VString s))
  else find_serializer (serializers e) val.

(** *** [buildQueryString] *)

Fixpoint buildParams (fs : list (string * SyncedField)) (h : heap)
         (params : URLSearchParams.t) : result URLSearchParams.t :=
  match fs with
  | [] => Ok params
  | (_, f) :: fs' =>
      let raw := heap_get h (store f) (property f) in
      result_bind (serialize f raw) (fun str =>
      result_bind (serialize f (defaultValue f)) (fun dflt =>
        buildParams fs' h
          (if String.eqb str dflt then params
           else URLSearchParams.set params (queryParam f) str)))
  end.

Definition buildQueryString (st : state) : result string :=
  result_map URLSearchParams.toString
             (buildParams (fields (this st)) (stores st) URLSearchParams.empty).

(** *** [applyUrlUpdate] *)

Definition applyUrlUpdate : M unit := fun st =>
  let st := with_this st (with_lastUpdateTime (this st) (clock (window st))) in
  match buildQueryString st with
  | Throw e => (Throw e, st)
  | Ok qs =>
      let base := pathname (location (window st)) in
      let newUrl := if String.eqb qs "" then base else base +:+ "?" +:+ qs in
      if String.eqb newUrl
           (Str.before "?" (href (location (window st))) +:+ search (location (window st)))
      then (Ok (), st)
      else (Ok (), with_window st (replaceState newUrl (window st)))
  end.

(** The callback armed by [scheduleUrlUpdate]:
    [() => { this.applyUrlUpdate(); this.updateTimer = undefined }] *)
Definition updateTimerCallback : M unit := fun st =>
  match applyUrlUpdate st with
  | (Ok _, st') => (Ok (), with_this st' (with_updateTimer (this st') None))
  | (Throw e, st') => (Throw e, st')
  end.

(** *** [scheduleUrlUpdate] *)

(** The block [if (this.updateTimer != null) { clearTimeout(...);
    this.updateTimer = undefined }]. *)
Definition cancelPending (st : state) : state :=
  match updateTimer (this st) with
  | Some handle =>
      with_this (with_window st (clearTimeout handle (window st)))
                (with_updateTimer (this st) None)
  | None => st
  end.

Definition scheduleUrlUpdate : M unit := fun st =>
  let now := clock (window st) in
  let elapsed := now - lastUpdateTime (this st) in
  let st := cancelPending st in
  if (lastUpdateTime (this st) =? 0) || (debounceDelay (this st) <=? elapsed) then
    applyUrlUpdate st
  else
    let wait := debounceDelay (this st) - elapsed in
    let '(handle, w) := setTimeout wait (window st) in
    (Ok (), with_this (with_window st w) (with_updateTimer (this st) (Some handle))).

(** *** [register] *)

Definition duplicate_message (queryParam : string) : string :=
  "Query param " +:+ dquote +:+ queryParam +:+ dquote +:+ " already registered.".

Definition missing_message (property : string) : string :=
  "Property " +:+ dquote +:+ property +:+ dquote
    +:+ " requires serialize/deserialize functions.".

(** The pair [register] ends up with after consulting [getAutoSerializer]. *)
Definition resolve_pair (e : MobXURLSync) (config : Config) (defaultVal : value)
  : option serialize_fn * option deserialize_fn :=
  let serialize := cfg_serialize config in
  let deserialize := cfg_deserialize config in
  if negb (bool_decide (is_Some serialize)) || negb (bool_decide (is_Some deserialize)) then
    match getAutoSerializer e defaultVal with
    | Some auto =>
        (Some (default auto.1 serialize), Some (default auto.2 deserialize))
    | None => (serialize, deserialize)
    end
  else (serialize, deserialize).

(** The hydration block of [register], with its [try]/[catch].
    [params.get] cannot return [null] once [params.has] answered true
    ([URLSearchParamsFacts.has_get]), so the [None] branch is never taken. *)
Definition hydrate (store : loc) (property queryParam : string)
           (deserialize : deserialize_fn) (st : state) : state :=
  let params := URLSearchParams.new (search (location (window st))) in
  if URLSearchParams.has params queryParam then
    match URLSearchParams.get params queryParam with
    | Some raw =>
        match deserialize raw with
        | Ok v => with_stores st (heap_set (stores st) store property v)
        | Throw _ => st            (* catch { ignore parse errors } *)
        end
    | None => st
    end
  else st.

(** [register], with the outcome of its last statement, MobX's
    [intercept(store, property, change => change)], as a parameter: [None]
    when MobX installs the handler, [Some e] when it throws [e] because it
    cannot intercept that property (the store is not observable, or the
    property is not one of its observable members). *)
Definition register_with (intercept : option exn) (store : loc)
           (property queryParam : string) (config : Config) : M unit := fun st =>
  if Map_has (fields (this st)) queryParam then
    (Throw (Error (duplicate_message queryParam)), st)
  else
    let defaultVal :=
      nullish_or (cfg_defaultValue config) (heap_get (stores st) store property) in
    match resolve_pair (this st) config defaultVal with
    | (Some serialize, Some deserialize) =>
        let st := hydrate store property queryParam deserialize st in
        let st :=
          with_this st
            (with_fields (this st)
               (Map_set (fields (this st)) queryParam
                  {| store := store; property := property; queryParam := queryParam;
                     defaultValue := defaultVal;
                     serialize := serialize; deserialize := deserialize |})) in
        match intercept with
        | None => (Ok (), with_interceptors st (interceptors st ++ [(store, property)]))
        | Some e => (Throw e, st)
        end
    | _ => (Throw (Error (missing_message property)), st)
    end.

(** [register] on a store whose property MobX can intercept: the stores
    of the runs below are MobX observables. *)
Definition register (store : loc) (property queryParam : string)
           (config : Config) : M unit :=
  register_with None store property queryParam config.

(** *** The reaction set up by the constructor and the events of a run *)

(** [reaction(() => this.buildQueryString(), () => this.scheduleUrlUpdate())]:
    MobX re-evaluates the expression after an observed change and runs the
    effect when the value differs from the last one; an exception in either
    is reported by MobX and goes no further. *)
Definition runReaction (st : state) : state :=
  match buildQueryString st with
  | Ok qs =>
      if String.eqb qs (reactionValue st) then st
      else (scheduleUrlUpdate (with_reactionValue st qs)).2
  | Throw _ => st
  end.

Inductive event : Type :=
| EvRegister (store : loc) (property queryParam : string) (config : Config)
| EvAssign (store : loc) (property : string) (v : value)
| EvClock (t : Z)
| EvTimeout (handle : nat).

Definition due_of (handle : nat) (w : Window) : option Z :=
  snd <$> find (fun t => bool_decide (t.1 = handle)) (timeouts w).

Definition step (ev : event) (st : state) : state :=
  match ev with
  | EvRegister store property queryParam config =>
      runReaction (register store property queryParam config st).2
  | EvAssign store property v =>
      runReaction (with_stores st (heap_set (stores st) store property v))
  | EvClock t => with_window st (set_clock t (window st))
  | EvTimeout handle =>
      match due_of handle (window st) with
      | Some due =>
          if due <=? clock (window st) then
            (updateTimerCallback (with_window st (clearTimeout handle (window st)))).2
          else st
      | None => st
      end
  end.

Definition run (evs : list event) (st : state) : state :=
  foldl (fun st ev => step ev st) st evs.

(** The state right after [new MobXURLSync(...)]; the reaction has
    evaluated its expression once, on an empty field map. *)
Definition initial (e : MobXURLSync) (h : heap) (w : Window) : state :=
  {| this := e; reactionValue := ""; interceptors := []; stores := h; window := w |}.

End Engine.

(** ** The per-field variant of the engine

    The second class of the repository: [registerField] hydrates after it
    has stored the entry and does not catch, each entry carries its own
    [updateTimer] and [lastUpdateTime], and the interceptor of a field
    computes the parameters to write from the live URL and the incoming
    value.  It shares the host model above. *)

Module PerField.
Section PerField.
Context {R : JSRuntime}.

Definition DEFAULT_THROTTLE_DELAY : Z := 500.

(** [interface FieldEntry<QP>]; the two optional numbers are [None] when
    [undefined]. *)
Record FieldEntry : Type := {
  store : loc;
  property : string;
  queryParam : string;
  defaultValue : value;
  serialize : serialize_fn;
  deserialize : deserialize_fn;
  updateTimer : option nat;
  lastUpdateTime : option Z
}.

Record MobXURLSync : Type := {
  defaultSerializers : list (string * Serializer);
  throttleDelay : Z;
  fields : list (string * FieldEntry)
}.

(** The constructor keeps the default delay when [options.throttleDelay]
    is absent or falsy (zero). *)
Definition new_MobXURLSync (defaultSerializers : list (string * Serializer))
           (throttleDelay : option Z) : MobXURLSync :=
  {| defaultSerializers := defaultSerializers;
     throttleDelay :=
       match throttleDelay with
       | Some d => if d =? 0 then DEFAULT_THROTTLE_DELAY else d
       | None => DEFAULT_THROTTLE_DELAY
       end;
     fields := [] |}.

(** [interceptors]: (store, property, key of the field the handler closes
    over), in order of installation.  [closures]: for each armed timer,
    the field and the [newParams] its [updateUrl] closure holds. *)
Record state : Type := {
  this : MobXURLSync;
  interceptors : list (loc * string * string);
  closures : list (nat * (string * URLSearchParams.t));
  stores : heap;
  window : Window
}.

Definition M (A : Type) : Type := state → result A * state.

Definition with_fields (st : state) fs : state :=
  {| this := {| defaultSerializers := defaultSerializers (this st);
                throttleDelay := throttleDelay (this st); fields := fs |};
     interceptors := interceptors st; closures := closures st;
     stores := stores st; window := window st |}.
Definition with_interceptors (st : state) i : state :=
  {| this := this st; interceptors := i; closures := closures st;
     stores := stores st; window := window st |}.
Definition with_closures (st : state) c : state :=
  {| this := this st; interceptors := interceptors st; closures := c;
     stores := stores st; window := window st |}.
Definition with_stores (st : state) h : state :=
  {| this := this st; interceptors := interceptors st; closures := closures st;
     stores := h; window := window st |}.
Definition with_window (st : state) w : state :=
  {| this := this st; interceptors := interceptors st; closures := closures st;
     stores := stores st; window := w |}.

Definition with_timer (f : FieldEntry) (timer : option nat) (last : option Z) : FieldEntry :=
  {| store := store f; property := property f; queryParam := queryParam f;
     defaultValue := defaultValue f; serialize := serialize f;
     deserialize := deserialize f; updateTimer := timer; lastUpdateTime := last |}.

(** *** [getDefaultSerializer] *)

Definition getDefaultSerializer (e : MobXURLSync) (v : value)
  : option (serialize_fn * deserialize_fn) :=
  if String.eqb (typeof v) "string" || String.eqb (typeof v) "number"
     || String.eqb (typeof v) "boolean"
  then Some (ToString, fun s => Ok (VString s))
  else find_serializer (defaultSerializers e) v.

(** *** [startInterceptorForField]: the handler and its [updateUrl] *)

(** [updateUrl] of the field stored under [key], closing over [newParams]. *)
Definition updateUrl (key : string) (newParams : URLSearchParams.t) (st : state) : state :=
  let st :=
    match Map_get (fields (this st)) key with
    | Some field =>
        with_fields st
          (Map_set (fields (this st)) key
                   (with_timer field None (Some (clock (window st)))))
    | None => st
    end in
  let qs := URLSearchParams.toString newParams in
  with_window st
    (replaceState
       (pathname (location (window st))
          +:+ (if String.eqb qs "" then "" else "?" +:+ qs))
       (window st)).

(** The handler installed for the field under [key], run on a change to
    [newValue] before the store takes the value. *)
Definition intercept_handler (key : string) (newValue : value) : M unit := fun st =>
  match Map_get (fields (this st)) key with
  | None => (Ok (), st)
  | Some field =>
      let currentParams := URLSearchParams.new (search (location (window st))) in
      let newParams := URLSearchParams.new (URLSearchParams.toString currentParams) in
      match serialize field newValue with
      | Throw e => (Throw e, st)
      | Ok serializedValue =>
          match serialize field (defaultValue field) with
          | Throw e => (Throw e, st)
          | Ok dflt =>
              let newParams :=
                if String.eqb serializedValue dflt
                then URLSearchParams.delete newParams (queryParam field)
                else URLSearchParams.set newParams (queryParam field) serializedValue in
              if String.eqb (URLSearchParams.toString newParams)
                            (URLSearchParams.toString currentParams)
              then (Ok (), st)
              else
                let now := clock (window st) in
                let immediate :=
                  match lastUpdateTime field with
                  | None => true
                  | Some last => (last =? 0) || (throttleDelay (this st) <=? now - last)
                  end in
                if immediate then (Ok (), updateUrl key newParams st)
                else
                  let w :=
                    match updateTimer field with
                    | Some handle => if (handle =? 0)%nat then window st
                                     else clearTimeout handle (window st)
                    | None => window st
                    end in
                  let timeRemaining :=
                    throttleDelay (this st) - (now - default 0 (lastUpdateTime field)) in
                  let '(handle, w) := setTimeout timeRemaining w in
                  (Ok (),
                   with_closures
                     (with_window
                        (with_fields st
                           (Map_set (fields (this st)) key
                                    (with_timer field (Some handle) (lastUpdateTime field))))
                        w)
                     (closures st ++ [(handle, (key, newParams))]))
          end
      end
  end.

Fixpoint run_interceptors (hs : list (loc * string * string)) (store : loc)
         (property : string) (newValue : value) : M unit := fun st =>
  match hs with
  | [] => (Ok (), st)
  | (s, p, key) :: hs' =>
      if bool_decide (s = store) && String.eqb p property then
        match intercept_handler key newValue st with
        | (Ok _, st') => run_interceptors hs' store property newValue st'
        | (Throw e, st') => (Throw e, st')
        end
      else run_interceptors hs' store property newValue st
  end.

(** [store[property] = v] on an observable store: the interceptors run,
    then the value is committed; a throwing interceptor aborts the write. *)
Definition assign (store : loc) (property : string) (v : value) : M unit := fun st =>
  match run_interceptors (interceptors st) store property v st with
  | (Ok _, st') => (Ok (), with_stores st' (heap_set (stores st') store property v))
  | (Throw e, st') => (Throw e, st')
  end.

(** *** [loadFromURLForField] *)

(** Line 207 assigns to the store's property: the interceptors already
    installed on it run, as for any assignment, and what they throw leaves
    the method. *)
Definition loadFromURLForField (field : FieldEntry) : M unit := fun st =>
  let params := URLSearchParams.new (search (location (window st))) in
  if URLSearchParams.has params (queryParam field) then
    match URLSearchParams.get params (queryParam field) with
    | Some valueStr =>
        match deserialize field valueStr with
        | Ok v => assign (store field) (property field) v st
        | Throw e => (Throw e, st)
        end
    | None => (Ok (), st)
    end
  else (Ok (), st).

(** *** [registerField] *)

Definition duplicate_message (queryParam : string) : string :=
  "Query param " +:+ dquote +:+ queryParam +:+ dquote +:+ " is already registered.".

Definition missing_message (property : string) : string :=
  "For property " +:+ dquote +:+ property +:+ dquote
    +:+ ", custom serialize/deserialize functions must be provided.".

(** [config.serialize] and [config.deserialize] after lines 164-170. *)
Definition resolve_pair (e : MobXURLSync) (config : Config) (current : value)
  : option serialize_fn * option deserialize_fn :=
  let serialize := cfg_serialize config in
  let deserialize := cfg_deserialize config in
  if negb (bool_decide (is_Some serialize)) || negb (bool_decide (is_Some deserialize)) then
    match getDefaultSerializer e current with
    | Some serializer =>
        (Some (default serializer.1 serialize), Some (default serializer.2 deserialize))
    | None => (serialize, deserialize)
    end
  else (serialize, deserialize).

(** The caller's [config] object after lines 159-170, which write into it:
    [defaultValue] when it was [undefined], then the two functions. *)
Definition fill_config (e : MobXURLSync) (config : Config) (current : value) : Config :=
  {| cfg_defaultValue :=
       match cfg_defaultValue config with
       | VUndefined => current
       | v => v
       end;
     cfg_serialize := (resolve_pair e config current).1;
     cfg_deserialize := (resolve_pair e config current).2 |}.

(** [registerField], with the outcome of MobX's [intercept] in
    [startInterceptorForField] as a parameter ([None]: the handler is
    installed, [Some e]: MobX throws [e]).  Besides the outcome and the
    state, it returns the caller's [config] object as the call leaves it. *)
Definition registerField_with (intercept : option exn) (store : loc)
           (property queryParam : string) (config : Config)
  : state → result unit * state * Config := fun st =>
  if Map_has (fields (this st)) queryParam then
    (Throw (Error (duplicate_message queryParam)), st, config)
  else
    let config := fill_config (this st) config (heap_get (stores st) store property) in
    match cfg_serialize config, cfg_deserialize config with
    | Some serialize, Some deserialize =>
        let fieldEntry :=
          {| store := store; property := property; queryParam := queryParam;
             defaultValue := cfg_defaultValue config;
             serialize := serialize; deserialize := deserialize;
             updateTimer := None; lastUpdateTime := None |} in
        let st := with_fields st (Map_set (fields (this st)) queryParam fieldEntry) in
        match loadFromURLForField fieldEntry st with
        | (Ok _, st) =>
            match intercept with
            | None =>
                (Ok (),
                 with_interceptors st (interceptors st ++ [(store, property, queryParam)]),
                 config)
            | Some e => (Throw e, st, config)
            end
        | (Throw e, st) => (Throw e, st, config)
        end
    | _, _ => (Throw (Error (missing_message property)), st, config)
    end.

(** [registerField] on a store MobX can intercept. *)
Definition registerField (store : loc) (property queryParam : string)
           (config : Config) : M unit := fun st =>
  (registerField_with None store property queryParam config st).1.

(** The host runs the [setTimeout] callback of [handle] once it is due. *)
Definition timeout (handle : nat) (st : state) : state :=
  match due_of handle (window st), snd <$> find (fun c => bool_decide (c.1 = handle)) (closures st) with
  | Some due, Some (key, newParams) =>
      if due <=? clock (window st) then
        updateUrl key newParams (with_window st (clearTimeout handle (window st)))
      else st
  | _, _ => st
  end.

(** The clock moves to [t]. *)
Definition tick (t : Z) (st : state) : state :=
  with_window st (set_clock t (window st)).

Definition initial (e : MobXURLSync) (h : heap) (w : Window) : state :=
  {| this := e; interceptors := []; closures := []; stores := h; window := w |}.

End PerField.
End PerField.

(** ** A concrete runtime for examples

    Numbers are the integers, printed in decimal as [String(n)] prints
    them; an object is given by the names of the classes on its prototype
    chain and prints as plain objects do. *)

Definition Z_to_string (n : Z) : string := NilZero.string_of_int (Z.to_int n).

Definition demo_runtime : JSRuntime := {|
  number := Z;
  object := list string;
  ctor := string;
  NumberToString := Z_to_string;
  ObjectToString := fun _ => Ok "[object Object]";
  instance_of := fun o C => bool_decide (C ∈ o)
|}.

Module Demo.

#[local] Existing Instance demo_runtime.

Definition page (search : string) : Window :=
  {| location := {| origin := "http://localhost"; pathname := "/app";
                    search := search; hash := "" |};
     history := []; clock := 1000; timeouts := []; nextTimeout := 1 |}.

Definition num (n : Z) : value := VNumber n.

(** What MobX throws from [intercept] on an object it does not observe. *)
Definition mobx_error : exn := Error "[MobX] Cannot obtain atom from [object Object]".

(** A store [{ counter: 0 }] at address 1. *)
Definition counterStore : heap := {[ 1%positive := {[ "counter" := VNumber 0 ]} ]}.

Definition engine : MobXURLSync := new_MobXURLSync [] None.

Definition fresh (search : string) : state :=
  initial engine counterStore (page search).

Definition registered (search : string) : state :=
  step (EvRegister 1%positive "counter" "counter" no_config) (fresh search).

(** The entry that registration makes for [counter]. *)
Definition counterField : SyncedField :=
  {| store := 1%positive; property := "counter"; queryParam := "counter";
     defaultValue := VNumber 0;
     serialize := ToString; deserialize := fun s => Ok (VString s) |}.

(** The engine with [counter] registered, [store.counter = v], the page
    at [search] and the last update at time [last] (0: none yet). *)
Definition synced (v : value) (search : string) (last : Z) : state :=
  {| this := {| serializers := []; debounceDelay := 500;
                fields := [("counter", counterField)];
                updateTimer := None; lastUpdateTime := last |};
     reactionValue := match search with String _ qs => qs | EmptyString => "" end;
     interceptors := [(1%positive, "counter")];
     stores := {[ 1%positive := {[ "counter" := v ]} ]};
     window := page search |}.

(** A deserializer that rejects every input. *)
Definition strict_config : Config :=
  {| cfg_defaultValue := VUndefined;
     cfg_serialize := None;
     cfg_deserialize := Some (fun _ => Throw (Error "not a number")) |}.

(** Three assignments within 6 ms, then the end of the delay. *)
Definition burst : list event :=
  [EvAssign 1%positive "counter" (VNumber 1); EvClock 1003;
   EvAssign 1%positive "counter" (VNumber 2); EvClock 1006;
   EvAssign 1%positive "counter" (VNumber 3)].

(** The per-field variant on the same page, with a second store
    [{ page: 1 }] at address 2. *)
Definition twoStores : heap :=
  {[ 1%positive := {[ "counter" := VNumber 0 ]};
     2%positive := {[ "page" := VNumber 1 ]} ]}.

Definition perField (h : heap) (search : string) : PerField.state :=
  PerField.initial (PerField.new_MobXURLSync [] None) h (page search).

(** A store whose [counter] holds an object of class [Big]. *)
Definition objectStore : heap := {[ 1%positive := {[ "counter" := VObject ["Big"] ]} ]}.

Definition numeric_default : Config :=
  {| cfg_defaultValue := VNumber 0; cfg_serialize := None; cfg_deserialize := None |}.

(** Both halves given, for the class [Big]. *)
Definition both_config : Config :=
  {| cfg_defaultValue := VUndefined;
     cfg_serialize := Some (fun _ => Ok "big");
     cfg_deserialize := Some (fun _ => Ok (VObject ["Big"])) |}.

End Demo.

Module DemoMore.

#[local] Existing Instance demo_runtime.
Import Demo.

(** Serializers for three classes; every object is an [Object]. *)
Definition classSerializer (C : string) : Serializer :=
  {| classConstructor := C;
     s_serialize := fun _ => Ok C;
     s_deserialize := fun _ => Ok (VObject [C; "Object"]) |}.

Definition table : list (string * Serializer) :=
  [("date", classSerializer "Date"); ("object", classSerializer "Object");
   ("big", classSerializer "Big")].

Definition big : value := VObject ["Big"; "Object"].

(** A store whose [counter] is [undefined]. *)
Definition emptyStore : heap := {[ 1%positive := ∅ ]}.

(** A field whose serializer always throws. *)
Definition brokenField : SyncedField :=
  {| store := 2%positive; property := "page"; queryParam := "page";
     defaultValue := VNumber 1;
     serialize := fun _ => Throw (Error "boom");
     deserialize := fun s => Ok (VString s) |}.

Definition withBroken : state :=
  {| this := {| serializers := []; debounceDelay := 500;
                fields := [("counter", counterField); ("page", brokenField)];
                updateTimer := Some 4%nat; lastUpdateTime := 400 |};
     reactionValue := "";
     interceptors := [(1%positive, "counter"); (2%positive, "page")];
     stores := twoStores;
     window := page "" |}.

(** The engine of [synced], with a delay of zero. *)
Definition undelayed (v : value) (search : string) (last : Z) : state :=
  {| this := {| serializers := []; debounceDelay := 0;
                fields := [("counter", counterField)];
                updateTimer := None; lastUpdateTime := last |};
     reactionValue := "";
     interceptors := [(1%positive, "counter")];
     stores := {[ 1%positive := {[ "counter" := v ]} ]};
     window := page search |}.

(** The per-field variant with [counter] registered. *)
Definition pfRegistered (search : string) : PerField.state :=
  (PerField.registerField 1%positive "counter" "counter" no_config
     (perField counterStore search)).2.

Definition pfCounterField (timer : option nat) (last : option Z) : PerField.FieldEntry :=
  {| PerField.store := 1%positive; PerField.property := "counter";
     PerField.queryParam := "counter"; PerField.defaultValue := VNumber 0;
     PerField.serialize := ToString; PerField.deserialize := fun s => Ok (VString s);
     PerField.updateTimer := timer; PerField.lastUpdateTime := last |}.

(** After a first change at 1000, three milliseconds later. *)
Definition pfChanged : PerField.state :=
  PerField.tick 1003 (PerField.assign 1%positive "counter" (num 1) (pfRegistered "")).2.

Definition broken_config : Config :=
  {| cfg_defaultValue := VUndefined;
     cfg_serialize := Some (fun _ => Throw (Error "boom"));
     cfg_deserialize := Some (fun s => Ok (VString s)) |}.

Definition pfBroken : PerField.state :=
  (PerField.registerField 1%positive "counter" "counter" broken_config
     (perField counterStore "")).2.

Definition pfBrokenField : PerField.FieldEntry :=
  {| PerField.store := 1%positive; PerField.property := "counter";
     PerField.queryParam := "counter"; PerField.defaultValue := VNumber 0;
     PerField.serialize := fun _ => Throw (Error "boom");
     PerField.deserialize := fun s => Ok (VString s);
     PerField.updateTimer := None; PerField.lastUpdateTime := None |}.

End DemoMore.

(** ** Invariants and specification-level definitions *)

Section Invariants.
Context {R : JSRuntime}.

(** What [register] maintains of the field map: keys are distinct, and
    each entry is stored under its own [queryParam]. *)
Definition fields_wf (fs : list (string * SyncedField)) : Prop :=
  NoDup fs.*1 ∧ Forall (fun kf => kf.1 = queryParam kf.2) fs.

(** The desired parameters, entry by entry: the pair of an entry is
    there unless its value serializes like its default. *)
Definition desiredParams (fs : list (string * SyncedField)) (h : heap)
  : URLSearchParams.t :=
  omap (fun kf : string * SyncedField =>
          let f := kf.2 in
          match serialize f (heap_get h (store f) (property f)),
                serialize f (defaultValue f) with
          | Ok str, Ok dflt =>
              if String.eqb str dflt then None else Some (queryParam f, str)
          | _, _ => None
          end) fs.

(** Both serializations [buildQueryString] asks of an entry return. *)
Definition serializes (h : heap) (kf : string * SyncedField) : Prop :=
  ∃ str dflt,
    serialize kf.2 (heap_get h (store kf.2) (property kf.2)) = Ok str
    ∧ serialize kf.2 (defaultValue kf.2) = Ok dflt.

(** A location as browsers have them, on which the engine can write: in
    [href] the path comes after a non-empty scheme and authority, neither
    holds a question mark, and the path is one that [replaceState] accepts
    and leaves as it is. *)
Definition location_wf (l : Location) : Prop :=
  origin l ≠ "" ∧ Str.occurs "?" (origin l) = false
  ∧ Str.occurs "?" (pathname l) = false
  ∧ path_absolute (pathname l) = true.

(** The URL [applyUrlUpdate] computes for a query string. *)
Definition newUrl_of (l : Location) (qs : string) : string :=
  if String.eqb qs "" then pathname l else pathname l +:+ "?" +:+ qs.

(** At most one callback is pending, the engine holds its handle, and it
    is due one delay after the last update. *)
Definition timer_inv (st : state) : Prop :=
  match timeouts (window st) with
  | [] => True
  | [(handle, due)] =>
      updateTimer (this st) = Some handle
      ∧ lastUpdateTime (this st) ≠ 0
      ∧ due = lastUpdateTime (this st) + debounceDelay (this st)
  | _ => False
  end.

(** The URL write a flush of [st] performs, if any. *)
Definition flush_writes (st : state) : list string :=
  match buildQueryString st with
  | Ok qs =>
      let l := location (window st) in
      if String.eqb (newUrl_of l qs) (Str.before "?" (href l) +:+ search l)
      then [] else [newUrl_of l qs]
  | Throw _ => []
  end.

(** [st] lies in the delay window opened by the last update of [st0]:
    nothing was written since, and the clock is before its end. *)
Definition quiet (st0 st : state) : Prop :=
  timer_inv st
  ∧ lastUpdateTime (this st) = lastUpdateTime (this st0)
  ∧ debounceDelay (this st) = debounceDelay (this st0)
  ∧ history (window st) = history (window st0)
  ∧ location (window st) = location (window st0)
  ∧ clock (window st) < lastUpdateTime (this st0) + debounceDelay (this st0).

Definition pending (st : state) : Prop := timeouts (window st) ≠ [].

(** Events that can occur strictly inside the delay window that follows
    the update at [lastUpdateTime]: assignments to store properties, clock
    readings before the window closes, and the host polling timers. *)
Definition in_window (st : state) (ev : event) : Prop :=
  match ev with
  | EvAssign _ _ _ => True
  | EvClock t => t < lastUpdateTime (this st) + debounceDelay (this st)
  | EvTimeout _ => True
  | EvRegister _ _ _ _ => False
  end.

(** Does this event make the reaction run its effect? *)
Definition signals (ev : event) (st : state) : bool :=
  match ev with
  | EvAssign store property v =>
      match buildQueryString (with_stores st (heap_set (stores st) store property v)) with
      | Ok qs => negb (String.eqb qs (reactionValue st))
      | Throw _ => false
      end
  | _ => false
  end.

Fixpoint signalled (evs : list event) (st : state) : bool :=
  match evs with
  | [] => false
  | ev :: evs' => signals ev st || signalled evs' (step ev st)
  end.

End Invariants.

(** ** Further specification-level definitions *)

Section MoreDefinitions.
Context {R : JSRuntime}.

Definition is_throw {A} (r : result A) : Prop :=
  match r with
  | Throw _ => True
  | Ok _ => False
  end.

(** No serializer of the table matches the value. *)
Definition unmatched (val : value) (l : list (string * Serializer)) : Prop :=
  Forall (fun ks => instanceof val (classConstructor ks.2) = false) l.

(** The heap after the assignments of a list of events, in order. *)
Definition assigned (evs : list event) (h : heap) : heap :=
  foldl (fun h ev =>
           match ev with
           | EvAssign store property v => heap_set h store property v
           | _ => h
           end) h evs.

Definition is_register (ev : event) : Prop :=
  match ev with
  | EvRegister _ _ _ _ => True
  | _ => False
  end.

(** No entry of the field map is bound to [store[property]]. *)
Definition unbound (fs : list (string * SyncedField)) (s : loc) (p : string) : Prop :=
  Forall (fun kf : string * SyncedField => (store kf.2, property kf.2) ≠ (s, p)) fs.

(** The parameters the per-field interceptor wants in the URL. *)
Definition nextParams (current : URLSearchParams.t) (key sv dflt : string)
  : URLSearchParams.t :=
  if String.eqb sv dflt then URLSearchParams.delete current key
  else URLSearchParams.set current key sv.

(** In the per-field variant: the first interceptor installed on
    [obj[prop]] is the one of the field stored under [key]. *)
Definition first_interceptor (st : PerField.state) (obj : loc) (prop key : string) : Prop :=
  ∃ pre post,
    PerField.interceptors st = (pre ++ (obj, prop, key) :: post)%list
    ∧ Forall (fun i : loc * string * string => (i.1.1, i.1.2) ≠ (obj, prop)) pre.

(** It is the only one installed on [obj[prop]]. *)
Definition sole_interceptor (st : PerField.state) (obj : loc) (prop key : string) : Prop :=
  ∃ pre post,
    PerField.interceptors st = (pre ++ (obj, prop, key) :: post)%list
    ∧ Forall (fun i : loc * string * string => (i.1.1, i.1.2) ≠ (obj, prop)) pre
    ∧ Forall (fun i : loc * string * string => (i.1.1, i.1.2) ≠ (obj, prop)) post.

(** No interceptor is installed on [obj[prop]] yet. *)
Definition unobserved (st : PerField.state) (obj : loc) (prop : string) : Prop :=
  Forall (fun i : loc * string * string => (i.1.1, i.1.2) ≠ (obj, prop))
         (PerField.interceptors st).

(** No installed interceptor belongs to the field stored under [key]. *)
Definition unclosed (st : PerField.state) (key : string) : Prop :=
  Forall (fun i : loc * string * string => i.2 ≠ key) (PerField.interceptors st).

(** The page has moved to [l], the stores to [h] and the clock to [t]. *)
Definition later (l : Location) (h : heap) (t : Z) (st : PerField.state) : PerField.state :=
  PerField.with_stores
    (PerField.with_window st
       {| location := l; history := history (PerField.window st); clock := t;
          timeouts := timeouts (PerField.window st);
          nextTimeout := nextTimeout (PerField.window st) |})
    h.

(** The timers left when the interceptor has cancelled the field's own. *)
Definition other_timeouts (field : PerField.FieldEntry) (w : Window) : list (nat * Z) :=
  match PerField.updateTimer field with
  | Some handle =>
      if (handle =? 0)%nat then timeouts w else filter (fun t => t.1 ≠ handle) (timeouts w)
  | None => timeouts w
  end.

End MoreDefinitions.

(** * Properties *)

(** ** Strings and the urlencoded codec *)

Module StrFacts.

#[local] Arguments String.append !_ _ / : simpl nomatch.

Lemma append_nil_r (s : string) : s +:+ "" = s.
Proof. induction s as [|c s IH]; simpl; [reflexivity | now rewrite IH]. Qed.

Lemma append_assoc (a b c : string) : (a +:+ b) +:+ c = a +:+ (b +:+ c).
Proof. induction a as [|x a IH]; simpl; [reflexivity | now rewrite IH]. Qed.

Lemma length_append (a b : string) :
  String.length (a +:+ b) = (String.length a + String.length b)%nat.
Proof. induction a as [|x a IH]; simpl; [reflexivity | now rewrite IH]. Qed.

Lemma occurs_append sep (a b : string) :
  Str.occurs sep (a +:+ b) = Str.occurs sep a || Str.occurs sep b.
Proof.
  induction a as [|x a IH]; simpl; [reflexivity |].
  rewrite IH. now destruct (Ascii.eqb x sep).
Qed.

Lemma before_append sep (a b : string) :
  Str.occurs sep a = false → Str.before sep (a +:+ String sep b) = a.
Proof.
  induction a as [|x a IH]; simpl.
  - intros _. now rewrite Ascii.eqb_refl.
  - destruct (Ascii.eqb x sep); simpl; [discriminate |].
    intros H. now rewrite IH.
Qed.

Lemma before_none sep (a : string) : Str.occurs sep a = false → Str.before sep a = a.
Proof.
  induction a as [|x a IH]; simpl; [reflexivity |].
  destruct (Ascii.eqb x sep); simpl; [discriminate |].
  intros H. now rewrite IH.
Qed.

Lemma occurs_before sep (a : string) : Str.occurs sep (Str.before sep a) = false.
Proof.
  induction a as [|x a IH]; simpl; [reflexivity |].
  destruct (Ascii.eqb x sep) eqn:E; simpl; [reflexivity |].
  now rewrite E.
Qed.

Lemma from_append sep (a b : string) :
  Str.occurs sep a = false → Str.from sep (a +:+ String sep b) = String sep b.
Proof.
  induction a as [|x a IH]; simpl.
  - intros _. now rewrite Ascii.eqb_refl.
  - destruct (Ascii.eqb x sep); simpl; [discriminate |].
    exact IH.
Qed.

Lemma from_none sep (a : string) : Str.occurs sep a = false → Str.from sep a = "".
Proof.
  induction a as [|x a IH]; simpl; [reflexivity |].
  destruct (Ascii.eqb x sep); simpl; [discriminate | exact IH].
Qed.

Lemma split_none sep (a : string) : Str.occurs sep a = false → Str.split sep a = [a].
Proof.
  induction a as [|x a IH]; simpl; [reflexivity |].
  destruct (Ascii.eqb x sep); simpl; [discriminate |].
  intros H. now rewrite IH.
Qed.

Lemma split_append sep (a b : string) :
  Str.occurs sep a = false →
  Str.split sep (a +:+ String sep b) = a :: Str.split sep b.
Proof.
  induction a as [|x a IH]; simpl.
  - intros _. now rewrite Ascii.eqb_refl.
  - destruct (Ascii.eqb x sep); simpl; [discriminate |].
    intros H. now rewrite IH.
Qed.

(** The part before the first separator is never longer than the string. *)
Lemma length_before sep (a b : string) :
  Str.occurs sep a = false →
  (String.length a <= String.length (Str.before sep (a +:+ b)))%nat.
Proof.
  induction a as [|x a IH]; simpl; [lia |].
  destruct (Ascii.eqb x sep); simpl; [discriminate |].
  intros H. specialize (IH H). lia.
Qed.

End StrFacts.

Module URLSearchParamsFacts.
Import URLSearchParams StrFacts.

#[local] Arguments String.append !_ _ / : simpl nomatch.

Lemma decode_encode_byte c rest : decode (encode_byte c rest) = String c (decode rest).
Proof. destruct c as [[] [] [] [] [] [] [] []]; reflexivity. Qed.

Lemma decode_encode s : decode (encode s) = s.
Proof.
  induction s as [|c s IH]; [reflexivity |].
  simpl encode. now rewrite decode_encode_byte, IH.
Qed.

Lemma amp_encode_byte c rest :
  Str.occurs "&" (encode_byte c rest) = Str.occurs "&" rest.
Proof. destruct c as [[] [] [] [] [] [] [] []]; reflexivity. Qed.

Lemma eq_encode_byte c rest :
  Str.occurs "=" (encode_byte c rest) = Str.occurs "=" rest.
Proof. destruct c as [[] [] [] [] [] [] [] []]; reflexivity. Qed.

Lemma question_encode_byte c rest :
  Str.occurs "?" (encode_byte c rest) = Str.occurs "?" rest.
Proof. destruct c as [[] [] [] [] [] [] [] []]; reflexivity. Qed.

Lemma amp_encode s : Str.occurs "&" (encode s) = false.
Proof. induction s as [|c s IH]; [reflexivity |]. simpl encode. now rewrite amp_encode_byte. Qed.

Lemma eq_encode s : Str.occurs "=" (encode s) = false.
Proof. induction s as [|c s IH]; [reflexivity |]. simpl encode. now rewrite eq_encode_byte. Qed.

Lemma question_encode s : Str.occurs "?" (encode s) = false.
Proof.
  induction s as [|c s IH]; [reflexivity |]. simpl encode. now rewrite question_encode_byte.
Qed.

Lemma render_pair_nonempty kv : render_pair kv ≠ "".
Proof.
  unfold render_pair. destruct (encode kv.1); simpl; discriminate.
Qed.

Lemma amp_render_pair kv : Str.occurs "&" (render_pair kv) = false.
Proof.
  unfold render_pair. rewrite !occurs_append, !amp_encode. reflexivity.
Qed.

Lemma question_render_pair kv : Str.occurs "?" (render_pair kv) = false.
Proof.
  unfold render_pair. rewrite !occurs_append, !question_encode. reflexivity.
Qed.

Lemma parse_pair_render kv : parse_pair (render_pair kv) = kv.
Proof.
  destruct kv as [k v]. unfold parse_pair, render_pair. simpl fst; simpl snd.
  change ("=" +:+ encode v) with (String "=" (encode v)).
  rewrite occurs_append.
  replace (Str.occurs "=" (String "=" (encode v))) with true by reflexivity.
  rewrite orb_true_r.
  rewrite before_append, from_append by apply eq_encode.
  now rewrite !decode_encode.
Qed.

Lemma split_concat (l : list string) :
  l ≠ [] → Forall (fun p => Str.occurs "&" p = false) l →
  Str.split "&" (String.concat "&" l) = l.
Proof.
  induction l as [|p l IH]; [congruence |].
  intros _ Hall. inversion_clear Hall as [|? ? Hp Hl].
  destruct l as [|q l].
  - simpl. now apply split_none.
  - change (String.concat "&" (p :: q :: l))
      with (p +:+ String "&" (String.concat "&" (q :: l))).
    rewrite split_append by assumption.
    f_equal. apply IH; [discriminate | assumption].
Qed.

Lemma toString_nil_iff (p : t) : toString p = "" ↔ p = [].
Proof.
  split; [| intros ->; reflexivity].
  destruct p as [|kv p]; [reflexivity |].
  unfold toString. simpl map. intros H. exfalso.
  pose proof (render_pair_nonempty kv) as Hne.
  destruct (map render_pair p); simpl in H; [contradiction |].
  destruct (render_pair kv); [contradiction | discriminate].
Qed.

Lemma question_toString (p : t) : Str.occurs "?" (toString p) = false.
Proof.
  unfold toString. induction p as [|kv p IH]; [reflexivity |].
  simpl map. destruct (map render_pair p) as [|q l] eqn:E.
  - simpl. apply question_render_pair.
  - change (String.concat "&" (render_pair kv :: q :: l))
      with (render_pair kv +:+ String "&" (String.concat "&" (q :: l))).
    rewrite occurs_append, question_render_pair. simpl.
    exact IH.
Qed.

(** Parsing what [toString] rendered gives the pairs back. *)
Theorem parse_toString (p : t) : parse (toString p) = p.
Proof.
  destruct (decide (p = [])) as [-> | Hne]; [reflexivity |].
  unfold parse, toString.
  rewrite split_concat.
  - induction p as [|kv p IH]; [congruence |].
    simpl map. rewrite filter_cons_True by apply render_pair_nonempty.
    simpl map. rewrite parse_pair_render. f_equal.
    destruct p as [|kv' p]; [reflexivity |]. apply IH. discriminate.
  - destruct p; [congruence | discriminate].
  - apply Forall_forall. intros s Hs.
    apply list_elem_of_In, in_map_iff in Hs. destruct Hs as [kv [<- _]].
    apply amp_render_pair.
Qed.

Lemma new_toString (p : t) : new (toString p) = p.
Proof.
  unfold new. destruct (toString p) as [|c s] eqn:E.
  - apply toString_nil_iff in E. now subst.
  - assert (Hq : Str.occurs "?" (String c s) = false)
      by (rewrite <- E; apply question_toString).
    simpl in Hq. apply orb_false_elim in Hq as [Hc _].
    destruct c as [[] [] [] [] [] [] [] []]; try discriminate Hc;
      rewrite <- E; apply parse_toString.
Qed.

Lemma new_question_toString (p : t) : new (String "?" (toString p)) = p.
Proof. simpl. apply parse_toString. Qed.

Lemma has_get (p : t) name : has p name = true ↔ is_Some (get p name).
Proof.
  induction p as [|[k v] p IH]; simpl.
  - split; [discriminate | intros [? ?]; discriminate].
  - destruct (String.eqb k name); simpl; [split; eauto | exact IH].
Qed.

Lemma has_false_get (p : t) name : has p name = false ↔ get p name = None.
Proof.
  induction p as [|[k v] p IH]; simpl; [tauto |].
  destruct (String.eqb k name); simpl; [split; discriminate | exact IH].
Qed.

Example parse_counter :
  URLSearchParams.new "?counter=7&q=a+b%21" = [("counter", "7"); ("q", "a b!")].
Proof. vm_compute. reflexivity. Qed.

Example render_counter :
  URLSearchParams.toString [("counter", "7"); ("q", "a b!&")] = "counter=7&q=a+b%21%26".
Proof. vm_compute. reflexivity. Qed.

End URLSearchParamsFacts.

(** ** The heap and the field map *)

Section HeapFacts.
Context {R : JSRuntime}.

Lemma heap_get_set_eq (h : heap) store property v :
  heap_get (heap_set h store property v) store property = v.
Proof.
  unfold heap_get, heap_set. rewrite lookup_insert_eq. simpl.
  now rewrite lookup_insert_eq.
Qed.

Lemma heap_get_set_ne (h : heap) store property v store' property' :
  (store, property) ≠ (store', property') →
  heap_get (heap_set h store property v) store' property' = heap_get h store' property'.
Proof.
  intros Hne. unfold heap_get, heap_set.
  destruct (decide (store = store')) as [<- | Hs].
  - rewrite lookup_insert_eq. simpl.
    rewrite lookup_insert_ne by congruence.
    now destruct (h !! store).
  - now rewrite lookup_insert_ne.
Qed.

Lemma Map_has_get {V} (m : list (string * V)) k :
  Map_has m k = true ↔ is_Some (Map_get m k).
Proof.
  induction m as [|[k' v] m IH]; simpl.
  - split; [discriminate | intros [? ?]; discriminate].
  - destruct (String.eqb k' k); simpl; [split; eauto | exact IH].
Qed.

Lemma Map_has_elem {V} (m : list (string * V)) k :
  Map_has m k = true ↔ k ∈ m.*1.
Proof.
  induction m as [|[k' v] m IH]; simpl.
  - split; [discriminate | intros H; inversion H].
  - rewrite elem_of_cons, <- IH.
    destruct (String.eqb_spec k' k) as [-> | Hne]; simpl; [tauto |].
    split; [tauto | intros [-> | ?]; [congruence | assumption]].
Qed.

Lemma Map_get_set_eq {V} (m : list (string * V)) k v :
  Map_get (Map_set m k v) k = Some v.
Proof.
  induction m as [|[k' v'] m IH]; simpl.
  - now rewrite String.eqb_refl.
  - destruct (String.eqb k' k) eqn:E; simpl; rewrite E; [reflexivity | exact IH].
Qed.

Lemma Map_get_set_ne {V} (m : list (string * V)) k v k' :
  k ≠ k' → Map_get (Map_set m k v) k' = Map_get m k'.
Proof.
  intros Hne. induction m as [|[k0 v0] m IH]; simpl.
  - apply String.eqb_neq in Hne. now rewrite Hne.
  - destruct (String.eqb_spec k0 k) as [-> | Hk]; simpl.
    + apply String.eqb_neq in Hne. now rewrite Hne.
    + now rewrite IH.
Qed.

(** On a fresh key, [Map.set] appends. *)
Lemma Map_set_fresh {V} (m : list (string * V)) k v :
  Map_has m k = false → Map_set m k v = (m ++ [(k, v)])%list.
Proof.
  induction m as [|[k' v'] m IH]; simpl; [reflexivity |].
  destruct (String.eqb k' k); simpl; [discriminate |].
  intros H. now rewrite IH.
Qed.

End HeapFacts.

(** ** Registration *)

Section RegisterFacts.
Context {R : JSRuntime}.
Implicit Types (st : state) (config : Config).

(** Each half is the one of [config] when present, the automatic one
    otherwise. *)
Lemma resolve_pair_halves (e : MobXURLSync) config defaultVal :
  resolve_pair e config defaultVal =
    (match cfg_serialize config with
     | Some s => Some s
     | None => fst <$> getAutoSerializer e defaultVal
     end,
     match cfg_deserialize config with
     | Some d => Some d
     | None => snd <$> getAutoSerializer e defaultVal
     end).
Proof.
  unfold resolve_pair.
  destruct (cfg_serialize config) as [s|], (cfg_deserialize config) as [d|];
    simpl; destruct (getAutoSerializer e defaultVal) as [[? ?]|]; reflexivity.
Qed.

Lemma hydrate_this store property queryParam d st :
  this (hydrate store property queryParam d st) = this st.
Proof.
  unfold hydrate.
  destruct (URLSearchParams.has _ _); [| reflexivity].
  destruct (URLSearchParams.get _ _); [| reflexivity].
  destruct (d _); reflexivity.
Qed.

Lemma hydrate_frame store property key d st :
  window (hydrate store property key d st) = window st
  ∧ interceptors (hydrate store property key d st) = interceptors st
  ∧ reactionValue (hydrate store property key d st) = reactionValue st
  ∧ ∀ s' p', (store, property) ≠ (s', p') →
      heap_get (stores (hydrate store property key d st)) s' p' = heap_get (stores st) s' p'.
Proof.
  unfold hydrate.
  destruct (URLSearchParams.has _ _); [| auto].
  destruct (URLSearchParams.get _ _); [| auto].
  destruct (d _); simpl; [| auto].
  repeat split. intros s' p' Hne. now apply heap_get_set_ne.
Qed.

Lemma runReaction_stores st : stores (runReaction st) = stores st.
Proof.
  unfold runReaction. destruct (buildQueryString st) as [qs|]; [| reflexivity].
  destruct (String.eqb qs (reactionValue st)); [reflexivity |].
  unfold scheduleUrlUpdate, cancelPending, applyUrlUpdate.
  repeat match goal with
         | |- context [match ?x with _ => _ end] => destruct x; simpl
         end; reflexivity.
Qed.

(** The only exceptions that leave [register] are its own two. *)
Lemma register_throws st store property queryParam config e st' :
  register store property queryParam config st = (Throw e, st') →
  st' = st ∧
  ((Map_has (fields (this st)) queryParam = true ∧ e = Error (duplicate_message queryParam))
   ∨ (Map_has (fields (this st)) queryParam = false ∧ e = Error (missing_message property))).
Proof.
  unfold register, register_with.
  destruct (Map_has (fields (this st)) queryParam) eqn:Hhas.
  - intros [= <- <-]. auto.
  - destruct (resolve_pair _ _ _) as [[s|] [d|]]; intros [= <- <-]; auto.
Qed.

Lemma messages_differ queryParam property :
  Error (duplicate_message queryParam) ≠ Error (missing_message property).
Proof. intros H. vm_compute in H. discriminate H. Qed.

End RegisterFacts.

Section RegisterClaims.
Context {R : JSRuntime}.
Implicit Types (st : state) (config : Config).

(** C1 (hydration precedence).  When the query string of the current URL
    has [queryParam] with raw value [raw] and the deserializer in use
    returns [v] on it, [register] returns normally and [store[property]]
    reads [v] afterwards, whatever it read before; this is still so after
    the MobX action around [register] has run the pending reaction. *)
Theorem register_hydrates_from_url
        st store property queryParam config serialize deserialize raw v :
  Map_has (fields (this st)) queryParam = false →
  resolve_pair (this st) config
    (nullish_or (cfg_defaultValue config) (heap_get (stores st) store property))
    = (Some serialize, Some deserialize) →
  URLSearchParams.get (URLSearchParams.new (search (location (window st)))) queryParam
    = Some raw →
  deserialize raw = Ok v →
  ∃ st', register store property queryParam config st = (Ok (), st')
         ∧ heap_get (stores st') store property = v
         ∧ heap_get (stores (step (EvRegister store property queryParam config) st))
                    store property = v.
Proof.
  intros Hfresh Hpair Hget Hd.
  assert (Hhas : URLSearchParams.has
                   (URLSearchParams.new (search (location (window st)))) queryParam = true)
    by (apply URLSearchParamsFacts.has_get; rewrite Hget; eauto).
  assert (Hreg : ∃ st', register store property queryParam config st = (Ok (), st')
                        ∧ heap_get (stores st') store property = v).
  { unfold register, register_with. rewrite Hfresh, Hpair. eexists. split; [reflexivity |].
    unfold hydrate. rewrite Hhas, Hget, Hd. simpl. apply heap_get_set_eq. }
  destruct Hreg as (st' & Hreg & Hv). exists st'. repeat split; try assumption.
  unfold step. rewrite Hreg. simpl. now rewrite runReaction_stores.
Qed.

(** C3 (uniqueness).  A [register] call on a [queryParam] that is already
    bound throws the duplicate error and returns the state it was given:
    the binding [f] made by the first registration is still the one stored
    under [queryParam]. *)
Theorem register_duplicate_rejected st store property queryParam config :
  Map_has (fields (this st)) queryParam = true →
  ∃ f, Map_get (fields (this st)) queryParam = Some f
       ∧ register store property queryParam config st
         = (Throw (Error (duplicate_message queryParam)), st)
       ∧ Map_get (fields (this (register store property queryParam config st).2)) queryParam
         = Some f.
Proof.
  intros Hhas. destruct (proj1 (Map_has_get _ _) Hhas) as [f Hf].
  exists f. unfold register, register_with. rewrite Hhas. simpl. auto.
Qed.

(** C4 (serializer resolution).  On a free [queryParam], let [defaultVal]
    be [config.defaultValue] unless that is [undefined] or [null], and the
    store's current [store[property]] in these two cases.  Each half of the
    pair is the one of [config] when given and else the one of
    [getAutoSerializer defaultVal]; [register] stores an entry with exactly
    these halves and this default when both exist, and throws the
    missing-serializer error, whose message carries [property], exactly when
    one does not. *)
Theorem register_serializer_resolution st store property queryParam config :
  Map_has (fields (this st)) queryParam = false →
  let defaultVal :=
    match cfg_defaultValue config with
    | VUndefined | VNull => heap_get (stores st) store property
    | given => given
    end in
  let auto := getAutoSerializer (this st) defaultVal in
  let serialize :=
    match cfg_serialize config with Some s => Some s | None => fst <$> auto end in
  let deserialize :=
    match cfg_deserialize config with Some d => Some d | None => snd <$> auto end in
  match serialize, deserialize with
  | Some s, Some d =>
      ∃ st', register store property queryParam config st = (Ok (), st')
             ∧ Map_get (fields (this st')) queryParam
               = Some {| store := store; property := property; queryParam := queryParam;
                         defaultValue := defaultVal; serialize := s; deserialize := d |}
  | _, _ =>
      register store property queryParam config st
      = (Throw (Error (missing_message property)), st)
  end.
Proof.
  intros Hfresh defaultVal auto serialize deserialize.
  assert (Hdef : nullish_or (cfg_defaultValue config) (heap_get (stores st) store property)
                 = defaultVal)
    by (subst defaultVal; unfold nullish_or; now destruct (cfg_defaultValue config)).
  pose proof (resolve_pair_halves (this st) config defaultVal) as Hpair.
  fold auto in Hpair. fold serialize deserialize in Hpair.
  unfold register, register_with. rewrite Hfresh, Hdef, Hpair.
  destruct serialize as [s|], deserialize as [d|]; try reflexivity.
  eexists. split; [reflexivity |]. simpl.
  rewrite hydrate_this. apply Map_get_set_eq.
Qed.

(** C5 (hydration errors are swallowed).  When the deserializer in use
    throws on the raw value found in the URL, [register] still returns
    normally, the heap of stores is the one it was given (the property
    keeps its value), and the entry is registered. *)
Theorem register_discards_deserialize_error
        st store property queryParam config serialize deserialize raw e :
  Map_has (fields (this st)) queryParam = false →
  resolve_pair (this st) config
    (nullish_or (cfg_defaultValue config) (heap_get (stores st) store property))
    = (Some serialize, Some deserialize) →
  URLSearchParams.get (URLSearchParams.new (search (location (window st)))) queryParam
    = Some raw →
  deserialize raw = Throw e →
  ∃ st', register store property queryParam config st = (Ok (), st')
         ∧ stores st' = stores st
         ∧ heap_get (stores st') store property = heap_get (stores st) store property
         ∧ Map_has (fields (this st')) queryParam = true.
Proof.
  intros Hfresh Hpair Hget Hd.
  assert (Hhas : URLSearchParams.has
                   (URLSearchParams.new (search (location (window st)))) queryParam = true)
    by (apply URLSearchParamsFacts.has_get; rewrite Hget; eauto).
  unfold register, register_with. rewrite Hfresh, Hpair. eexists. split; [reflexivity |].
  unfold hydrate. rewrite Hhas, Hget, Hd. simpl.
  repeat split. apply Map_has_get. rewrite Map_get_set_eq. eauto.
Qed.

(** C9 (primitives always resolve).  When the value used for resolution
    has type string, number or boolean, [getAutoSerializer] returns
    [String(v)] and the identity on strings; [register] then never throws
    the missing-serializer error, whatever [config] holds: it returns
    normally on a free [queryParam], and its only exception is the
    duplicate error. *)
Theorem primitive_default_always_resolves st store property queryParam config :
  let defaultVal :=
    nullish_or (cfg_defaultValue config) (heap_get (stores st) store property) in
  typeof defaultVal ∈ ["string"; "number"; "boolean"] →
  getAutoSerializer (this st) defaultVal = Some (ToString, fun s => Ok (VString s))
  ∧ (Map_has (fields (this st)) queryParam = false →
     ∃ st', register store property queryParam config st = (Ok (), st'))
  ∧ (∀ e st', register store property queryParam config st = (Throw e, st') →
              e = Error (duplicate_message queryParam)
              ∧ e ≠ Error (missing_message property)).
Proof.
  intros defaultVal Hty.
  assert (Hauto : getAutoSerializer (this st) defaultVal
                  = Some (ToString, fun s => Ok (VString s))).
  { unfold getAutoSerializer. now rewrite bool_decide_eq_true_2. }
  assert (Hpair : ∃ s d, resolve_pair (this st) config defaultVal = (Some s, Some d)).
  { rewrite resolve_pair_halves, Hauto.
    destruct (cfg_serialize config), (cfg_deserialize config); simpl; eauto. }
  destruct Hpair as (s & d & Hpair).
  split; [exact Hauto |]. split.
  - intros Hfresh. unfold register, register_with. rewrite Hfresh. fold defaultVal. rewrite Hpair. eauto.
  - intros e st'. unfold register, register_with.
    destruct (Map_has (fields (this st)) queryParam).
    + intros [= <- <-]. split; [reflexivity | apply messages_differ].
    + fold defaultVal. rewrite Hpair. discriminate.
Qed.

(** C10, as amended (registration is atomic up to MobX's [intercept]).
    [register_with] is [register] with the outcome of its last statement,
    the call of MobX's [intercept], made explicit.  When the call throws one
    of its own two errors, for a duplicate parameter or a missing serializer,
    the state it leaves is the state it was given: field map, interceptors
    and stores are untouched, since both [throw] statements come before every
    side effect and the exceptions of hydration are caught.  The exception
    that [intercept] throws leaves [register] after the hydration and after
    the entry went into the field map, with no interceptor installed.  On a
    store MobX can intercept, every throwing call is therefore atomic. *)
Theorem register_atomic_up_to_intercept
        intercept st store property queryParam config e st' :
  register_with intercept store property queryParam config st = (Throw e, st') →
  ((Map_has (fields (this st)) queryParam = true
    ∧ e = Error (duplicate_message queryParam) ∧ st' = st)
   ∨ (Map_has (fields (this st)) queryParam = false
      ∧ e = Error (missing_message property) ∧ st' = st)
   ∨ (intercept = Some e
      ∧ Map_has (fields (this st)) queryParam = false
      ∧ interceptors st' = interceptors st
      ∧ window st' = window st
      ∧ ∃ f, Map_get (fields (this st')) queryParam = Some f
             ∧ ∀ raw v,
                 URLSearchParams.get
                   (URLSearchParams.new (search (location (window st)))) queryParam
                 = Some raw →
                 deserialize f raw = Ok v →
                 heap_get (stores st') store property = v))
  ∧ (intercept = None →
     st' = st ∧ fields (this st') = fields (this st)
     ∧ interceptors st' = interceptors st ∧ stores st' = stores st).
Proof.
  unfold register_with.
  destruct (Map_has (fields (this st)) queryParam) eqn:Hhas.
  - intros [= <- <-]. split; [left |]; auto.
  - destruct (resolve_pair _ _ _) as [[s|] [d|]];
      try (intros [= <- <-]; split; [right; left |]; auto).
    destruct intercept as [e0|]; [| discriminate].
    intros [= <- <-]. split; [| discriminate].
    right. right. split; [reflexivity |]. split; [reflexivity |].
    destruct (hydrate_frame store property queryParam d st) as (Hw & Hi & _).
    simpl. split; [exact Hi |]. split; [exact Hw |].
    eexists. split; [rewrite hydrate_this; apply Map_get_set_eq |].
    simpl. intros raw v Hget Hd.
    assert (Hhas' : URLSearchParams.has
                      (URLSearchParams.new (search (location (window st)))) queryParam
                    = true)
      by (apply URLSearchParamsFacts.has_get; rewrite Hget; eauto).
    unfold hydrate. rewrite Hhas', Hget, Hd. simpl. apply heap_get_set_eq.
Qed.

End RegisterClaims.

(** ** The desired parameters and the flush *)

Section FlushFacts.
Context {R : JSRuntime}.
Implicit Types (st : state).

#[local] Arguments String.append !_ _ / : simpl nomatch.

Lemma URLSearchParams_set_fresh (p : URLSearchParams.t) k v :
  URLSearchParams.has p k = false → URLSearchParams.set p k v = (p ++ [(k, v)])%list.
Proof.
  induction p as [|[k' v'] p IH]; simpl; [reflexivity |].
  destruct (String.eqb k' k); simpl; [discriminate |].
  intros H. now rewrite IH.
Qed.

Lemma URLSearchParams_has_app (p q : URLSearchParams.t) k :
  URLSearchParams.has (p ++ q)%list k = URLSearchParams.has p k || URLSearchParams.has q k.
Proof. apply existsb_app. Qed.

Lemma desiredParams_cons k f fs (h : heap) :
  desiredParams ((k, f) :: fs) h =
    match serialize f (heap_get h (store f) (property f)),
          serialize f (defaultValue f) with
    | Ok str, Ok dflt =>
        if String.eqb str dflt then desiredParams fs h
        else (queryParam f, str) :: desiredParams fs h
    | _, _ => desiredParams fs h
    end.
Proof.
  unfold desiredParams. simpl.
  destruct (serialize f _); [| reflexivity].
  destruct (serialize f _); [| reflexivity].
  now destruct (String.eqb _ _).
Qed.

Lemma has_desiredParams fs (h : heap) k :
  Forall (fun kf : string * SyncedField => kf.1 = queryParam kf.2) fs →
  URLSearchParams.has (desiredParams fs h) k = true → k ∈ fs.*1.
Proof.
  induction fs as [|[k' f] fs IH]; [simpl; discriminate |].
  intros Hall. inversion_clear Hall as [|? ? Hk Hfs]. simpl in Hk.
  rewrite desiredParams_cons.
  destruct (serialize f _) as [str|]; [| intros H; right; now apply IH].
  destruct (serialize f (defaultValue f)) as [dflt|]; [| intros H; right; now apply IH].
  destruct (String.eqb str dflt); [intros H; right; now apply IH |].
  simpl. destruct (String.eqb_spec (queryParam f) k) as [<- | Hne]; simpl.
  - intros _. rewrite <- Hk. left.
  - intros H. right. now apply IH.
Qed.

(** [buildParams] computes the desired parameters, after serializing the
    value and the default of every entry. *)
Lemma buildParams_desired fs (h : heap) acc params :
  fields_wf fs →
  (∀ k, k ∈ fs.*1 → URLSearchParams.has acc k = false) →
  buildParams fs h acc = Ok params →
  params = (acc ++ desiredParams fs h)%list ∧ Forall (serializes h) fs.
Proof.
  unfold serializes.
  revert acc. induction fs as [|[k f] fs IH]; intros acc [Hnd Hkeys] Hacc.
  - simpl. intros [= <-]. split; [now rewrite app_nil_r | constructor].
  - simpl in Hnd. apply NoDup_cons in Hnd as [Hk Hnd].
    inversion_clear Hkeys as [|? ? Hkf Hkeys']. simpl in Hkf.
    simpl buildParams. rewrite desiredParams_cons.
    destruct (serialize f (heap_get h (store f) (property f))) as [str|] eqn:Es;
      [| simpl; discriminate].
    destruct (serialize f (defaultValue f)) as [dflt|] eqn:Ed; [| simpl; discriminate].
    simpl result_bind.
    destruct (String.eqb str dflt) eqn:E.
    + intros H. apply IH in H as [-> Hall].
      * split; [reflexivity |]. constructor; [simpl; eauto | exact Hall].
      * split; assumption.
      * intros k' Hk'. apply Hacc. simpl. now right.
    + rewrite URLSearchParams_set_fresh
        by (rewrite <- Hkf; apply Hacc; simpl; left).
      intros H. apply IH in H as [-> Hall].
      * split; [now rewrite <- app_assoc |]. constructor; [simpl; eauto | exact Hall].
      * split; assumption.
      * intros k' Hk'. rewrite URLSearchParams_has_app, Hacc by (simpl; now right).
        simpl. rewrite orb_false_r. apply String.eqb_neq.
        intros Heq. apply Hk. rewrite Hkf, Heq. exact Hk'.
Qed.

(** The pair of an entry is among the desired parameters exactly when
    its value and its default serialize differently. *)
Lemma desiredParams_pair fs (h : heap) k f str dflt :
  fields_wf fs → (k, f) ∈ fs →
  serialize f (heap_get h (store f) (property f)) = Ok str →
  serialize f (defaultValue f) = Ok dflt →
  ((queryParam f, str) ∈ desiredParams fs h ↔ str ≠ dflt)
  ∧ (str = dflt → URLSearchParams.has (desiredParams fs h) (queryParam f) = false).
Proof.
  intros [Hnd Hkeys]. revert Hnd.
  induction fs as [|[k' f'] fs IH]; intros Hnd Hin Hs Hd; [inversion Hin |].
  simpl in Hnd. apply NoDup_cons in Hnd as [Hk' Hnd].
  inversion_clear Hkeys as [|? ? Hkf Hkeys']. simpl in Hkf.
  assert (Hother : ∀ k0 f0, (k0, f0) ∈ fs → queryParam f0 ≠ queryParam f').
  { intros k0 f0 H0 Heq. apply Hk'. rewrite Hkf, <- Heq.
    rewrite Forall_forall in Hkeys'. pose proof (Hkeys' _ H0) as Hk0.
    simpl in Hk0. rewrite <- Hk0.
    apply list_elem_of_fmap. exists (k0, f0). auto. }
  apply elem_of_cons in Hin as [[= -> ->] | Hin].
  - (* the entry itself: later entries have other keys *)
    assert (Hnot : URLSearchParams.has (desiredParams fs h) (queryParam f') = false).
    { destruct (URLSearchParams.has (desiredParams fs h) (queryParam f')) eqn:E;
        [| reflexivity].
      apply has_desiredParams in E; [| assumption]. rewrite <- Hkf in E. contradiction. }
    assert (Hnotin : ∀ s, (queryParam f', s) ∉ desiredParams fs h).
    { intros s Hs'. apply not_true_iff_false in Hnot. apply Hnot.
      unfold URLSearchParams.has. apply existsb_exists.
      exists (queryParam f', s). split; [now apply list_elem_of_In |].
      apply String.eqb_refl. }
    rewrite desiredParams_cons. rewrite Hs, Hd.
    destruct (String.eqb_spec str dflt) as [-> | Hne].
    + split; [| intros _; exact Hnot].
      split; [intros H; now apply Hnotin in H | congruence].
    + split; [| congruence].
      split; [intros _; exact Hne | intros _; left].
  - specialize (IH Hkeys' Hnd Hin Hs Hd) as [IHiff IHhas].
    pose proof (Hother _ _ Hin) as Hne.
    rewrite desiredParams_cons.
    destruct (serialize f' _) as [str'|]; [| split; assumption].
    destruct (serialize f' (defaultValue f')) as [dflt'|]; [| split; assumption].
    destruct (String.eqb str' dflt'); [split; assumption |].
    split.
    + rewrite elem_of_cons, <- IHiff.
      split; [intros [[= Heq _] | H]; [congruence | exact H] | intros H; now right].
    + intros Heq. simpl. rewrite (IHhas Heq), orb_false_r.
      apply String.eqb_neq. congruence.
Qed.

(** With a well-formed location the comparison in [applyUrlUpdate] never
    finds the two strings equal: the right-hand side starts with the
    origin, the left-hand side with the path. *)
Lemma newUrl_differs (l : Location) (p : URLSearchParams.t) :
  location_wf l →
  String.eqb (newUrl_of l (URLSearchParams.toString p))
             (Str.before "?" (href l) +:+ search l) = false.
Proof.
  intros (Ho & Hoq & Hpq & _). apply String.eqb_neq. intros Heq.
  apply (f_equal (fun s => String.length (Str.before "?" s))) in Heq.
  assert (Hleft : Str.before "?" (newUrl_of l (URLSearchParams.toString p)) = pathname l).
  { unfold newUrl_of. destruct (String.eqb _ ""); [now apply StrFacts.before_none |].
    change ("?" +:+ URLSearchParams.toString p)
      with (String "?" (URLSearchParams.toString p)).
    now apply StrFacts.before_append. }
  rewrite Hleft in Heq.
  assert (Hop : Str.occurs "?" (origin l +:+ pathname l) = false)
    by (rewrite StrFacts.occurs_append, Hoq, Hpq; reflexivity).
  pose proof (StrFacts.length_before "?" (origin l +:+ pathname l)
                (search l +:+ hash l) Hop) as H1.
  rewrite StrFacts.append_assoc in H1. fold (href l) in H1.
  pose proof (StrFacts.length_before "?" (Str.before "?" (href l)) (search l)
                (StrFacts.occurs_before _ _)) as H2.
  rewrite StrFacts.length_append in H1.
  assert (0 < String.length (origin l))%nat
    by (destruct (origin l); [congruence | simpl; lia]).
  lia.
Qed.

Lemma buildQueryString_with_this st e :
  fields e = fields (this st) → buildQueryString (with_this st e) = buildQueryString st.
Proof. unfold buildQueryString. simpl. now intros ->. Qed.

(** Hence every flush on a well-formed location calls [replaceState]. *)
Lemma applyUrlUpdate_always_writes st params :
  location_wf (location (window st)) →
  buildParams (fields (this st)) (stores st) URLSearchParams.empty = Ok params →
  let st1 := with_this st (with_lastUpdateTime (this st) (clock (window st))) in
  applyUrlUpdate st
  = (Ok (),
     with_window st1
       (replaceState (newUrl_of (location (window st)) (URLSearchParams.toString params))
                     (window st))).
Proof.
  intros Hwf Hb st1. unfold applyUrlUpdate. fold st1.
  assert (Hq : buildQueryString st1 = Ok (URLSearchParams.toString params)).
  { unfold buildQueryString. change (fields (this st1)) with (fields (this st)).
    change (stores st1) with (stores st). now rewrite Hb. }
  cbv zeta. rewrite Hq. change (window st1) with (window st).
  pose proof (newUrl_differs _ params Hwf) as Hne. unfold newUrl_of in Hne |- *.
  now rewrite Hne.
Qed.

(** The query of the location after [replaceState] parses to the
    parameters that were rendered. *)
Lemma replaceState_params (w : Window) (params : URLSearchParams.t) :
  Str.occurs "?" (pathname (location w)) = false →
  URLSearchParams.new
    (search (location
               (replaceState (newUrl_of (location w) (URLSearchParams.toString params)) w)))
  = params.
Proof.
  intros Hp. unfold replaceState, newUrl_of. simpl.
  destruct (String.eqb_spec (URLSearchParams.toString params) "") as [E | E].
  - rewrite StrFacts.from_none by assumption. simpl.
    apply URLSearchParamsFacts.toString_nil_iff in E. now subst.
  - change ("?" +:+ URLSearchParams.toString params)
      with (String "?" (URLSearchParams.toString params)).
    rewrite StrFacts.from_append by assumption.
    destruct (String.eqb_spec (String "?" (URLSearchParams.toString params)) "?")
      as [[= E'] | _]; [contradiction |].
    apply URLSearchParamsFacts.new_question_toString.
Qed.

End FlushFacts.

Section FlushClaims.
Context {R : JSRuntime}.
Implicit Types (st : state).

(** When every serialization returns, so does [buildParams]. *)
Lemma buildParams_total fs (h : heap) acc :
  fields_wf fs →
  (∀ k, k ∈ fs.*1 → URLSearchParams.has acc k = false) →
  Forall (serializes h) fs →
  buildParams fs h acc = Ok (acc ++ desiredParams fs h)%list.
Proof.
  revert acc. induction fs as [|[k f] fs IH]; intros acc [Hnd Hkeys] Hacc Hser.
  - simpl. now rewrite app_nil_r.
  - simpl in Hnd. apply NoDup_cons in Hnd as [Hk Hnd].
    inversion_clear Hkeys as [|? ? Hkf Hkeys']. simpl in Hkf.
    inversion_clear Hser as [|? ? (str & dflt & Es & Ed) Hser']. simpl in Es, Ed.
    simpl buildParams. rewrite desiredParams_cons, Es, Ed. simpl result_bind.
    destruct (String.eqb str dflt) eqn:E.
    + apply IH; [split; assumption | | assumption].
      intros k' Hk'. apply Hacc. simpl. now right.
    + rewrite URLSearchParams_set_fresh
        by (rewrite <- Hkf; apply Hacc; simpl; left).
      rewrite IH; [now rewrite <- app_assoc | split; assumption | | assumption].
      intros k' Hk'. rewrite URLSearchParams_has_app, Hacc by (simpl; now right).
      simpl. rewrite orb_false_r. apply String.eqb_neq.
      intros Heq. apply Hk. rewrite Hkf, Heq. exact Hk'.
Qed.

(** C2 (default elision).  On a well-formed field map whose serializers
    return, [buildQueryString] builds a parameter set [params] in which
    the pair [(queryParam, serialize(store[property]))] of an entry occurs
    exactly when that string differs from [serialize(defaultValue)]; when
    the two strings are equal, [params] has no pair of that name at all.
    A flush then leaves a URL whose query parses to [params], so a
    parameter that was in the URL is gone when value and default serialize
    alike. *)
Theorem default_elision st :
  fields_wf (fields (this st)) →
  Forall (serializes (stores st)) (fields (this st)) →
  ∃ params,
    buildParams (fields (this st)) (stores st) URLSearchParams.empty = Ok params
    ∧ buildQueryString st = Ok (URLSearchParams.toString params)
    ∧ (∀ k f str dflt,
         (k, f) ∈ fields (this st) →
         serialize f (heap_get (stores st) (store f) (property f)) = Ok str →
         serialize f (defaultValue f) = Ok dflt →
         ((queryParam f, str) ∈ params ↔ str ≠ dflt)
         ∧ (str = dflt → URLSearchParams.has params (queryParam f) = false))
    ∧ (location_wf (location (window st)) →
       ∃ st', applyUrlUpdate st = (Ok (), st')
              ∧ URLSearchParams.new (search (location (window st'))) = params).
Proof.
  intros Hwf Hser.
  pose proof (buildParams_total _ _ URLSearchParams.empty Hwf (fun _ _ => eq_refl) Hser)
    as Hb.
  simpl app in Hb. eexists. split; [exact Hb |]. split; [| split].
  - unfold buildQueryString. now rewrite Hb.
  - intros k f str dflt Hin Hs Hd.
    exact (desiredParams_pair _ _ k f str dflt Hwf Hin Hs Hd).
  - intros Hloc. eexists.
    split; [exact (applyUrlUpdate_always_writes st _ Hloc Hb) |].
    simpl window. apply replaceState_params. apply Hloc.
Qed.

End FlushClaims.

(** ** The scheduler *)

Section SchedulerFacts.
Context {R : JSRuntime}.
Implicit Types (st : state).

Lemma filter_all {A} (P : A → Prop) `{∀ x, Decision (P x)} (l : list A) :
  (∀ x, P x) → filter P l = l.
Proof.
  intros HP. induction l as [|x l IH]; [reflexivity |].
  rewrite filter_cons_True by apply HP. now rewrite IH.
Qed.

Lemma applyUrlUpdate_effects st :
  let st' := (applyUrlUpdate st).2 in
  this st' = with_lastUpdateTime (this st) (clock (window st))
  ∧ stores st' = stores st
  ∧ reactionValue st' = reactionValue st
  ∧ interceptors st' = interceptors st
  ∧ timeouts (window st') = timeouts (window st)
  ∧ nextTimeout (window st') = nextTimeout (window st)
  ∧ clock (window st') = clock (window st)
  ∧ history (window st') = (history (window st) ++ flush_writes st)%list.
Proof.
  unfold applyUrlUpdate, flush_writes, newUrl_of. cbv zeta.
  rewrite buildQueryString_with_this by reflexivity.
  destruct (buildQueryString st) as [qs|e]; simpl.
  - destruct (String.eqb _ (_ +:+ _)); simpl; rewrite ?app_nil_r; auto 10.
  - rewrite app_nil_r. auto 10.
Qed.

Lemma cancelPending_effects st :
  let st' := cancelPending st in
  this st' = with_updateTimer (this st) None
  ∧ stores st' = stores st
  ∧ reactionValue st' = reactionValue st
  ∧ interceptors st' = interceptors st
  ∧ timeouts (window st')
    = filter (fun t => Some t.1 ≠ updateTimer (this st)) (timeouts (window st))
  ∧ nextTimeout (window st') = nextTimeout (window st)
  ∧ clock (window st') = clock (window st)
  ∧ history (window st') = history (window st)
  ∧ location (window st') = location (window st).
Proof.
  unfold cancelPending. destruct (updateTimer (this st)) as [handle|] eqn:E; simpl.
  - repeat split; auto.
    apply list_filter_iff. intros [h due]. simpl. split; congruence.
  - repeat split; auto.
    + destruct st as [[] ? ? ? ?]. simpl in *. now subst.
    + symmetry. apply filter_all. intros ?. discriminate.
Qed.

Lemma cancelPending_no_timeouts st :
  timer_inv st → timeouts (window (cancelPending st)) = [].
Proof.
  intros Hinv. destruct (cancelPending_effects st) as (_ & _ & _ & _ & -> & _).
  unfold timer_inv in Hinv.
  destruct (timeouts (window st)) as [|[h due] [|? ?]]; [reflexivity | | contradiction].
  destruct Hinv as (-> & _). rewrite filter_cons_False by (simpl; tauto).
  reflexivity.
Qed.

(** What one call of [scheduleUrlUpdate] does, case by case. *)
Lemma scheduleUrlUpdate_immediate st :
  lastUpdateTime (this st) = 0
  ∨ debounceDelay (this st) <= clock (window st) - lastUpdateTime (this st) →
  scheduleUrlUpdate st = applyUrlUpdate (cancelPending st).
Proof.
  intros H. unfold scheduleUrlUpdate. cbv zeta.
  destruct (cancelPending_effects st) as (-> & _). simpl.
  destruct H as [-> | H]; [reflexivity |].
  apply Z.leb_le in H. rewrite H. now rewrite orb_true_r.
Qed.

Lemma scheduleUrlUpdate_deferred st :
  lastUpdateTime (this st) ≠ 0 →
  clock (window st) - lastUpdateTime (this st) < debounceDelay (this st) →
  let st0 := cancelPending st in
  let wait := debounceDelay (this st) - (clock (window st) - lastUpdateTime (this st)) in
  scheduleUrlUpdate st
  = (Ok (),
     with_this (with_window st0 (setTimeout wait (window st0)).2)
               (with_updateTimer (this st0) (Some (nextTimeout (window st0))))).
Proof.
  intros H0 Hlt. unfold scheduleUrlUpdate. cbv zeta.
  destruct (cancelPending_effects st) as (E & _). rewrite E. simpl.
  apply Z.eqb_neq in H0. rewrite H0. simpl.
  apply Z.leb_gt in Hlt. now rewrite Hlt.
Qed.

Lemma scheduleUrlUpdate_stores st : stores (scheduleUrlUpdate st).2 = stores st.
Proof.
  unfold scheduleUrlUpdate. cbv zeta.
  destruct (cancelPending_effects st) as (_ & Hs & _).
  destruct (_ || _).
  - destruct (applyUrlUpdate_effects (cancelPending st)) as (_ & -> & _). exact Hs.
  - simpl. exact Hs.
Qed.

Lemma scheduleUrlUpdate_inv st : timer_inv st → timer_inv (scheduleUrlUpdate st).2.
Proof.
  intros Hinv. pose proof (cancelPending_no_timeouts st Hinv) as Hnone.
  destruct (decide (lastUpdateTime (this st) = 0
                    ∨ debounceDelay (this st)
                      <= clock (window st) - lastUpdateTime (this st))) as [H | H].
  - rewrite scheduleUrlUpdate_immediate by assumption.
    destruct (applyUrlUpdate_effects (cancelPending st)) as (_ & _ & _ & _ & Ht & _).
    unfold timer_inv. now rewrite Ht, Hnone.
  - assert (H0 : lastUpdateTime (this st) ≠ 0) by tauto.
    assert (Hlt : clock (window st) - lastUpdateTime (this st) < debounceDelay (this st))
      by lia.
    rewrite scheduleUrlUpdate_deferred by assumption.
    destruct (cancelPending_effects st) as (E & _ & _ & _ & _ & _ & Hc & _).
    unfold timer_inv. simpl. rewrite Hnone, E, Hc. simpl.
    repeat split; [assumption | lia].
Qed.

End SchedulerFacts.

Section RunFacts.
Context {R : JSRuntime}.
Implicit Types (st : state) (ev : event).

Lemma timer_inv_ext st st' :
  timeouts (window st') = timeouts (window st) →
  updateTimer (this st') = updateTimer (this st) →
  lastUpdateTime (this st') = lastUpdateTime (this st) →
  debounceDelay (this st') = debounceDelay (this st) →
  timer_inv st → timer_inv st'.
Proof. unfold timer_inv. now intros -> -> -> ->. Qed.

Lemma timer_inv_length st : timer_inv st → (List.length (timeouts (window st)) <= 1)%nat.
Proof.
  unfold timer_inv. destruct (timeouts (window st)) as [|[? ?] [|? ?]]; simpl; [lia.. | tauto].
Qed.

Lemma register_effects st store property queryParam config :
  let st' := (register store property queryParam config st).2 in
  window st' = window st
  ∧ reactionValue st' = reactionValue st
  ∧ updateTimer (this st') = updateTimer (this st)
  ∧ lastUpdateTime (this st') = lastUpdateTime (this st)
  ∧ debounceDelay (this st') = debounceDelay (this st)
  ∧ serializers (this st') = serializers (this st).
Proof.
  unfold register, register_with.
  destruct (Map_has _ _); [simpl; auto 10 |].
  destruct (resolve_pair _ _ _) as [[s|] [d|]]; simpl; auto 10.
  rewrite hydrate_this. unfold hydrate.
  destruct (URLSearchParams.has _ _); [| auto 10].
  destruct (URLSearchParams.get _ _); [| auto 10].
  destruct (d _); simpl; auto 10.
Qed.

Lemma runReaction_inv st : timer_inv st → timer_inv (runReaction st).
Proof.
  intros Hinv. unfold runReaction.
  destruct (buildQueryString st) as [qs|]; [| assumption].
  destruct (String.eqb qs (reactionValue st)); [assumption |].
  now apply scheduleUrlUpdate_inv.
Qed.

(** A timer the host can run is the single pending one. *)
Lemma due_of_inv st handle due :
  timer_inv st → due_of handle (window st) = Some due →
  timeouts (window st) = [(handle, due)]
  ∧ due = lastUpdateTime (this st) + debounceDelay (this st)
  ∧ timeouts (clearTimeout handle (window st)) = [].
Proof.
  unfold timer_inv, due_of, clearTimeout. simpl.
  destruct (timeouts (window st)) as [|[h d] [|? ?]]; simpl; [discriminate | | tauto].
  intros (_ & _ & Hd). case_bool_decide as E; simpl; [| discriminate].
  intros [= <-]. simpl in E. subst h.
  rewrite filter_cons_False by (simpl; tauto). auto.
Qed.

Lemma updateTimerCallback_effects st :
  let st' := (updateTimerCallback st).2 in
  stores st' = stores st
  ∧ reactionValue st' = reactionValue st
  ∧ timeouts (window st') = timeouts (window st)
  ∧ clock (window st') = clock (window st)
  ∧ lastUpdateTime (this st') = clock (window st)
  ∧ debounceDelay (this st') = debounceDelay (this st)
  ∧ fields (this st') = fields (this st)
  ∧ history (window st') = (history (window st) ++ flush_writes st)%list.
Proof.
  unfold updateTimerCallback.
  pose proof (applyUrlUpdate_effects st) as (Ht & Hs & Hr & _ & Hto & _ & Hc & Hh).
  destruct (applyUrlUpdate st) as [[[]|e] st']; simpl in *; rewrite Ht; simpl; auto 10.
Qed.

Lemma step_inv ev st : timer_inv st → timer_inv (step ev st).
Proof.
  intros Hinv. destruct ev as [store property queryParam config | store property v | t | handle];
    simpl.
  - apply runReaction_inv.
    destruct (register_effects st store property queryParam config)
      as (Hw & _ & Hu & Hl & Hd & _).
    eapply timer_inv_ext; [now rewrite Hw | eassumption.. ].
  - now apply runReaction_inv.
  - exact Hinv.
  - destruct (due_of handle (window st)) as [due|] eqn:E; [| assumption].
    destruct (due <=? clock (window st)); [| assumption].
    destruct (due_of_inv _ _ _ Hinv E) as (_ & _ & Hnone).
    destruct (updateTimerCallback_effects
                (with_window st (clearTimeout handle (window st))))
      as (_ & _ & Ht & _).
    unfold timer_inv. rewrite Ht. simpl window. now rewrite Hnone.
Qed.

Lemma run_inv evs st : timer_inv st → timer_inv (run evs st).
Proof.
  revert st. induction evs as [|ev evs IH]; intros st Hinv; [assumption |].
  simpl. apply IH. now apply step_inv.
Qed.

Lemma run_app evs1 evs2 st : run (evs1 ++ evs2) st = run evs2 (run evs1 st).
Proof. unfold run. apply foldl_app. Qed.

Lemma initial_inv e (h : heap) w : timeouts w = [] → timer_inv (initial e h w).
Proof. unfold timer_inv. simpl. now intros ->. Qed.

End RunFacts.

Section SchedulerClaims.
Context {R : JSRuntime}.
Implicit Types (st : state) (ev : event).

(** C7 (throttling).  A dirty signal is a call of [scheduleUrlUpdate] at
    time [now = Date.now()], with [elapsed = now - lastUpdateTime] and
    [lastUpdateTime = 0] standing for "no update yet".  The pending timer,
    if any, is cancelled first.  Then: with no update yet or
    [elapsed >= debounceDelay] the flush runs at once, on the state of that
    moment, and [lastUpdateTime] becomes [now]; otherwise nothing is
    written, [lastUpdateTime] stays and one new timer, whose handle the
    engine keeps, is armed for [debounceDelay - elapsed].  The call keeps
    the invariant that at most one callback is pending, and this invariant
    holds after every run of events from a new engine. *)
Theorem scheduleUrlUpdate_throttles st :
  let now := clock (window st) in
  let elapsed := now - lastUpdateTime (this st) in
  let delay := debounceDelay (this st) in
  let st' := (scheduleUrlUpdate st).2 in
  let others :=
    filter (fun t => Some t.1 ≠ updateTimer (this st)) (timeouts (window st)) in
  (lastUpdateTime (this st) = 0 ∨ delay <= elapsed →
     scheduleUrlUpdate st = applyUrlUpdate (cancelPending st)
     ∧ lastUpdateTime (this st') = now
     ∧ updateTimer (this st') = None
     ∧ timeouts (window st') = others
     ∧ history (window st')
       = (history (window st) ++ flush_writes (cancelPending st))%list)
  ∧ (lastUpdateTime (this st) ≠ 0 ∧ elapsed < delay →
     updateTimer (this st') = Some (nextTimeout (window st))
     ∧ timeouts (window st')
       = (others ++ [(nextTimeout (window st), now + (delay - elapsed))])%list
     ∧ history (window st') = history (window st)
     ∧ lastUpdateTime (this st') = lastUpdateTime (this st))
  ∧ (timer_inv st →
     timer_inv st' ∧ (List.length (timeouts (window st')) <= 1)%nat)
  ∧ (∀ serializers delay0 (h : heap) w evs,
       timeouts w = [] →
       (List.length (timeouts (window
          (run evs (initial (new_MobXURLSync serializers delay0) h w)))) <= 1)%nat).
Proof.
  intros now elapsed delay st' others.
  destruct (cancelPending_effects st)
    as (Ethis & _ & _ & _ & Eto & Enext & Eclock & Ehist & _).
  split; [| split; [| split]].
  - intros H. subst st'. rewrite scheduleUrlUpdate_immediate by exact H.
    destruct (applyUrlUpdate_effects (cancelPending st))
      as (Et & _ & _ & _ & Hto & _ & _ & Hh).
    split; [reflexivity |]. rewrite Et, Hto, Hh, Ethis, Eto, Eclock, Ehist. simpl.
    auto.
  - intros [H0 Hlt]. subst st'. rewrite scheduleUrlUpdate_deferred by assumption.
    simpl. rewrite Ethis, Eto, Enext, Eclock, Ehist. simpl.
    repeat split. do 3 f_equal. subst now elapsed delay. lia.
  - intros Hinv. pose proof (scheduleUrlUpdate_inv st Hinv) as Hinv'.
    split; [exact Hinv' | now apply timer_inv_length].
  - intros ss d0 h w evs Hw. apply timer_inv_length, run_inv, initial_inv, Hw.
Qed.

End SchedulerClaims.

(** ** Coalescing inside the delay window *)

Section WindowFacts.
Context {R : JSRuntime}.
Implicit Types (st : state) (ev : event).

Lemma quiet_refl st :
  timer_inv st →
  clock (window st) < lastUpdateTime (this st) + debounceDelay (this st) →
  quiet st st.
Proof. unfold quiet. auto 10. Qed.

Lemma scheduleUrlUpdate_quiet st0 st :
  lastUpdateTime (this st0) ≠ 0 → quiet st0 st →
  quiet st0 (scheduleUrlUpdate st).2 ∧ pending (scheduleUrlUpdate st).2.
Proof.
  intros H0 (Hinv & Hl & Hd & Hh & Hloc & Hc).
  pose proof (scheduleUrlUpdate_inv st Hinv) as Hinv'.
  assert (H0' : lastUpdateTime (this st) ≠ 0) by congruence.
  assert (Hlt : clock (window st) - lastUpdateTime (this st) < debounceDelay (this st))
    by lia.
  rewrite scheduleUrlUpdate_deferred in Hinv' |- * by assumption.
  destruct (cancelPending_effects st)
    as (Ethis & _ & _ & _ & _ & _ & Eclock & Ehist & Eloc).
  split.
  - split; [exact Hinv' |]. simpl. rewrite Ethis, Ehist, Eloc, Eclock. simpl. auto.
  - unfold pending. simpl. now destruct (timeouts (window (cancelPending st))).
Qed.

Lemma step_quiet st0 st ev :
  lastUpdateTime (this st0) ≠ 0 → quiet st0 st → in_window st0 ev →
  quiet st0 (step ev st)
  ∧ (pending st → pending (step ev st))
  ∧ (signals ev st = true → pending (step ev st)).
Proof.
  intros H0 Hq Hev.
  destruct ev as [store property queryParam config | store property v | t | handle];
    simpl in Hev |- *.
  - contradiction.
  - set (st_a := with_stores st (heap_set (stores st) store property v)).
    assert (Hqa : quiet st0 st_a) by exact Hq.
    unfold runReaction.
    destruct (buildQueryString st_a) as [qs|].
    + destruct (String.eqb qs (reactionValue st_a)) eqn:E.
      * change (reactionValue st_a) with (reactionValue st) in E. rewrite E. simpl.
        repeat split; [apply Hqa.. | auto | discriminate].
      * assert (Hqr : quiet st0 (with_reactionValue st_a qs)) by exact Hqa.
        destruct (scheduleUrlUpdate_quiet _ _ H0 Hqr) as [Hq' Hp']. auto.
    + repeat split; [apply Hqa.. | auto | discriminate].
  - destruct Hq as (Hinv & Hl & Hd & Hh & Hloc & Hc).
    repeat split; try assumption; try discriminate. auto.
  - destruct (due_of handle (window st)) as [due|] eqn:E;
      [| repeat split; [apply Hq.. | auto | discriminate]].
    destruct Hq as (Hinv & Hl & Hd & Hh & Hloc & Hc).
    destruct (due_of_inv _ _ _ Hinv E) as (_ & -> & _).
    rewrite Hl, Hd.
    destruct (Z.leb_spec (lastUpdateTime (this st0) + debounceDelay (this st0))
                         (clock (window st))); [lia |].
    repeat split; try assumption; try discriminate. auto.
Qed.

Lemma run_quiet st0 evs st :
  lastUpdateTime (this st0) ≠ 0 → quiet st0 st → Forall (in_window st0) evs →
  quiet st0 (run evs st)
  ∧ (pending st ∨ signalled evs st = true → pending (run evs st)).
Proof.
  intros H0. revert st. induction evs as [|ev evs IH]; intros st Hq Hall.
  - simpl. split; [assumption | intros [? | ?]; [assumption | discriminate]].
  - inversion_clear Hall as [|? ? Hev Hevs].
    destruct (step_quiet st0 st ev H0 Hq Hev) as (Hq' & Hp & Hs).
    destruct (IH _ Hq' Hevs) as (Hq'' & Hp'').
    simpl. split; [exact Hq'' |].
    intros [H | H]; apply Hp''.
    + left. auto.
    + apply orb_true_iff in H as [H | H]; [left; auto | now right].
Qed.

Lemma flush_writes_ext st st' :
  fields (this st') = fields (this st) → stores st' = stores st →
  location (window st') = location (window st) →
  flush_writes st' = flush_writes st.
Proof.
  intros Hf Hs Hl. unfold flush_writes, buildQueryString. now rewrite Hf, Hs, Hl.
Qed.

(** The host runs the pending callback once the clock has reached its due
    time: one flush, on the state of that moment. *)
Lemma fire_pending st handle due t :
  timeouts (window st) = [(handle, due)] → due <= t →
  let st' := run [EvClock t; EvTimeout handle] st in
  timeouts (window st') = []
  ∧ lastUpdateTime (this st') = t
  ∧ history (window st') = (history (window st) ++ flush_writes st)%list.
Proof.
  intros Hto Hle. simpl. unfold due_of. simpl. rewrite Hto. simpl.
  rewrite bool_decide_eq_true_2 by reflexivity. simpl.
  apply Z.leb_le in Hle. rewrite Hle.
  match goal with
  | |- context [updateTimerCallback ?s] =>
      destruct (updateTimerCallback_effects s) as (_ & _ & Ht & _ & Hl & _ & _ & Hh);
      rewrite Ht, Hl, Hh; rewrite (flush_writes_ext st s) by reflexivity
  end.
  simpl. rewrite Hto. rewrite filter_cons_False by (simpl; tauto).
  auto.
Qed.

End WindowFacts.

Section CoalescingClaims.
Context {R : JSRuntime}.
Implicit Types (st : state) (ev : event).

(** C8, as amended (coalescing after an update).  Let an update have
    happened ([lastUpdateTime] is set) and let every event of [evs], store
    assignments that reach the reaction and clock readings, occur less than
    [debounceDelay] after it.  Then no URL write happens during [evs], after
    any prefix of it, and at most one callback is pending.  If at least one
    assignment made the reaction signal, exactly one callback is pending at
    the end, due at [lastUpdateTime + debounceDelay]; when the host runs it,
    at that time or later, one flush is performed: it writes the query
    string built from all fields as they are then, unless its comparison
    finds the URL unchanged, and nothing else is written. *)
Theorem coalescing_after_update st evs :
  timer_inv st →
  lastUpdateTime (this st) ≠ 0 →
  clock (window st) < lastUpdateTime (this st) + debounceDelay (this st) →
  Forall (in_window st) evs →
  let st1 := run evs st in
  let due := lastUpdateTime (this st) + debounceDelay (this st) in
  (∀ n, history (window (run (take n evs) st)) = history (window st))
  ∧ lastUpdateTime (this st1) = lastUpdateTime (this st)
  ∧ (List.length (timeouts (window st1)) <= 1)%nat
  ∧ (signalled evs st = true →
     ∃ handle,
       timeouts (window st1) = [(handle, due)]
       ∧ ∀ t, due <= t →
           let st2 := run [EvClock t; EvTimeout handle] st1 in
           timeouts (window st2) = []
           ∧ lastUpdateTime (this st2) = t
           ∧ history (window st2) = (history (window st) ++ flush_writes st1)%list).
Proof.
  intros Hinv H0 Hc Hall st1 due.
  pose proof (quiet_refl st Hinv Hc) as Hq.
  destruct (run_quiet st evs st H0 Hq Hall) as (Hq1 & Hp1). fold st1 in Hq1, Hp1.
  split; [| split; [| split]].
  - intros n.
    assert (Hn : Forall (in_window st) (take n evs)) by now apply Forall_take.
    destruct (run_quiet st (take n evs) st H0 Hq Hn) as ((_ & _ & _ & Hh & _) & _).
    exact Hh.
  - apply Hq1.
  - apply timer_inv_length, Hq1.
  - intros Hsig. destruct Hq1 as (Hinv1 & Hl1 & Hd1 & Hh1 & _).
    assert (Hp : pending st1) by auto.
    unfold pending in Hp. pose proof Hinv1 as Hinv1'. unfold timer_inv in Hinv1'.
    destruct (timeouts (window st1)) as [|[handle d] [|? ?]] eqn:Eto;
      [congruence | | contradiction].
    destruct Hinv1' as (_ & _ & ->). rewrite Hl1, Hd1. fold due.
    exists handle. split; [reflexivity |].
    intros t Ht. rewrite <- Hh1.
    apply (fire_pending st1 handle due t); [| exact Ht].
    rewrite Eto. now rewrite Hl1, Hd1.
Qed.

End CoalescingClaims.

(** ** The field map stays well formed *)

Section FieldsFacts.
Context {R : JSRuntime}.
Implicit Types (st : state) (ev : event).

Lemma register_fields st store property key config :
  fields (this (register store property key config st).2) = fields (this st)
  ∨ (Map_has (fields (this st)) key = false
     ∧ ∃ f, key = queryParam f
            ∧ fields (this (register store property key config st).2)
              = (fields (this st) ++ [(key, f)])%list).
Proof.
  unfold register, register_with. destruct (Map_has _ _) eqn:Hhas; [now left |].
  destruct (resolve_pair _ _ _) as [[s|] [d|]]; try now left.
  right. split; [reflexivity |]. simpl. rewrite hydrate_this.
  eexists. split; [| now apply Map_set_fresh]. reflexivity.
Qed.

Lemma fields_wf_snoc fs k (f : SyncedField) :
  fields_wf fs → Map_has fs k = false → k = queryParam f →
  fields_wf (fs ++ [(k, f)]).
Proof.
  intros [Hnd Hkeys] Hhas Hk. split.
  - rewrite fmap_app. apply NoDup_app. split; [assumption |]. split.
    + intros x Hx Hx'. simpl in Hx'. apply list_elem_of_singleton in Hx'. subst x.
      apply Map_has_elem in Hx. congruence.
    + simpl. apply NoDup_singleton.
  - apply Forall_app. split; [assumption |]. now repeat constructor.
Qed.

Lemma scheduleUrlUpdate_fields st :
  fields (this (scheduleUrlUpdate st).2) = fields (this st).
Proof.
  unfold scheduleUrlUpdate. cbv zeta.
  destruct (cancelPending_effects st) as (E & _).
  destruct (_ || _).
  - destruct (applyUrlUpdate_effects (cancelPending st)) as (-> & _). now rewrite E.
  - simpl. now rewrite E.
Qed.

Lemma runReaction_fields st : fields (this (runReaction st)) = fields (this st).
Proof.
  unfold runReaction. destruct (buildQueryString st) as [qs|]; [| reflexivity].
  destruct (String.eqb qs (reactionValue st)); [reflexivity |].
  now rewrite scheduleUrlUpdate_fields.
Qed.

Lemma step_fields_wf ev st : fields_wf (fields (this st)) → fields_wf (fields (this (step ev st))).
Proof.
  intros Hwf. destruct ev as [store property queryParam config | store property v | t | handle];
    simpl.
  - rewrite runReaction_fields.
    destruct (register_fields st store property queryParam config)
      as [-> | (Hhas & f & Hk & ->)]; [assumption |].
    now apply fields_wf_snoc.
  - now rewrite runReaction_fields.
  - assumption.
  - destruct (due_of handle (window st)); [| assumption].
    destruct (_ <=? _); [| assumption].
    destruct (updateTimerCallback_effects
                (with_window st (clearTimeout handle (window st))))
      as (_ & _ & _ & _ & _ & _ & -> & _).
    assumption.
Qed.

(** Every state a new engine can reach has a well-formed field map. *)
Lemma run_fields_wf evs e (h : heap) w :
  fields e = [] → fields_wf (fields (this (run evs (initial e h w)))).
Proof.
  intros He.
  assert (H0 : fields_wf (fields (this (initial e h w)))).
  { simpl. rewrite He. split; [constructor | constructor]. }
  revert H0. generalize (initial e h w). induction evs as [|ev evs IH]; intros st Hwf.
  - exact Hwf.
  - simpl. apply IH. now apply step_fields_wf.
Qed.

End FieldsFacts.

(** ** The per-field variant: where it differs *)

Module PerFieldFacts.
Import PerField.
Section PerFieldFacts.
Context {R : JSRuntime}.
Implicit Types (st : state) (config : Config).

Lemma Map_has_set {V} (m : list (string * V)) k x k' :
  Map_has m k' = true → Map_has (Map_set m k x) k' = true.
Proof.
  intros H. apply Map_has_get. apply Map_has_get in H.
  destruct (String.eqb_spec k k') as [-> | Hne].
  - rewrite Map_get_set_eq. eauto.
  - now rewrite Map_get_set_ne.
Qed.

(** An interceptor touches the field map at its own key only. *)
Lemma intercept_handler_fields key v st :
  fields (this (intercept_handler key v st).2) = fields (this st)
  ∨ ∃ field', fields (this (intercept_handler key v st).2)
              = Map_set (fields (this st)) key field'.
Proof.
  unfold intercept_handler.
  destruct (Map_get (fields (this st)) key) as [field|] eqn:Hget; [| now left].
  destruct (serialize field v) as [sv|]; [| now left].
  destruct (serialize field (defaultValue field)) as [dflt|]; [| now left].
  destruct (String.eqb _ _); [now left |].
  match goal with |- context [if ?b then _ else _] => destruct b end.
  - right. unfold updateUrl. rewrite Hget. simpl. eauto.
  - right. simpl. eauto.
Qed.

Lemma run_interceptors_fields hs obj prop v st k :
  (Map_has (fields (this st)) k = true →
   Map_has (fields (this (run_interceptors hs obj prop v st).2)) k = true)
  ∧ (Forall (fun i : loc * string * string => i.2 ≠ k) hs →
     Map_get (fields (this (run_interceptors hs obj prop v st).2)) k
     = Map_get (fields (this st)) k).
Proof.
  revert st. induction hs as [|[[s p] key] hs IH]; intros st; simpl; [auto |].
  destruct (bool_decide (s = obj) && String.eqb p prop).
  - pose proof (intercept_handler_fields key v st) as Hf.
    destruct (intercept_handler key v st) as [[[]|e] st1]; simpl in *.
    + destruct (IH st1) as [IH1 IH2]. split.
      * intros Hhas. apply IH1.
        destruct Hf as [-> | [f' ->]]; [exact Hhas | now apply Map_has_set].
      * intros Hall. inversion_clear Hall as [|? ? Hne Hhs]. simpl in Hne.
        rewrite IH2 by exact Hhs.
        destruct Hf as [-> | [f' ->]]; [reflexivity | now apply Map_get_set_ne].
    + split.
      * intros Hhas.
        destruct Hf as [-> | [f' ->]]; [exact Hhas | now apply Map_has_set].
      * intros Hall. inversion_clear Hall as [|? ? Hne Hhs]. simpl in Hne.
        destruct Hf as [-> | [f' ->]]; [reflexivity | now apply Map_get_set_ne].
  - destruct (IH st) as [IH1 IH2]. split; [exact IH1 |].
    intros Hall. inversion_clear Hall. now apply IH2.
Qed.

(** An assignment keeps the keys of the field map, and the entries that no
    installed interceptor belongs to. *)
Lemma assign_fields obj prop v st k :
  (Map_has (fields (this st)) k = true →
   Map_has (fields (this (assign obj prop v st).2)) k = true)
  ∧ (Forall (fun i : loc * string * string => i.2 ≠ k) (interceptors st) →
     Map_get (fields (this (assign obj prop v st).2)) k = Map_get (fields (this st)) k).
Proof.
  unfold assign.
  pose proof (run_interceptors_fields (interceptors st) obj prop v st k) as H.
  destruct (run_interceptors _ _ _ _ _) as [[[]|e] st1]; exact H.
Qed.

Lemma run_interceptors_skip hs obj prop v st :
  Forall (fun i : loc * string * string => (i.1.1, i.1.2) ≠ (obj, prop)) hs →
  run_interceptors hs obj prop v st = (Ok (), st).
Proof.
  induction hs as [|[[s p] key] hs IH]; intros Hall; [reflexivity |].
  inversion_clear Hall as [|? ? Hne Hhs]. simpl in Hne. simpl.
  destruct (bool_decide (s = obj) && String.eqb p prop) eqn:E; [| now apply IH].
  apply andb_true_iff in E as [E1 E2].
  apply bool_decide_eq_true in E1. apply String.eqb_eq in E2. congruence.
Qed.

(** Without an interceptor on the property, an assignment is a plain write. *)
Lemma assign_unobserved st obj prop v :
  unobserved st obj prop →
  assign obj prop v st = (Ok (), with_stores st (heap_set (stores st) obj prop v)).
Proof. intros H. unfold assign. now rewrite run_interceptors_skip. Qed.

Lemma loadFromURLForField_fields field st k :
  (Map_has (fields (this st)) k = true →
   Map_has (fields (this (loadFromURLForField field st).2)) k = true)
  ∧ (Forall (fun i : loc * string * string => i.2 ≠ k) (interceptors st) →
     Map_get (fields (this (loadFromURLForField field st).2)) k
     = Map_get (fields (this st)) k).
Proof.
  unfold loadFromURLForField.
  destruct (URLSearchParams.has _ _); [| auto].
  destruct (URLSearchParams.get _ _); [| auto].
  destruct (deserialize field _); [apply assign_fields | auto].
Qed.

(** [registerField_with] past its two checks. *)
Lemma registerField_with_resolved intercept st store property queryParam config s d :
  Map_has (fields (this st)) queryParam = false →
  resolve_pair (this st) config (heap_get (stores st) store property) = (Some s, Some d) →
  let config' := fill_config (this st) config (heap_get (stores st) store property) in
  let fieldEntry :=
    {| store := store; property := property; queryParam := queryParam;
       defaultValue := cfg_defaultValue config'; serialize := s; deserialize := d;
       updateTimer := None; lastUpdateTime := None |} in
  registerField_with intercept store property queryParam config st
  = match loadFromURLForField fieldEntry
            (with_fields st (Map_set (fields (this st)) queryParam fieldEntry)) with
    | (Ok _, st') =>
        match intercept with
        | None =>
            (Ok (),
             with_interceptors st' (interceptors st' ++ [(store, property, queryParam)]),
             config')
        | Some e => (Throw e, st', config')
        end
    | (Throw e, st') => (Throw e, st', config')
    end.
Proof.
  intros Hfresh Hpair. unfold registerField_with. rewrite Hfresh.
  unfold fill_config. simpl. rewrite Hpair. reflexivity.
Qed.

(** [registerField] stores the entry, then hydrates without a [catch]: an
    exception of the deserializer leaves [registerField] with the entry
    registered, the store untouched and no interceptor installed. *)
Lemma registerField_lets_error_out
      st store property queryParam config serialize deserialize raw e :
  Map_has (fields (this st)) queryParam = false →
  resolve_pair (this st) config (heap_get (stores st) store property)
  = (Some serialize, Some deserialize) →
  URLSearchParams.get (URLSearchParams.new (search (location (window st)))) queryParam
  = Some raw →
  deserialize raw = Throw e →
  ∃ st', registerField store property queryParam config st = (Throw e, st')
         ∧ Map_has (fields (this st')) queryParam = true
         ∧ stores st' = stores st
         ∧ interceptors st' = interceptors st.
Proof.
  intros Hfresh Hpair Hget Hd.
  assert (Hhas : URLSearchParams.has
                   (URLSearchParams.new (search (location (window st)))) queryParam = true)
    by (apply URLSearchParamsFacts.has_get; rewrite Hget; eauto).
  unfold registerField.
  rewrite (registerField_with_resolved None st store property queryParam config
             serialize deserialize Hfresh Hpair).
  unfold loadFromURLForField. simpl. rewrite Hhas, Hget, Hd.
  eexists. split; [reflexivity |]. simpl. repeat split.
  apply Map_has_get. rewrite Map_get_set_eq. eauto.
Qed.

(** When the deserializer returns and no interceptor is on the property
    yet, the variant hydrates like [register]. *)
Lemma registerField_hydrates
      st store property queryParam config serialize deserialize raw v :
  Map_has (fields (this st)) queryParam = false →
  resolve_pair (this st) config (heap_get (stores st) store property)
  = (Some serialize, Some deserialize) →
  unobserved st store property →
  URLSearchParams.get (URLSearchParams.new (search (location (window st)))) queryParam
  = Some raw →
  deserialize raw = Ok v →
  ∃ st', registerField store property queryParam config st = (Ok (), st')
         ∧ heap_get (stores st') store property = v.
Proof.
  intros Hfresh Hpair Hun Hget Hd.
  assert (Hhas : URLSearchParams.has
                   (URLSearchParams.new (search (location (window st)))) queryParam = true)
    by (apply URLSearchParamsFacts.has_get; rewrite Hget; eauto).
  unfold registerField.
  rewrite (registerField_with_resolved None st store property queryParam config
             serialize deserialize Hfresh Hpair).
  unfold loadFromURLForField. simpl. rewrite Hhas, Hget, Hd.
  rewrite assign_unobserved by exact Hun.
  eexists. split; [reflexivity |]. simpl. apply heap_get_set_eq.
Qed.

(** A duplicate is rejected before anything else happens, as in [register]. *)
Lemma registerField_duplicate st store property queryParam config :
  Map_has (fields (this st)) queryParam = true →
  registerField store property queryParam config st
  = (Throw (Error (duplicate_message queryParam)), st).
Proof. intros H. unfold registerField, registerField_with. now rewrite H. Qed.

End PerFieldFacts.
End PerFieldFacts.

(** * Concrete runs *)

Module Examples.

#[local] Existing Instance demo_runtime.
Import Demo.

(** Registration through the MobX action reaches the explicit state. *)
Example registered_plain : registered "" = synced (num 0) "" 0.
Proof. vm_compute. reflexivity. Qed.

(** C1 at [?counter=7]: after [register], [store.counter] reads the string
    the URL supplied, not the constructor's [0]. *)
Lemma register_hydrates_from_url_witness :
  ∃ st', register 1%positive "counter" "counter" no_config (fresh "?counter=7") = (Ok (), st')
         ∧ heap_get (stores st') 1%positive "counter" = VString "7"
         ∧ heap_get (stores (registered "?counter=7")) 1%positive "counter" = VString "7".
Proof.
  apply (register_hydrates_from_url (fresh "?counter=7") 1%positive "counter" "counter"
           no_config ToString (fun s => Ok (VString s)) "7" (VString "7"));
    vm_compute; reflexivity.
Defined.

(** C3: a second registration of [counter]. *)
Lemma register_duplicate_rejected_witness :
  ∃ f, Map_get (fields (this (synced (num 0) "" 0))) "counter" = Some f
       ∧ register 2%positive "page" "counter" no_config (synced (num 0) "" 0)
         = (Throw (Error (duplicate_message "counter")), synced (num 0) "" 0)
       ∧ Map_get (fields (this (register 2%positive "page" "counter" no_config
                                         (synced (num 0) "" 0)).2)) "counter"
         = Some f.
Proof.
  apply (register_duplicate_rejected (synced (num 0) "" 0) 2%positive "page" "counter"
           no_config).
  reflexivity.
Defined.

(** C4: a number resolves to the automatic pair, an object without
    serializers does not resolve; the object resolves through the number
    given as [config.defaultValue], which is also the default stored, and
    through the two halves of [config] when both are given; with only
    [deserialize] given, the number takes the automatic [serialize] and the
    object does not resolve. *)
Lemma register_serializer_resolution_witness :
  (∃ st', register 1%positive "counter" "counter" no_config (fresh "") = (Ok (), st')
          ∧ Map_get (fields (this st')) "counter" = Some counterField)
  ∧ register 1%positive "counter" "counter" no_config
             (initial engine objectStore (page ""))
    = (Throw (Error (missing_message "counter")), initial engine objectStore (page ""))
  ∧ (∃ st', register 1%positive "counter" "counter" numeric_default
                     (initial engine objectStore (page "")) = (Ok (), st')
            ∧ Map_get (fields (this st')) "counter" = Some counterField)
  ∧ (∃ st', register 1%positive "counter" "counter" both_config
                     (initial engine objectStore (page "")) = (Ok (), st')
            ∧ Map_get (fields (this st')) "counter"
              = Some {| store := 1%positive; property := "counter";
                        queryParam := "counter"; defaultValue := VObject ["Big"];
                        serialize := fun _ => Ok "big";
                        deserialize := fun _ => Ok (VObject ["Big"]) |})
  ∧ (∃ st', register 1%positive "counter" "counter" strict_config (fresh "")
            = (Ok (), st')
            ∧ Map_get (fields (this st')) "counter"
              = Some {| store := 1%positive; property := "counter";
                        queryParam := "counter"; defaultValue := VNumber 0;
                        serialize := ToString;
                        deserialize := fun _ => Throw (Error "not a number") |})
  ∧ register 1%positive "counter" "counter" strict_config
             (initial engine objectStore (page ""))
    = (Throw (Error (missing_message "counter")), initial engine objectStore (page "")).
Proof.
  refine (conj _ (conj _ (conj _ (conj _ (conj _ _))))).
  - apply (register_serializer_resolution (fresh "") 1%positive "counter" "counter"
             no_config).
    reflexivity.
  - apply (register_serializer_resolution (initial engine objectStore (page ""))
             1%positive "counter" "counter" no_config).
    reflexivity.
  - apply (register_serializer_resolution (initial engine objectStore (page ""))
             1%positive "counter" "counter" numeric_default).
    reflexivity.
  - apply (register_serializer_resolution (initial engine objectStore (page ""))
             1%positive "counter" "counter" both_config).
    reflexivity.
  - apply (register_serializer_resolution (fresh "") 1%positive "counter" "counter"
             strict_config).
    reflexivity.
  - apply (register_serializer_resolution (initial engine objectStore (page ""))
             1%positive "counter" "counter" strict_config).
    reflexivity.
Defined.

(** C5: the deserializer rejects [?counter=x]; [counter] keeps its [0]. *)
Lemma register_discards_deserialize_error_witness :
  ∃ st', register 1%positive "counter" "counter" strict_config (fresh "?counter=x")
         = (Ok (), st')
         ∧ stores st' = stores (fresh "?counter=x")
         ∧ heap_get (stores st') 1%positive "counter"
           = heap_get (stores (fresh "?counter=x")) 1%positive "counter"
         ∧ Map_has (fields (this st')) "counter" = true.
Proof.
  apply (register_discards_deserialize_error (fresh "?counter=x") 1%positive "counter"
           "counter" strict_config ToString
           (fun _ => Throw (Error "not a number")) "x" (Error "not a number"));
    vm_compute; reflexivity.
Defined.

(** C9: the number [0] needs no serializer from the caller. *)
Lemma primitive_default_always_resolves_witness :
  getAutoSerializer (this (fresh "")) (num 0)
  = Some (ToString, fun s => Ok (VString s))
  ∧ ∃ st', register 1%positive "counter" "counter" no_config (fresh "") = (Ok (), st').
Proof.
  destruct (primitive_default_always_resolves (fresh "") 1%positive "counter" "counter"
              no_config) as (Hauto & Hok & _).
  - apply (bool_decide_eq_true_1 _). vm_compute. reflexivity.
  - split; [exact Hauto | apply Hok; reflexivity].
Defined.

(** C10 as amended: registering an object without serializers throws the
    missing-serializer error and leaves the engine, the interceptors and the
    store as they were, although the URL has a value for the parameter. *)
Lemma register_atomic_up_to_intercept_witness :
  let st := initial engine objectStore (page "?counter=7") in
  let st' := (register 1%positive "counter" "counter" no_config st).2 in
  (register 1%positive "counter" "counter" no_config st).1
  = Throw (Error (missing_message "counter"))
  ∧ st' = st ∧ fields (this st') = [] ∧ interceptors st' = []
  ∧ stores st' = objectStore.
Proof.
  split; [reflexivity |].
  apply (register_atomic_up_to_intercept None
           (initial engine objectStore (page "?counter=7")) 1%positive
           "counter" "counter" no_config (Error (missing_message "counter"))
           (initial engine objectStore (page "?counter=7")));
    reflexivity.
Defined.

(** C10 as stated fails when MobX cannot intercept the property, a store
    that is a plain object for instance: [intercept] throws as the last
    statement of [register], after the hydration from [?counter=7] and after
    the entry went into the field map.  The call raises, and yet the field
    map has a new entry and the store's property is modified. *)
Lemma register_raises_after_side_effects :
  let st := fresh "?counter=7" in
  let r := register_with (Some mobx_error) 1%positive "counter" "counter" no_config st in
  r.1 = Throw mobx_error
  ∧ Map_has (fields (this st)) "counter" = false
  ∧ Map_has (fields (this r.2)) "counter" = true
  ∧ interceptors r.2 = []
  ∧ heap_get (stores st) 1%positive "counter" = num 0
  ∧ heap_get (stores r.2) 1%positive "counter" = VString "7".
Proof. vm_compute. repeat split; reflexivity. Qed.

(** The path of the demo page is one [replaceState] accepts; a path that
    names another host, or holds a fragment or a dot segment, is not. *)
Example path_absolute_examples :
  path_absolute "/app" = true ∧ path_absolute "/" = true
  ∧ path_absolute "//x/app" = false ∧ path_absolute "/a#b" = false
  ∧ path_absolute "/a/../b" = false ∧ path_absolute "app" = false.
Proof. repeat split. Qed.

(** C2: with [counter] back at its default and [?counter=5] still in the
    URL, the desired set is empty and the flush removes the parameter. *)
Lemma default_elision_witness :
  let st := synced (num 0) "?counter=5" 0 in
  ∃ params,
    buildParams (fields (this st)) (stores st) URLSearchParams.empty = Ok params
    ∧ buildQueryString st = Ok (URLSearchParams.toString params)
    ∧ (∀ k f str dflt,
         (k, f) ∈ fields (this st) →
         serialize f (heap_get (stores st) (store f) (property f)) = Ok str →
         serialize f (defaultValue f) = Ok dflt →
         ((queryParam f, str) ∈ params ↔ str ≠ dflt)
         ∧ (str = dflt → URLSearchParams.has params (queryParam f) = false))
    ∧ (location_wf (location (window st)) →
       ∃ st', applyUrlUpdate st = (Ok (), st')
              ∧ URLSearchParams.new (search (location (window st'))) = params).
Proof.
  apply (default_elision (synced (num 0) "?counter=5" 0)).
  - split; [apply NoDup_singleton | repeat constructor].
  - repeat constructor. exists "0", "0". split; reflexivity.
Defined.

Example default_elision_run :
  let st := (applyUrlUpdate (synced (num 0) "?counter=5" 0)).2 in
  search (location (window st)) = "" ∧ history (window st) = ["/app"].
Proof. vm_compute. split; reflexivity. Qed.

(** C6 at a failing input: [store.counter] is the string 5, the URL is
    already [/app?counter=5], so the desired parameters are the current
    ones; the flush records the time and still calls [replaceState], because
    it compares [/app?counter=5] with [http://localhost/app?counter=5]. *)
Theorem flush_rewrites_unchanged_url :
  let st := synced (VString "5") "?counter=5" 900 in
  buildParams (fields (this st)) (stores st) URLSearchParams.empty
  = Ok (URLSearchParams.new (search (location (window st))))
  ∧ (applyUrlUpdate st).1 = Ok ()
  ∧ lastUpdateTime (this (applyUrlUpdate st).2) = 1000
  ∧ history (window (applyUrlUpdate st).2) = ["/app?counter=5"]
  ∧ location (window (applyUrlUpdate st).2) = location (window st).
Proof. vm_compute. repeat split; reflexivity. Qed.

(** The same situation in the per-field variant: the interceptor finds
    the parameters unchanged and returns at once, without a write and
    without touching the entry's [lastUpdateTime]. *)
Example perField_skips_unchanged :
  let st0 := (PerField.registerField 1%positive "counter" "counter" no_config
                (perField counterStore "?counter=5")).2 in
  let st := (PerField.assign 1%positive "counter" (num 5) st0).2 in
  history (PerField.window st) = []
  ∧ PerField.lastUpdateTime <$> Map_get (PerField.fields (PerField.this st)) "counter"
    = Some None
  ∧ heap_get (PerField.stores st) 1%positive "counter" = num 5.
Proof. vm_compute. repeat split; reflexivity. Qed.

(** C7: 3 ms after an update, a signal arms one timer for the 497 ms
    that remain. *)
Lemma scheduleUrlUpdate_throttles_witness :
  let st := step (EvClock 1003) (synced (num 2) "?counter=1" 1000) in
  let st' := (scheduleUrlUpdate st).2 in
  updateTimer (this st') = Some 1%nat
  ∧ timeouts (window st') = [(1%nat, 1003 + (500 - 3))]
  ∧ history (window st') = []
  ∧ lastUpdateTime (this st') = 1000.
Proof.
  apply (scheduleUrlUpdate_throttles (step (EvClock 1003) (synced (num 2) "?counter=1" 1000))).
  split; [discriminate | reflexivity].
Defined.

(** C8 as amended: after the update at 1000, the assignments at 1003 and
    1006 write nothing and leave one timer, due at 1500. *)
Lemma coalescing_after_update_witness :
  let st := synced (num 1) "?counter=1" 1000 in
  let evs := tail burst in
  let st1 := run evs st in
  (∀ n, history (window (run (take n evs) st)) = history (window st))
  ∧ lastUpdateTime (this st1) = 1000
  ∧ (List.length (timeouts (window st1)) <= 1)%nat
  ∧ (signalled evs st = true →
     ∃ handle,
       timeouts (window st1) = [(handle, 1500)]
       ∧ ∀ t, 1500 <= t →
           let st2 := run [EvClock t; EvTimeout handle] st1 in
           timeouts (window st2) = []
           ∧ lastUpdateTime (this st2) = t
           ∧ history (window st2) = (history (window st) ++ flush_writes st1)%list).
Proof.
  apply (coalescing_after_update (synced (num 1) "?counter=1" 1000) (tail burst)).
  - exact I.
  - discriminate.
  - reflexivity.
  - repeat constructor.
Defined.

Example burst_after_update :
  let st := synced (num 1) "?counter=1" 1000 in
  signalled (tail burst) st = true
  ∧ history (window (run (tail burst) st)) = []
  ∧ history (window (run (tail burst ++ [EvClock 1500; EvTimeout 2]) st))
    = ["/app?counter=3"].
Proof. vm_compute. repeat split; reflexivity. Qed.

(** C8 as stated fails on a new engine: the first of three assignments
    made within 6 ms is flushed at once, the last one when the timer fires.
    Two URL writes, the first of an intermediate state. *)
Lemma burst_on_new_engine_writes_twice :
  let st := run (burst ++ [EvClock 1600; EvTimeout 2]) (registered "") in
  history (window st) = ["/app?counter=1"; "/app?counter=3"]
  ∧ ¬ (∃ url, history (window st) = [url]).
Proof.
  assert (H : history (window (run (burst ++ [EvClock 1600; EvTimeout 2]) (registered "")))
              = ["/app?counter=1"; "/app?counter=3"])
    by (vm_compute; reflexivity).
  cbv zeta. split; [exact H |]. rewrite H. intros [url Hurl]. discriminate Hurl.
Qed.

(** The same happens after a quiet period: with the last update more than
    a delay ago, the first assignment of a burst is written at once. *)
Example burst_after_quiescence :
  let st := step (EvClock 2000) (synced (num 0) "" 1000) in
  history (window (run (burst ++ [EvClock 2600; EvTimeout 2]) st))
  = ["/app?counter=1"; "/app?counter=3"].
Proof. vm_compute. reflexivity. Qed.

(** *** The per-field variant *)

(** [registerField] lets the deserializer's exception out, after the entry
    went into the field map and before the interceptor is installed. *)
Example registerField_propagates :
  let r := PerField.registerField 1%positive "counter" "counter" strict_config
             (perField counterStore "?counter=x") in
  r.1 = Throw (Error "not a number")
  ∧ Map_has (PerField.fields (PerField.this r.2)) "counter" = true
  ∧ PerField.interceptors r.2 = []
  ∧ heap_get (PerField.stores r.2) 1%positive "counter" = num 0.
Proof. vm_compute. repeat split; reflexivity. Qed.

(** [registerField] resolves the serializer from the store's current
    value, [register] from the default value. *)
Example registerField_resolves_from_store :
  (PerField.registerField 1%positive "counter" "counter" numeric_default
     (perField objectStore "")).1
  = Throw (Error (PerField.missing_message "counter"))
  ∧ (register 1%positive "counter" "counter" numeric_default
       (initial engine objectStore (page ""))).1 = Ok ().
Proof. vm_compute. split; reflexivity. Qed.

(** Two fields throttle independently: two callbacks are pending at
    once, each holding the parameters it computed when it was armed, and
    the one that runs last overwrites the other's change. *)
Example perField_two_pending :
  let exec (m : PerField.M ()) st := (m st).2 in
  let st0 := exec (PerField.registerField 2%positive "page" "page" no_config)
               (exec (PerField.registerField 1%positive "counter" "counter" no_config)
                  (perField twoStores "")) in
  let st1 := exec (PerField.assign 2%positive "page" (num 2))
               (exec (PerField.assign 1%positive "counter" (num 1)) st0) in
  let st2 := exec (PerField.assign 2%positive "page" (num 3))
               (exec (PerField.assign 1%positive "counter" (num 2))
                  (PerField.tick 1003 st1)) in
  let st3 := PerField.timeout 2 (PerField.timeout 1 (PerField.tick 1500 st2)) in
  history (PerField.window st1) = ["/app?counter=1"; "/app?counter=1&page=2"]
  ∧ timeouts (PerField.window st2) = [(1%nat, 1500); (2%nat, 1500)]
  ∧ history (PerField.window st3)
    = ["/app?counter=1"; "/app?counter=1&page=2";
       "/app?counter=2&page=2"; "/app?counter=1&page=3"]
  ∧ heap_get (PerField.stores st3) 1%positive "counter" = num 2.
Proof. vm_compute. repeat split; reflexivity. Qed.

End Examples.

(** * Further properties of [src/index.ts] *)

(** ** Serializer lookup and registration *)

Section MoreRegisterFacts.
Context {R : JSRuntime}.
Implicit Types (st : state) (config : Config).

Lemma find_serializer_first (l : list (string * Serializer)) (val : value) pre key S post :
  l = (pre ++ (key, S) :: post)%list → unmatched val pre →
  instanceof val (classConstructor S) = true →
  find_serializer l val = Some (s_serialize S, s_deserialize S).
Proof.
  intros -> Hpre HS. induction pre as [|[k0 S0] pre IH]; simpl.
  - now rewrite HS.
  - inversion_clear Hpre as [|? ? H0 Hpre']. simpl in H0. rewrite H0. now apply IH.
Qed.

Lemma find_serializer_none (l : list (string * Serializer)) (val : value) :
  find_serializer l val = None ↔ unmatched val l.
Proof.
  unfold unmatched. induction l as [|[k S] l IH]; simpl.
  - split; [constructor | reflexivity].
  - destruct (instanceof val (classConstructor S)) eqn:E.
    + split; [discriminate |]. intros H. inversion_clear H as [|? ? H0 _].
      simpl in H0. congruence.
    + rewrite IH. split; [now constructor | now inversion 1].
Qed.

Lemma instanceof_not_primitive (val : value) C :
  instanceof val C = true → typeof val ∉ ["string"; "number"; "boolean"].
Proof.
  destruct val; simpl; try discriminate. intros _ H.
  repeat (apply elem_of_cons in H as [H | H]; [discriminate H |]). inversion H.
Qed.

Lemma hydrate_absent store property key d st :
  URLSearchParams.has (URLSearchParams.new (search (location (window st)))) key = false →
  hydrate store property key d st = st.
Proof. unfold hydrate. now intros ->. Qed.

(** The state a successful [register] returns. *)
Lemma register_ok_shape st store property key config st' :
  register store property key config st = (Ok (), st') →
  Map_has (fields (this st)) key = false
  ∧ ∃ s d,
      resolve_pair (this st) config
        (nullish_or (cfg_defaultValue config) (heap_get (stores st) store property))
      = (Some s, Some d)
      ∧ fields (this st')
        = (fields (this st)
           ++ [(key, {| store := store; property := property; queryParam := key;
                        defaultValue :=
                          nullish_or (cfg_defaultValue config)
                                     (heap_get (stores st) store property);
                        serialize := s; deserialize := d |})])%list
      ∧ interceptors st' = (interceptors st ++ [(store, property)])%list
      ∧ stores st' = stores (hydrate store property key d st)
      ∧ window st' = window st.
Proof.
  unfold register, register_with. destruct (Map_has (fields (this st)) key) eqn:Hhas; [discriminate |].
  destruct (resolve_pair _ _ _) as [[s|] [d|]] eqn:Hp; try discriminate.
  intros [= <-]. split; [reflexivity |]. exists s, d. split; [reflexivity |].
  destruct (hydrate_frame store property key d st) as (Hw & Hi & _).
  simpl. rewrite hydrate_this, Hi, Hw. repeat split.
  now rewrite Map_set_fresh.
Qed.

End MoreRegisterFacts.

Section MoreRegisterProperties.
Context {R : JSRuntime}.
Implicit Types (st : state) (config : Config).

(** X1 ([getAutoSerializer], custom types).  For a value that is not a
    string, number or boolean the table of serializers is scanned in its
    enumeration order and the first entry whose constructor the value is an
    instance of wins, whatever follows it; the lookup fails exactly when the
    value is not primitive and no entry matches. *)
Theorem getAutoSerializer_first_match (e : MobXURLSync) (val : value) :
  (∀ pre key S post,
     serializers e = (pre ++ (key, S) :: post)%list →
     unmatched val pre →
     instanceof val (classConstructor S) = true →
     getAutoSerializer e val = Some (s_serialize S, s_deserialize S))
  ∧ (getAutoSerializer e val = None
     ↔ ((typeof val ∉ ["string"; "number"; "boolean"]) ∧ unmatched val (serializers e))).
Proof.
  split.
  - intros pre key S post He Hpre HS. unfold getAutoSerializer.
    rewrite bool_decide_eq_false_2 by (eapply instanceof_not_primitive; eassumption).
    eapply find_serializer_first; eassumption.
  - unfold getAutoSerializer. case_bool_decide as Hty.
    + split; [discriminate | intros [? _]; contradiction].
    + rewrite find_serializer_none. tauto.
Qed.

(** X2 ([register] on a nullish value).  When neither [config.defaultValue]
    nor the store's property holds a value (both [undefined] or [null]),
    no automatic serializer exists, whatever the table holds: unless
    [config] brings both functions, [register] throws the missing-serializer
    error and changes nothing. *)
Theorem register_nullish_needs_serializers st store property queryParam config :
  Map_has (fields (this st)) queryParam = false →
  nullish_or (cfg_defaultValue config) (heap_get (stores st) store property) = VUndefined
  ∨ nullish_or (cfg_defaultValue config) (heap_get (stores st) store property) = VNull →
  cfg_serialize config = None ∨ cfg_deserialize config = None →
  register store property queryParam config st
  = (Throw (Error (missing_message property)), st).
Proof.
  intros Hfresh Hnull Hcfg. unfold register, register_with. rewrite Hfresh.
  assert (Hauto : getAutoSerializer (this st)
                    (nullish_or (cfg_defaultValue config)
                                (heap_get (stores st) store property)) = None).
  { unfold getAutoSerializer.
    destruct Hnull as [-> | ->]; simpl;
      (induction (serializers (this st)) as [|[? ?] l IH]; [reflexivity | exact IH]). }
  rewrite resolve_pair_halves, Hauto.
  destruct Hcfg as [-> | ->]; simpl; [reflexivity |].
  now destruct (cfg_serialize config).
Qed.


(** X4 (hydration with the automatic serializer).  When [config] brings no
    deserializer and the value used for resolution is a string, number or
    boolean, the automatic deserializer is the identity on strings: a
    [register] call that finds the parameter in the URL stores the raw
    string, also in a property that held a number or a boolean. *)
Theorem register_auto_hydrates_raw_string st obj prop key config raw :
  Map_has (fields (this st)) key = false →
  cfg_deserialize config = None →
  typeof (nullish_or (cfg_defaultValue config) (heap_get (stores st) obj prop))
    ∈ ["string"; "number"; "boolean"] →
  URLSearchParams.get (URLSearchParams.new (search (location (window st)))) key = Some raw →
  ∃ st', register obj prop key config st = (Ok (), st')
         ∧ heap_get (stores st') obj prop = VString raw
         ∧ typeof (heap_get (stores st') obj prop) = "string".
Proof.
  intros Hfresh Hcfg Hty Hget.
  assert (Hhas : URLSearchParams.has
                   (URLSearchParams.new (search (location (window st)))) key = true)
    by (apply URLSearchParamsFacts.has_get; rewrite Hget; eauto).
  unfold register, register_with. rewrite Hfresh, resolve_pair_halves, Hcfg.
  unfold getAutoSerializer. rewrite bool_decide_eq_true_2 by exact Hty. simpl.
  assert (Hh : heap_get (stores (hydrate obj prop key (fun s => Ok (VString s)) st)) obj prop
               = VString raw).
  { unfold hydrate. rewrite Hhas, Hget. simpl. apply heap_get_set_eq. }
  destruct (cfg_serialize config); simpl; eexists; (split; [reflexivity |]); simpl;
    rewrite Hh; auto.
Qed.

(** X5 (invariants of the field map).  In every state a new engine
    reaches, by any sequence of registrations, assignments, clock readings
    and timer callbacks, the keys of the field map are pairwise distinct and
    every entry is stored under its own [queryParam].  Every event keeps
    this, and so does a [register] call whose [intercept] throws after the
    entry was stored, followed by the reaction. *)
Theorem reachable_fields_invariant :
  (∀ table delay (h : heap) w evs,
     fields_wf (fields (this (run evs (initial (new_MobXURLSync table delay) h w)))))
  ∧ (∀ st ev, fields_wf (fields (this st)) → fields_wf (fields (this (step ev st))))
  ∧ (∀ st intercept obj prop key config,
       fields_wf (fields (this st)) →
       fields_wf (fields (this (runReaction
                                  (register_with intercept obj prop key config st).2)))).
Proof.
  split; [| split].
  - intros table delay h w evs. now apply run_fields_wf.
  - intros st ev Hwf. now apply step_fields_wf.
  - intros st intercept obj prop key config Hwf. rewrite runReaction_fields.
    unfold register_with. destruct (Map_has (fields (this st)) key) eqn:Hhas; [exact Hwf |].
    destruct (resolve_pair _ _ _) as [[s|] [d|]]; try exact Hwf.
    assert (Hf : fields_wf
                   (Map_set (fields (this (hydrate obj prop key d st))) key
                      {| store := obj; property := prop; queryParam := key;
                         defaultValue :=
                           nullish_or (cfg_defaultValue config)
                                      (heap_get (stores st) obj prop);
                         serialize := s; deserialize := d |})).
    { rewrite hydrate_this, Map_set_fresh by exact Hhas.
      now apply fields_wf_snoc. }
    destruct intercept; exact Hf.
Qed.

End MoreRegisterProperties.

(** ** The flush and the URL it leaves *)

Section MoreFlushFacts.
Context {R : JSRuntime}.
Implicit Types (st : state).

Lemma desiredParams_get fs (h : heap) k f str dflt :
  fields_wf fs → (k, f) ∈ fs →
  serialize f (heap_get h (store f) (property f)) = Ok str →
  serialize f (defaultValue f) = Ok dflt →
  URLSearchParams.get (desiredParams fs h) (queryParam f)
  = if String.eqb str dflt then None else Some str.
Proof.
  intros [Hnd Hkeys]. revert Hnd.
  induction fs as [|[k' f'] fs IH]; intros Hnd Hin Hs Hd; [inversion Hin |].
  simpl in Hnd. apply NoDup_cons in Hnd as [Hk' Hnd].
  inversion_clear Hkeys as [|? ? Hkf Hkeys']. simpl in Hkf.
  rewrite desiredParams_cons.
  apply elem_of_cons in Hin as [[= -> ->] | Hin].
  - rewrite Hs, Hd. destruct (String.eqb str dflt).
    + apply URLSearchParamsFacts.has_false_get.
      destruct (URLSearchParams.has (desiredParams fs h) (queryParam f')) eqn:E;
        [| reflexivity].
      apply has_desiredParams in E; [| assumption]. rewrite <- Hkf in E. contradiction.
    + simpl. now rewrite String.eqb_refl.
  - assert (Hne : queryParam f' ≠ queryParam f).
    { intros Heq. apply Hk'. rewrite Hkf, Heq.
      rewrite Forall_forall in Hkeys'. pose proof (Hkeys' _ Hin) as Hk0.
      simpl in Hk0. rewrite <- Hk0. apply list_elem_of_fmap. exists (k, f). auto. }
    specialize (IH Hkeys' Hnd Hin Hs Hd).
    destruct (serialize f' _) as [str'|]; [| exact IH].
    destruct (serialize f' (defaultValue f')) as [dflt'|]; [| exact IH].
    destruct (String.eqb str' dflt'); [exact IH |].
    simpl. apply String.eqb_neq in Hne. now rewrite Hne.
Qed.

(** A flush on a well-formed state: what it returns and the URL it leaves. *)
Lemma flush_url st :
  fields_wf (fields (this st)) →
  Forall (serializes (stores st)) (fields (this st)) →
  location_wf (location (window st)) →
  let st' := (applyUrlUpdate st).2 in
  let params := desiredParams (fields (this st)) (stores st) in
  (applyUrlUpdate st).1 = Ok ()
  ∧ URLSearchParams.new (search (location (window st'))) = params
  ∧ origin (location (window st')) = origin (location (window st))
  ∧ pathname (location (window st')) = pathname (location (window st))
  ∧ hash (location (window st')) = ""
  ∧ history (window st')
    = (history (window st)
       ++ [newUrl_of (location (window st)) (URLSearchParams.toString params)])%list
  ∧ fields (this st') = fields (this st)
  ∧ stores st' = stores st.
Proof.
  intros Hwf Hser Hloc.
  pose proof (buildParams_total _ _ URLSearchParams.empty Hwf (fun _ _ => eq_refl) Hser)
    as Hb.
  simpl app in Hb.
  rewrite (applyUrlUpdate_always_writes st _ Hloc Hb). simpl.
  destruct Hloc as (_ & _ & Hp & _).
  repeat split.
  - apply (replaceState_params (window st)). exact Hp.
  - unfold newUrl_of. destruct (String.eqb _ "").
    + now apply StrFacts.before_none.
    + change ("?" +:+ URLSearchParams.toString
                (desiredParams (fields (this st)) (stores st)))
        with (String "?" (URLSearchParams.toString
                            (desiredParams (fields (this st)) (stores st)))).
      now apply StrFacts.before_append.
Qed.

Lemma buildParams_throws fs (h : heap) acc k f :
  (k, f) ∈ fs → ¬ serializes h (k, f) → is_throw (buildParams fs h acc).
Proof.
  revert acc. induction fs as [|[k' f'] fs IH]; intros acc Hin Hno; [inversion Hin |].
  simpl.
  destruct (serialize f' (heap_get h (store f') (property f'))) as [str|] eqn:Es;
    [| exact I].
  destruct (serialize f' (defaultValue f')) as [dflt|] eqn:Ed; [| exact I].
  simpl. apply elem_of_cons in Hin as [[= -> ->] | Hin].
  - exfalso. apply Hno. exists str, dflt. auto.
  - now apply IH.
Qed.

Lemma buildParams_unbound fs (h : heap) acc s p v :
  unbound fs s p → buildParams fs (heap_set h s p v) acc = buildParams fs h acc.
Proof.
  revert acc. induction fs as [|[k f] fs IH]; intros acc Hun; [reflexivity |].
  inversion_clear Hun as [|? ? Hf Hfs]. simpl in Hf. simpl.
  rewrite heap_get_set_ne by (intros Heq; apply Hf; now symmetry).
  destruct (serialize f _); [| reflexivity]. simpl.
  destruct (serialize f _); [| reflexivity]. simpl.
  now apply IH.
Qed.

End MoreFlushFacts.

Section MoreFlushProperties.
Context {R : JSRuntime}.
Implicit Types (st : state).

(** X6 (the URL after a flush).  On a well-formed state whose serializers
    return, [applyUrlUpdate] leaves a URL whose query holds, for each
    registered field, its serialized value under its parameter, or nothing
    when that value serializes like the default; every parameter that no
    field is registered under is gone from the URL, and so is the fragment. *)
Theorem flush_url_holds_registered_fields_only st :
  fields_wf (fields (this st)) →
  Forall (serializes (stores st)) (fields (this st)) →
  location_wf (location (window st)) →
  let url := URLSearchParams.new (search (location (window (applyUrlUpdate st).2))) in
  (∀ k f str dflt,
     (k, f) ∈ fields (this st) →
     serialize f (heap_get (stores st) (store f) (property f)) = Ok str →
     serialize f (defaultValue f) = Ok dflt →
     URLSearchParams.get url (queryParam f)
     = if String.eqb str dflt then None else Some str)
  ∧ (∀ name, name ∉ (fields (this st)).*1 → URLSearchParams.has url name = false)
  ∧ hash (location (window (applyUrlUpdate st).2)) = "".
Proof.
  intros Hwf Hser Hloc url.
  destruct (flush_url st Hwf Hser Hloc) as (_ & Hurl & _ & _ & Hhash & _).
  subst url. rewrite Hurl. split; [| split; [| exact Hhash]].
  - intros k f str dflt Hin Hs Hd. now apply (desiredParams_get _ _ k).
  - intros name Hname.
    destruct (URLSearchParams.has _ name) eqn:E; [| reflexivity].
    apply has_desiredParams in E; [contradiction | apply Hwf].
Qed.

(** X7 (flush, then reload).  Let a flush have written the URL, and let a
    new registration of a field under the same parameter run against that
    URL (a page reload).  If the field's value serialized like its default,
    the URL has no value for it and the new store is left alone; otherwise
    the new store's property receives [deserialize] of exactly the string
    that [serialize] produced (and is left alone if [deserialize] throws). *)
Theorem flush_reload_round_trip st k f str dflt st_new obj prop config s d :
  fields_wf (fields (this st)) →
  Forall (serializes (stores st)) (fields (this st)) →
  location_wf (location (window st)) →
  (k, f) ∈ fields (this st) →
  serialize f (heap_get (stores st) (store f) (property f)) = Ok str →
  serialize f (defaultValue f) = Ok dflt →
  location (window st_new) = location (window (applyUrlUpdate st).2) →
  Map_has (fields (this st_new)) (queryParam f) = false →
  resolve_pair (this st_new) config
    (nullish_or (cfg_defaultValue config) (heap_get (stores st_new) obj prop))
  = (Some s, Some d) →
  ∃ st'', register obj prop (queryParam f) config st_new = (Ok (), st'')
          ∧ if String.eqb str dflt then stores st'' = stores st_new
            else match d str with
                 | Ok v => heap_get (stores st'') obj prop = v
                 | Throw _ => stores st'' = stores st_new
                 end.
Proof.
  intros Hwf Hser Hloc Hin Hs Hd Hnew Hfresh Hpair.
  destruct (flush_url st Hwf Hser Hloc) as (_ & Hurl & _).
  pose proof (desiredParams_get _ (stores st) k f str dflt Hwf Hin Hs Hd) as Hget.
  rewrite <- Hurl, <- Hnew in Hget.
  unfold register, register_with. rewrite Hfresh, Hpair. eexists. split; [reflexivity |]. simpl.
  unfold hydrate. destruct (String.eqb str dflt).
  - apply URLSearchParamsFacts.has_false_get in Hget. now rewrite Hget.
  - assert (Hhas : URLSearchParams.has
                     (URLSearchParams.new (search (location (window st_new))))
                     (queryParam f) = true)
      by (apply URLSearchParamsFacts.has_get; rewrite Hget; eauto).
    rewrite Hhas, Hget. destruct (d str); simpl; [apply heap_get_set_eq | reflexivity].
Qed.

(** X8 (a serializer that throws).  If the serializer of some registered
    field throws, on the field's value or on its default, the flush throws
    and writes nothing: URL, history and timers are as before.  It has
    nevertheless recorded the current time as [lastUpdateTime], and when the
    flush was run by the timer callback the engine keeps the handle of that
    timer in [updateTimer]. *)
Theorem flush_with_throwing_serializer st k f :
  (k, f) ∈ fields (this st) →
  ¬ serializes (stores st) (k, f) →
  is_throw (applyUrlUpdate st).1
  ∧ window (applyUrlUpdate st).2 = window st
  ∧ lastUpdateTime (this (applyUrlUpdate st).2) = clock (window st)
  ∧ is_throw (updateTimerCallback st).1
  ∧ updateTimer (this (updateTimerCallback st).2) = updateTimer (this st)
  ∧ window (updateTimerCallback st).2 = window st.
Proof.
  intros Hin Hno.
  pose proof (buildParams_throws _ (stores st) URLSearchParams.empty k f Hin Hno) as Hb.
  assert (Happly : is_throw (applyUrlUpdate st).1
                   ∧ window (applyUrlUpdate st).2 = window st
                   ∧ this (applyUrlUpdate st).2
                     = with_lastUpdateTime (this st) (clock (window st))).
  { unfold applyUrlUpdate. cbv zeta.
    rewrite buildQueryString_with_this by reflexivity.
    unfold buildQueryString.
    destruct (buildParams _ _ _); [contradiction |]. simpl. auto. }
  destruct Happly as (Ht & Hw & Hthis).
  split; [exact Ht |]. split; [exact Hw |]. split; [now rewrite Hthis |].
  unfold updateTimerCallback.
  destruct (applyUrlUpdate st) as [[[]|e] st']; simpl in *; [contradiction |].
  rewrite Hthis. auto.
Qed.

(** X9 (flushing twice).  A flush keeps the origin and the path of the
    location; a second flush of the same state writes the same URL again and
    leaves the location as the first one left it. *)
Theorem flush_twice st :
  fields_wf (fields (this st)) →
  Forall (serializes (stores st)) (fields (this st)) →
  location_wf (location (window st)) →
  let st1 := (applyUrlUpdate st).2 in
  let st2 := (applyUrlUpdate st1).2 in
  origin (location (window st1)) = origin (location (window st))
  ∧ pathname (location (window st1)) = pathname (location (window st))
  ∧ location (window st2) = location (window st1)
  ∧ ∃ url, history (window st1) = (history (window st) ++ [url])%list
           ∧ history (window st2) = (history (window st) ++ [url; url])%list.
Proof.
  intros Hwf Hser Hloc st1 st2.
  pose proof (buildParams_total _ _ URLSearchParams.empty Hwf (fun _ _ => eq_refl) Hser)
    as Hb.
  simpl app in Hb.
  destruct (flush_url st Hwf Hser Hloc) as (_ & _ & Ho & Hp & _ & Hh & Hf & Hs).
  fold st1 in Ho, Hp, Hh, Hf, Hs.
  assert (Hloc1 : location_wf (location (window st1))).
  { destruct Hloc as (H1 & H2 & H3 & H4). unfold location_wf. now rewrite Ho, Hp. }
  assert (Hb1 : buildParams (fields (this st1)) (stores st1) URLSearchParams.empty
                = Ok (desiredParams (fields (this st)) (stores st)))
    by now rewrite Hf, Hs.
  pose proof (applyUrlUpdate_always_writes st1 _ Hloc1 Hb1) as H2.
  pose proof (applyUrlUpdate_always_writes st _ Hloc Hb) as H1.
  cbv zeta in H1, H2.
  assert (Hurl : newUrl_of (location (window st1))
                   (URLSearchParams.toString (desiredParams (fields (this st)) (stores st)))
                 = newUrl_of (location (window st))
                     (URLSearchParams.toString (desiredParams (fields (this st)) (stores st))))
    by (unfold newUrl_of; now rewrite Hp).
  split; [exact Ho |]. split; [exact Hp |]. split.
  - subst st2. rewrite H2. subst st1. rewrite H1. simpl window.
    rewrite H1 in Hurl. simpl window in Hurl. unfold replaceState at 1 3. simpl.
    unfold replaceState in Hurl at 1. simpl in Hurl. rewrite Hurl. reflexivity.
  - eexists. split; [exact Hh |].
    subst st2. rewrite H2. simpl. rewrite Hurl, Hh. now rewrite <- app_assoc.
Qed.

(** X10 (assignments to unbound properties).  Assigning to a store property
    that no field is bound to does not change the query string the engine
    computes; when the reaction is up to date, such an assignment only
    changes the heap: no flush, no timer, no URL write. *)
Theorem assign_unbound_is_silent st s p v :
  unbound (fields (this st)) s p →
  buildQueryString (with_stores st (heap_set (stores st) s p v)) = buildQueryString st
  ∧ (buildQueryString st = Ok (reactionValue st) →
     step (EvAssign s p v) st = with_stores st (heap_set (stores st) s p v)).
Proof.
  intros Hun.
  assert (Hq : buildQueryString (with_stores st (heap_set (stores st) s p v))
               = buildQueryString st).
  { unfold buildQueryString. simpl. now rewrite buildParams_unbound. }
  split; [exact Hq |]. intros Hsync. simpl. unfold runReaction.
  rewrite Hq, Hsync. simpl. now rewrite String.eqb_refl.
Qed.

End MoreFlushProperties.

(** ** Runs of the engine *)

Section MoreRunProperties.
Context {R : JSRuntime}.
Implicit Types (st : state) (ev : event).

Lemma step_stores_no_register ev st :
  ¬ is_register ev →
  stores (step ev st) = assigned [ev] (stores st).
Proof.
  intros Hev. destruct ev as [obj prop key config | obj prop v | t | handle]; simpl.
  - now destruct Hev.
  - now rewrite runReaction_stores.
  - reflexivity.
  - destruct (due_of handle (window st)); [| reflexivity].
    destruct (_ <=? _); [| reflexivity].
    now destruct (updateTimerCallback_effects
                    (with_window st (clearTimeout handle (window st)))) as (-> & _).
Qed.

(** X11 (the engine does not write to stores).  Along any sequence of
    assignments, clock readings and timer callbacks, the heap of stores is
    the initial heap with the assignments applied in order: reactions,
    flushes and timers never change a store property, and every assigned
    value is committed as given. *)
Theorem run_only_assignments_change_stores evs st :
  Forall (fun ev => ¬ is_register ev) evs →
  stores (run evs st) = assigned evs (stores st).
Proof.
  revert st. induction evs as [|ev evs IH]; intros st Hall; [reflexivity |].
  inversion_clear Hall as [|? ? Hev Hevs].
  simpl. rewrite IH by assumption.
  now rewrite step_stores_no_register.
Qed.

(** X12 (a pending flush is never postponed).  In every state a new engine
    reaches, a pending timer callback is the one whose handle the engine
    holds in [updateTimer], an update has happened before, and the callback
    is due exactly [debounceDelay] after [lastUpdateTime]: signals that
    arrive while it is pending replace it by one with the same due time. *)
Theorem reachable_timer_due table delay (h : heap) w evs :
  timeouts w = [] →
  let st := run evs (initial (new_MobXURLSync table delay) h w) in
  ∀ handle due,
    (handle, due) ∈ timeouts (window st) →
    updateTimer (this st) = Some handle
    ∧ lastUpdateTime (this st) ≠ 0
    ∧ due = lastUpdateTime (this st) + debounceDelay (this st).
Proof.
  intros Hw st handle due Hin.
  assert (Hinv : timer_inv st) by (apply run_inv, initial_inv, Hw).
  unfold timer_inv in Hinv.
  destruct (timeouts (window st)) as [|[h0 d0] [|? ?]]; [inversion Hin | | contradiction].
  apply list_elem_of_singleton in Hin. injection Hin as -> ->. exact Hinv.
Qed.

(** X13 (no delay, no deferral).  With a [debounceDelay] of zero or less
    and a clock that has not gone back behind the last update, a signal
    always flushes at once: no timer is pending afterwards and
    [lastUpdateTime] is the current time.  The constructor keeps a delay of
    zero as given. *)
Theorem zero_delay_never_defers st :
  debounceDelay (this st) <= 0 →
  lastUpdateTime (this st) <= clock (window st) →
  timer_inv st →
  let st' := (scheduleUrlUpdate st).2 in
  timeouts (window st') = []
  ∧ updateTimer (this st') = None
  ∧ lastUpdateTime (this st') = clock (window st)
  ∧ history (window st')
    = (history (window st) ++ flush_writes (cancelPending st))%list
  ∧ ∀ table, debounceDelay (new_MobXURLSync table (Some 0)) = 0.
Proof.
  intros Hd Hl Hinv st'. subst st'.
  rewrite scheduleUrlUpdate_immediate by (right; lia).
  destruct (applyUrlUpdate_effects (cancelPending st))
    as (Et & _ & _ & _ & Hto & _ & _ & Hh).
  destruct (cancelPending_effects st) as (Ethis & _ & _ & _ & _ & _ & Eclock & Ehist & _).
  rewrite Et, Hto, Hh, Ethis, Eclock, Ehist. simpl.
  rewrite cancelPending_no_timeouts by assumption. auto.
Qed.

End MoreRunProperties.

(** ** A registration followed by the reaction *)

Section MoreRegistrationRuns.
Context {R : JSRuntime}.
Implicit Types (st : state).

Lemma buildParams_snoc fs kf (h : heap) acc :
  buildParams (fs ++ [kf]) h acc
  = result_bind (buildParams fs h acc) (fun params => buildParams [kf] h params).
Proof.
  revert acc. induction fs as [|[k f] fs IH]; intros acc; simpl.
  - destruct kf as [k f]. simpl.
    destruct (serialize f _); [| reflexivity]. simpl.
    destruct (serialize f _); reflexivity.
  - destruct (serialize f _); [| reflexivity]. simpl.
    destruct (serialize f _); [| reflexivity]. simpl.
    apply IH.
Qed.

(** X14 (a silent registration).  When [config] gives no default value
    and the URL has no value for the parameter, the new entry's value is its
    own default, so it adds nothing to the query string: with the reaction up
    to date, the whole registration, MobX action and reaction included, ends
    in the state [register] returned, without a flush, a timer or a URL
    write. *)
Theorem register_at_default_is_silent st obj prop key config st' :
  register obj prop key config st = (Ok (), st') →
  nullish_or (cfg_defaultValue config) (heap_get (stores st) obj prop)
  = heap_get (stores st) obj prop →
  URLSearchParams.has (URLSearchParams.new (search (location (window st)))) key = false →
  buildQueryString st = Ok (reactionValue st) →
  step (EvRegister obj prop key config) st = st'
  ∧ history (window st') = history (window st)
  ∧ timeouts (window st') = timeouts (window st).
Proof.
  intros Hreg Hdflt Habs Hsync.
  destruct (register_ok_shape _ _ _ _ _ _ Hreg) as (_ & s & d & _ & Hf & _ & Hs & Hw).
  rewrite hydrate_absent in Hs by assumption.
  destruct (register_effects st obj prop key config) as (_ & Hr & _).
  rewrite Hreg in Hr. simpl in Hr.
  split; [| now rewrite Hw].
  simpl. rewrite Hreg. simpl. unfold runReaction.
  unfold buildQueryString in Hsync |- *. rewrite Hf, Hs, buildParams_snoc.
  destruct (buildParams (fields (this st)) (stores st) URLSearchParams.empty)
    as [params|]; [| discriminate]. simpl in Hsync |- *.
  rewrite Hdflt.
  destruct (s (heap_get (stores st) obj prop)) as [str|]; [| reflexivity]. simpl.
  rewrite String.eqb_refl. simpl. rewrite Hr.
  injection Hsync as ->. now rewrite String.eqb_refl.
Qed.

End MoreRegistrationRuns.

(** * Further properties of the per-field variant *)

Module URLSearchParamsMore.
Import URLSearchParams.

Lemma delete_absent (p : t) k : has p k = false → delete p k = p.
Proof.
  unfold delete, t. induction p as [|[k' v'] p IH]; [reflexivity |].
  intros H. simpl in H. apply orb_false_elim in H as [Hk Hp].
  apply String.eqb_neq in Hk. rewrite filter_cons_True by exact Hk.
  now rewrite (IH Hp).
Qed.

Lemma set_present (pre post : t) k v :
  has pre k = false → has post k = false →
  set (pre ++ (k, v) :: post)%list k v = (pre ++ (k, v) :: post)%list.
Proof.
  intros Hpre Hpost. induction pre as [|[k' v'] pre IH]; simpl in *.
  - rewrite String.eqb_refl. now rewrite delete_absent.
  - destruct (String.eqb k' k); simpl in *; [discriminate |]. now rewrite IH.
Qed.

Lemma get_delete_ne (p : t) k name : name ≠ k → get (delete p k) name = get p name.
Proof.
  intros Hne. unfold delete, t. induction p as [|[k' v'] p IH]; [reflexivity |].
  destruct (decide (k' = k)) as [-> | Hk].
  - rewrite filter_cons_False by (simpl; tauto). simpl.
    apply not_eq_sym, String.eqb_neq in Hne. now rewrite Hne.
  - rewrite filter_cons_True by exact Hk. simpl. now rewrite IH.
Qed.

Lemma get_delete_eq (p : t) k : get (delete p k) k = None.
Proof.
  unfold delete, t. induction p as [|[k' v'] p IH]; [reflexivity |].
  destruct (decide (k' = k)) as [-> | Hk].
  - now rewrite filter_cons_False by (simpl; tauto).
  - rewrite filter_cons_True by exact Hk. simpl.
    apply String.eqb_neq in Hk. now rewrite Hk.
Qed.

Lemma get_set_ne (p : t) k v name : name ≠ k → get (set p k v) name = get p name.
Proof.
  intros Hne. induction p as [|[k' v'] p IH]; simpl.
  - apply not_eq_sym, String.eqb_neq in Hne. now rewrite Hne.
  - destruct (String.eqb_spec k' k) as [-> | Hk]; simpl.
    + apply not_eq_sym, String.eqb_neq in Hne. rewrite Hne.
      apply get_delete_ne. now apply String.eqb_neq, not_eq_sym in Hne.
    + now rewrite IH.
Qed.

Lemma get_set_eq (p : t) k v : get (set p k v) k = Some v.
Proof.
  induction p as [|[k' v'] p IH]; simpl.
  - now rewrite String.eqb_refl.
  - destruct (String.eqb k' k) eqn:E; simpl; rewrite E; [reflexivity | exact IH].
Qed.

End URLSearchParamsMore.

Module PerFieldProperties.
Import PerField.
Section PerFieldProperties.
Context {R : JSRuntime}.
Implicit Types (st : state) (config : Config).

Lemma registerField_pair_halves (e : MobXURLSync) config current :
  resolve_pair e config current =
    (match cfg_serialize config with
     | Some s => Some s
     | None => fst <$> getDefaultSerializer e current
     end,
     match cfg_deserialize config with
     | Some d => Some d
     | None => snd <$> getDefaultSerializer e current
     end).
Proof.
  unfold resolve_pair.
  destruct (cfg_serialize config) as [s|], (cfg_deserialize config) as [d|];
    simpl; destruct (getDefaultSerializer e current) as [[? ?]|]; reflexivity.
Qed.

(** The URL [updateUrl] writes is the one [applyUrlUpdate] would write. *)
Lemma updateUrl_url (l : Location) (qs : string) :
  pathname l +:+ (if String.eqb qs "" then "" else "?" +:+ qs) = newUrl_of l qs.
Proof.
  unfold newUrl_of. destruct (String.eqb qs ""); [apply StrFacts.append_nil_r | reflexivity].
Qed.

Lemma updateUrl_effects key newParams st field :
  Map_get (fields (this st)) key = Some field →
  let st' := updateUrl key newParams st in
  Map_get (fields (this st')) key
  = Some (with_timer field None (Some (clock (window st))))
  ∧ (∀ key', key' ≠ key → Map_get (fields (this st')) key' = Map_get (fields (this st)) key')
  ∧ history (window st')
    = (history (window st)
       ++ [newUrl_of (location (window st)) (URLSearchParams.toString newParams)])%list
  ∧ timeouts (window st') = timeouts (window st)
  ∧ clock (window st') = clock (window st)
  ∧ stores st' = stores st
  ∧ closures st' = closures st
  ∧ interceptors st' = interceptors st
  ∧ (Str.occurs "?" (pathname (location (window st))) = false →
     URLSearchParams.new (search (location (window st'))) = newParams).
Proof.
  intros Hget. unfold updateUrl. rewrite Hget. simpl. rewrite updateUrl_url.
  repeat split.
  - apply Map_get_set_eq.
  - intros key' Hne. now apply Map_get_set_ne.
  - intros Hp. apply (replaceState_params (window st)). exact Hp.
Qed.

(** X15 ([registerField], duplicate).  Registering under a parameter that
    is already bound throws the duplicate error before anything is read or
    written: the state, and with it the first binding, is unchanged. *)
Theorem registerField_rejects_duplicate st obj prop key config :
  Map_has (fields (this st)) key = true →
  ∃ f, Map_get (fields (this st)) key = Some f
       ∧ registerField obj prop key config st
         = (Throw (Error (duplicate_message key)), st).
Proof.
  intros Hhas. destruct (proj1 (Map_has_get _ _) Hhas) as [f Hf].
  exists f. split; [exact Hf |]. unfold registerField, registerField_with.
  now rewrite Hhas.
Qed.

(** X16 ([registerField], serializer and default).  On a free parameter,
    each half of the pair is the one of [config] when given and else the one
    [getDefaultSerializer] finds for the store's current value (not for the
    default value); the default value is [config.defaultValue] unless that is
    [undefined] ([null] is kept).  [registerField] writes all three into the
    caller's [config] object, which it leaves so also when it throws.  With
    both halves an entry with these fields and no timer goes into the field
    map, and stays there whatever the hydration and [intercept] do; with a
    half missing [registerField] throws the missing-serializer error and
    leaves the engine, the stores and the window as they were. *)
Theorem registerField_resolution intercept st obj prop key config :
  Map_has (fields (this st)) key = false →
  unclosed st key →
  let current := heap_get (stores st) obj prop in
  let auto := getDefaultSerializer (this st) current in
  let s := match cfg_serialize config with Some s => Some s | None => fst <$> auto end in
  let d := match cfg_deserialize config with Some d => Some d | None => snd <$> auto end in
  let dflt := match cfg_defaultValue config with VUndefined => current | v => v end in
  let r := registerField_with intercept obj prop key config st in
  r.2 = {| cfg_defaultValue := dflt; cfg_serialize := s; cfg_deserialize := d |}
  ∧ match s, d with
    | Some s, Some d =>
        Map_get (fields (this r.1.2)) key
        = Some {| store := obj; property := prop; queryParam := key; defaultValue := dflt;
                  serialize := s; deserialize := d;
                  updateTimer := None; lastUpdateTime := None |}
    | _, _ => r.1 = (Throw (Error (missing_message prop)), st)
    end.
Proof.
  intros Hfresh Hun current auto s d dflt r.
  pose proof (registerField_pair_halves (this st) config current) as Hpair.
  fold auto in Hpair. fold s d in Hpair.
  assert (Hfill : fill_config (this st) config current
                  = {| cfg_defaultValue := dflt; cfg_serialize := s; cfg_deserialize := d |})
    by (unfold fill_config; now rewrite Hpair).
  subst r. unfold registerField_with. rewrite Hfresh. fold current. rewrite Hfill.
  simpl. destruct s as [s0|], d as [d0|]; try (split; reflexivity).
  match goal with
  | |- context [loadFromURLForField ?f ?s1] =>
      destruct (PerFieldFacts.loadFromURLForField_fields f s1 key) as [_ Hkeep];
      specialize (Hkeep Hun); simpl in Hkeep; rewrite Map_get_set_eq in Hkeep;
      destruct (loadFromURLForField f s1) as [[[]|e] st1]
  end; [destruct intercept |]; split; try reflexivity; exact Hkeep.
Qed.

(** X17 ([registerField] and [loadFromURLForField], the outcomes).  On a
    free parameter with a resolved pair, when no interceptor is installed on
    the property yet: without the parameter in the URL the stores are left
    alone; with it, and a deserializer that returns, the property takes the
    deserialized value; in both cases the call returns with the interceptor
    installed, unless MobX's [intercept] throws, and then that exception
    leaves [registerField] and no interceptor is installed.  When the
    deserializer throws, its exception leaves [registerField]: the entry is
    in the field map, but no interceptor is installed and the stores are
    left alone.  The entry is in the field map in every case. *)
Theorem registerField_outcomes intercept st obj prop key config s d :
  Map_has (fields (this st)) key = false →
  resolve_pair (this st) config (heap_get (stores st) obj prop) = (Some s, Some d) →
  unobserved st obj prop →
  let r := (registerField_with intercept obj prop key config st).1 in
  let installed :=
    match intercept with
    | None => r.1 = Ok ()
              ∧ interceptors r.2 = (interceptors st ++ [(obj, prop, key)])%list
    | Some e => r.1 = Throw e ∧ interceptors r.2 = interceptors st
    end in
  Map_has (fields (this r.2)) key = true
  ∧ match URLSearchParams.get (URLSearchParams.new (search (location (window st)))) key with
    | None => stores r.2 = stores st ∧ installed
    | Some raw =>
        match d raw with
        | Ok v => heap_get (stores r.2) obj prop = v ∧ installed
        | Throw e =>
            r.1 = Throw e ∧ stores r.2 = stores st ∧ interceptors r.2 = interceptors st
        end
    end.
Proof.
  intros Hfresh Hpair Hun r installed. subst installed r.
  rewrite (PerFieldFacts.registerField_with_resolved intercept st obj prop key config s d
             Hfresh Hpair).
  unfold loadFromURLForField. simpl.
  assert (Hin : ∀ x, Map_has (Map_set (fields (this st)) key x) key = true)
    by (intros x; apply Map_has_get; rewrite Map_get_set_eq; eauto).
  destruct (URLSearchParams.get _ key) as [raw|] eqn:Hget.
  - assert (Hhas : URLSearchParams.has
                     (URLSearchParams.new (search (location (window st)))) key = true)
      by (apply URLSearchParamsFacts.has_get; rewrite Hget; eauto).
    rewrite Hhas. destruct (d raw) as [v|e].
    + rewrite PerFieldFacts.assign_unobserved by exact Hun.
      destruct intercept; simpl; (split; [apply Hin |]);
        (split; [apply heap_get_set_eq | split; reflexivity]).
    + simpl. split; [apply Hin | repeat split].
  - apply URLSearchParamsFacts.has_false_get in Hget. rewrite Hget.
    destruct intercept; simpl; (split; [apply Hin | repeat split]).
Qed.

(** X18 ([getDefaultSerializer] decides by the store's current value).
    When the property currently holds a string, number or boolean,
    [registerField] on a free parameter always registers the entry, whatever
    [config] holds.  When it holds a value that is neither primitive nor an
    instance of a table entry, and [config] lacks a function, it throws the
    missing-serializer error, also when [config.defaultValue] is a primitive. *)
Theorem registerField_resolves_by_current_value st obj prop key config :
  Map_has (fields (this st)) key = false →
  (typeof (heap_get (stores st) obj prop) ∈ ["string"; "number"; "boolean"] →
   Map_has (fields (this (registerField obj prop key config st).2)) key = true)
  ∧ ((typeof (heap_get (stores st) obj prop) ∉ ["string"; "number"; "boolean"]) →
     unmatched (heap_get (stores st) obj prop) (defaultSerializers (this st)) →
     cfg_serialize config = None ∨ cfg_deserialize config = None →
     registerField obj prop key config st = (Throw (Error (missing_message prop)), st)).
Proof.
  intros Hfresh. split.
  - intros Hty.
    assert (Hauto : getDefaultSerializer (this st) (heap_get (stores st) obj prop)
                    = Some (ToString, fun s => Ok (VString s))).
    { unfold getDefaultSerializer.
      destruct (heap_get (stores st) obj prop); simpl in *; try reflexivity;
        repeat (apply elem_of_cons in Hty as [Hty | Hty]; [discriminate Hty |]);
        inversion Hty. }
    pose proof (registerField_pair_halves (this st) config
                  (heap_get (stores st) obj prop)) as Hpair.
    rewrite Hauto in Hpair. unfold registerField.
    assert (Hres : ∃ s d, resolve_pair (this st) config (heap_get (stores st) obj prop)
                          = (Some s, Some d))
      by (rewrite Hpair; destruct (cfg_serialize config), (cfg_deserialize config);
          simpl; eauto).
    destruct Hres as (s & d & Hres).
    rewrite (PerFieldFacts.registerField_with_resolved None st obj prop key config s d
               Hfresh Hres).
    match goal with
    | |- context [loadFromURLForField ?f ?s1] =>
        destruct (PerFieldFacts.loadFromURLForField_fields f s1 key) as [Hkeep _];
        destruct (loadFromURLForField f s1) as [[[]|e] st1]
    end; simpl in *; apply Hkeep; apply Map_has_get; rewrite Map_get_set_eq; eauto.
  - intros Hty Hun Hcfg.
    assert (Hauto : getDefaultSerializer (this st) (heap_get (stores st) obj prop) = None).
    { unfold getDefaultSerializer.
      destruct (heap_get (stores st) obj prop) eqn:E; simpl in *;
        try (now apply find_serializer_none);
        exfalso; apply Hty; repeat constructor. }
    unfold registerField, registerField_with, fill_config.
    rewrite Hfresh, registerField_pair_halves, Hauto.
    destruct Hcfg as [-> | ->]; simpl; [reflexivity |].
    now destruct (cfg_serialize config).
Qed.

End PerFieldProperties.
End PerFieldProperties.

Module PerFieldInterceptor.
Import PerField.
Section PerFieldInterceptor.
Context {R : JSRuntime}.
Implicit Types (st : state).

Lemma filter_Forall_id {A} (P : A → Prop) `{∀ x, Decision (P x)} (l : list A) :
  Forall P l → filter P l = l.
Proof.
  induction 1 as [|x l Hx Hl IH]; [reflexivity |].
  rewrite filter_cons_True by exact Hx. now rewrite IH.
Qed.

Lemma run_interceptors_first pre post obj prop key v st :
  Forall (fun i : loc * string * string => (i.1.1, i.1.2) ≠ (obj, prop)) pre →
  run_interceptors (pre ++ (obj, prop, key) :: post) obj prop v st
  = match intercept_handler key v st with
    | (Ok _, st') => run_interceptors post obj prop v st'
    | (Throw e, st') => (Throw e, st')
    end.
Proof.
  induction pre as [|[[s p] key'] pre IH]; intros Hall; simpl.
  - rewrite bool_decide_eq_true_2 by reflexivity. now rewrite String.eqb_refl.
  - inversion_clear Hall as [|? ? Hne Hpre]. simpl in Hne.
    destruct (bool_decide (s = obj) && String.eqb p prop) eqn:E; [| now apply IH].
    apply andb_true_iff in E as [E1 E2].
    apply bool_decide_eq_true in E1. apply String.eqb_eq in E2. congruence.
Qed.

(** An assignment to a property with a single interceptor. *)
Lemma assign_sole st obj prop key v :
  sole_interceptor st obj prop key →
  assign obj prop v st
  = match intercept_handler key v st with
    | (Ok _, st') => (Ok (), with_stores st' (heap_set (stores st') obj prop v))
    | (Throw e, st') => (Throw e, st')
    end.
Proof.
  intros (pre & post & Hi & Hpre & Hpost). unfold assign.
  rewrite Hi, run_interceptors_first by assumption.
  destruct (intercept_handler key v st) as [[[]|e] st']; [| reflexivity].
  now rewrite PerFieldFacts.run_interceptors_skip.
Qed.

(** The three ways through the handler, once both serializations returned. *)
Lemma handler_unchanged st key field v sv dflt :
  Map_get (fields (this st)) key = Some field →
  serialize field v = Ok sv → serialize field (defaultValue field) = Ok dflt →
  nextParams (URLSearchParams.new (search (location (window st)))) (queryParam field) sv dflt
  = URLSearchParams.new (search (location (window st))) →
  intercept_handler key v st = (Ok (), st).
Proof.
  intros Hget Hs Hd Hsame. unfold intercept_handler. rewrite Hget, Hs, Hd.
  rewrite URLSearchParamsFacts.new_toString.
  unfold nextParams in Hsame. rewrite Hsame. now rewrite String.eqb_refl.
Qed.

Lemma toString_inj (p q : URLSearchParams.t) :
  URLSearchParams.toString p = URLSearchParams.toString q → p = q.
Proof.
  intros H. rewrite <- (URLSearchParamsFacts.new_toString p),
              <- (URLSearchParamsFacts.new_toString q).
  now rewrite H.
Qed.

Lemma handler_immediate st key field v sv dflt :
  Map_get (fields (this st)) key = Some field →
  serialize field v = Ok sv → serialize field (defaultValue field) = Ok dflt →
  let current := URLSearchParams.new (search (location (window st))) in
  let newParams := nextParams current (queryParam field) sv dflt in
  newParams ≠ current →
  (lastUpdateTime field = None
   ∨ ∃ last, lastUpdateTime field = Some last
             ∧ (last = 0 ∨ throttleDelay (this st) <= clock (window st) - last)) →
  intercept_handler key v st = (Ok (), updateUrl key newParams st).
Proof.
  intros Hget Hs Hd current newParams Hchg Himm. unfold intercept_handler.
  rewrite Hget, Hs, Hd. rewrite URLSearchParamsFacts.new_toString.
  fold current. fold (nextParams current (queryParam field) sv dflt). fold newParams.
  destruct (String.eqb_spec (URLSearchParams.toString newParams)
                            (URLSearchParams.toString current)) as [E | _];
    [apply toString_inj in E; contradiction |].
  destruct Himm as [-> | (last & -> & [-> | Hle])]; [reflexivity | reflexivity |].
  apply Z.leb_le in Hle. rewrite Hle. now rewrite orb_true_r.
Qed.

Lemma handler_deferred st key field v sv dflt last :
  Map_get (fields (this st)) key = Some field →
  serialize field v = Ok sv → serialize field (defaultValue field) = Ok dflt →
  let current := URLSearchParams.new (search (location (window st))) in
  let newParams := nextParams current (queryParam field) sv dflt in
  newParams ≠ current →
  lastUpdateTime field = Some last → last ≠ 0 →
  clock (window st) - last < throttleDelay (this st) →
  let handle := nextTimeout (window st) in
  let st' := (intercept_handler key v st).2 in
  (intercept_handler key v st).1 = Ok ()
  ∧ fields (this st')
    = Map_set (fields (this st)) key (with_timer field (Some handle) (Some last))
  ∧ closures st' = (closures st ++ [(handle, (key, newParams))])%list
  ∧ timeouts (window st')
    = (other_timeouts field (window st) ++ [(handle, last + throttleDelay (this st))])%list
  ∧ history (window st') = history (window st)
  ∧ location (window st') = location (window st)
  ∧ clock (window st') = clock (window st)
  ∧ stores st' = stores st
  ∧ throttleDelay (this st') = throttleDelay (this st).
Proof.
  intros Hget Hs Hd current newParams Hchg Hlast H0 Hlt handle st'. subst st'.
  unfold intercept_handler.
  rewrite Hget, Hs, Hd. rewrite URLSearchParamsFacts.new_toString.
  fold current. fold (nextParams current (queryParam field) sv dflt). fold newParams.
  destruct (String.eqb_spec (URLSearchParams.toString newParams)
                            (URLSearchParams.toString current)) as [E | _];
    [apply toString_inj in E; contradiction |].
  rewrite Hlast. apply Z.eqb_neq in H0. rewrite H0. simpl orb.
  pose proof Hlt as Hlt'. apply Z.leb_gt in Hlt'. rewrite Hlt'.
  unfold other_timeouts, setTimeout.
  assert (Hmax : Z.max 0 (throttleDelay (this st) - (clock (window st) - last))
                 = throttleDelay (this st) - (clock (window st) - last)) by lia.
  destruct (updateTimer field) as [h|]; [destruct (h =? 0)%nat |]; simpl;
    rewrite Hmax; repeat split; do 3 f_equal; lia.
Qed.

(** X19 (the interceptor skips a change that leaves the URL as it is).
    When the new value serializes like the default and the URL has no value
    for the parameter, or when the URL already holds exactly the new
    serialization as the only value of the parameter, the assignment is
    committed and nothing else happens: no write, no timer, and the entry's
    [lastUpdateTime] is not touched. *)
Theorem assign_unchanged_is_silent st obj prop key field v sv dflt :
  sole_interceptor st obj prop key →
  Map_get (fields (this st)) key = Some field →
  serialize field v = Ok sv → serialize field (defaultValue field) = Ok dflt →
  let current := URLSearchParams.new (search (location (window st))) in
  (sv = dflt ∧ URLSearchParams.has current (queryParam field) = false)
  ∨ (sv ≠ dflt
     ∧ ∃ pre post, current = (pre ++ (queryParam field, sv) :: post)%list
                   ∧ URLSearchParams.has pre (queryParam field) = false
                   ∧ URLSearchParams.has post (queryParam field) = false) →
  assign obj prop v st = (Ok (), with_stores st (heap_set (stores st) obj prop v)).
Proof.
  intros Hsole Hget Hs Hd current Hcase.
  rewrite (assign_sole st obj prop key v Hsole).
  rewrite (handler_unchanged st key field v sv dflt Hget Hs Hd); [reflexivity |].
  fold current. unfold nextParams.
  destruct Hcase as [[-> Habs] | (Hne & pre & post & Hcur & Hpre & Hpost)].
  - rewrite String.eqb_refl. now apply URLSearchParamsMore.delete_absent.
  - apply String.eqb_neq in Hne. rewrite Hne, Hcur.
    now apply URLSearchParamsMore.set_present.
Qed.

(** X20 (the first change of a field is written at once, other parameters
    kept).  When the entry has no update yet, or its last update is a delay
    or more ago, an assignment that changes the parameters is committed and
    written immediately: one [replaceState] call, after which the URL holds
    the new serialization under the field's parameter (or nothing, when it
    equals the default) and every other parameter with the value it had; the
    entry records the current time and no timer is armed.  The page's path
    is one that [replaceState] accepts. *)
Theorem assign_first_change_writes_now st obj prop key field v sv dflt :
  sole_interceptor st obj prop key →
  Map_get (fields (this st)) key = Some field →
  serialize field v = Ok sv → serialize field (defaultValue field) = Ok dflt →
  let current := URLSearchParams.new (search (location (window st))) in
  let newParams := nextParams current (queryParam field) sv dflt in
  newParams ≠ current →
  (lastUpdateTime field = None
   ∨ ∃ last, lastUpdateTime field = Some last
             ∧ (last = 0 ∨ throttleDelay (this st) <= clock (window st) - last)) →
  path_absolute (pathname (location (window st))) = true →
  Str.occurs "?" (pathname (location (window st))) = false →
  ∃ st', assign obj prop v st = (Ok (), st')
         ∧ heap_get (stores st') obj prop = v
         ∧ history (window st')
           = (history (window st)
              ++ [newUrl_of (location (window st)) (URLSearchParams.toString newParams)])%list
         ∧ (let url := URLSearchParams.new (search (location (window st'))) in
            URLSearchParams.get url (queryParam field)
            = (if String.eqb sv dflt then None else Some sv)
            ∧ ∀ name, name ≠ queryParam field →
                URLSearchParams.get url name = URLSearchParams.get current name)
         ∧ Map_get (fields (this st')) key
           = Some (with_timer field None (Some (clock (window st))))
         ∧ timeouts (window st') = timeouts (window st).
Proof.
  intros Hsole Hget Hs Hd current newParams Hchg Himm _ Hpath.
  rewrite (assign_sole st obj prop key v Hsole).
  rewrite (handler_immediate st key field v sv dflt Hget Hs Hd Hchg Himm).
  fold current. fold newParams.
  destruct (PerFieldProperties.updateUrl_effects key newParams st field Hget)
    as (Hf & _ & Hh & Ht & _ & _ & _ & _ & Hurl).
  specialize (Hurl Hpath). cbv zeta in Hf, Hh, Ht, Hurl.
  remember (updateUrl key newParams st) as st1 eqn:Est1. clear Est1.
  eexists. split; [reflexivity |]. simpl.
  split; [apply heap_get_set_eq |]. split; [exact Hh |].
  split; [| split; [exact Hf | exact Ht]].
  rewrite Hurl. subst newParams. unfold nextParams.
  destruct (String.eqb sv dflt); split.
  - apply URLSearchParamsMore.get_delete_eq.
  - intros name Hne. now apply URLSearchParamsMore.get_delete_ne.
  - apply URLSearchParamsMore.get_set_eq.
  - intros name Hne. now apply URLSearchParamsMore.get_set_ne.
Qed.

(** X21 (a change within the delay is deferred, and written as computed).
    When the entry's last update is less than a delay ago, an assignment
    that changes the parameters is committed without a URL write: the
    entry's previous timer is cancelled and one timer is armed, due a full
    delay after the last update.  When the host runs it, at that time or
    later, it writes the parameters that were computed when it was armed
    onto the path the page has then, whatever the query string and the
    stores have become since, and records the time in the entry. *)
Theorem assign_within_delay_defers st obj prop key field v sv dflt last :
  sole_interceptor st obj prop key →
  Map_get (fields (this st)) key = Some field →
  serialize field v = Ok sv → serialize field (defaultValue field) = Ok dflt →
  let current := URLSearchParams.new (search (location (window st))) in
  let newParams := nextParams current (queryParam field) sv dflt in
  newParams ≠ current →
  lastUpdateTime field = Some last → last ≠ 0 →
  clock (window st) - last < throttleDelay (this st) →
  Forall (fun c => c.1 ≠ nextTimeout (window st)) (closures st) →
  Forall (fun t => t.1 ≠ nextTimeout (window st)) (timeouts (window st)) →
  let handle := nextTimeout (window st) in
  let due := last + throttleDelay (this st) in
  ∃ st', assign obj prop v st = (Ok (), st')
         ∧ heap_get (stores st') obj prop = v
         ∧ history (window st') = history (window st)
         ∧ location (window st') = location (window st)
         ∧ timeouts (window st')
           = (other_timeouts field (window st) ++ [(handle, due)])%list
         ∧ Map_get (fields (this st')) key
           = Some (with_timer field (Some handle) (Some last))
         ∧ ∀ l h t,
             due <= t →
             path_absolute (pathname l) = true →
             Str.occurs "?" (pathname l) = false →
             let st2 := timeout handle (later l h t st') in
             history (window st2)
             = (history (window st)
                ++ [newUrl_of l (URLSearchParams.toString newParams)])%list
             ∧ URLSearchParams.new (search (location (window st2))) = newParams
             ∧ stores st2 = h
             ∧ Map_get (fields (this st2)) key = Some (with_timer field None (Some t))
             ∧ timeouts (window st2) = other_timeouts field (window st).
Proof.
  intros Hsole Hget Hs Hd current newParams Hchg Hlast H0 Hlt Hclos Htime handle due.
  rewrite (assign_sole st obj prop key v Hsole).
  destruct (handler_deferred st key field v sv dflt last Hget Hs Hd Hchg Hlast H0 Hlt)
    as (Hok & Hf & Hc & Hto & Hh & Hloc & Hclk & Hst & Hthr).
  fold current in Hc. fold newParams in Hc. fold handle in Hf, Hc, Hto. fold due in Hto.
  destruct (intercept_handler key v st) as [[[]|e] st1]; simpl in *; [| discriminate].
  eexists. split; [reflexivity |]. simpl.
  split; [apply heap_get_set_eq |]. split; [exact Hh |]. split; [exact Hloc |].
  split; [exact Hto |].
  assert (Hget1 : Map_get (fields (this st1)) key
                  = Some (with_timer field (Some handle) (Some last)))
    by (rewrite Hf; apply Map_get_set_eq).
  split; [exact Hget1 |].
  intros l h t Ht _ Hpath.
  assert (Hothers : Forall (fun x : nat * Z => x.1 ≠ handle)
                           (other_timeouts field (window st))).
  { unfold other_timeouts. destruct (updateTimer field) as [h0|]; [| exact Htime].
    destruct (h0 =? 0)%nat; [exact Htime |].
    apply Forall_forall. intros x Hx. apply list_elem_of_filter in Hx as [_ Hx].
    rewrite Forall_forall in Htime. now apply Htime. }
  assert (Hfind : ∀ (A : Type) (xs : list (nat * A)) (a : A),
             Forall (fun x => x.1 ≠ handle) xs →
             find (fun x => bool_decide (x.1 = handle)) (xs ++ [(handle, a)])
             = Some (handle, a)).
  { intros A xs a Hl. induction xs as [|x xs IH]; simpl.
    - now rewrite bool_decide_eq_true_2.
    - inversion_clear Hl as [|? ? Hx Hl']. rewrite bool_decide_eq_false_2 by exact Hx.
      now apply IH. }
  unfold timeout, later, due_of. simpl.
  rewrite Hto, Hc, !Hfind by assumption. simpl.
  apply Z.leb_le in Ht. rewrite Ht.
  match goal with
  | |- context [updateUrl key newParams ?s] =>
      destruct (PerFieldProperties.updateUrl_effects key newParams s
                  (with_timer field (Some handle) (Some last)) Hget1)
        as (Hf2 & _ & Hh2 & Ht2 & _ & Hs2 & _ & _ & Hu2)
  end.
  specialize (Hu2 Hpath).
  rewrite Hf2, Hh2, Ht2, Hs2, Hu2. simpl. rewrite Hh.
  repeat split.
  rewrite filter_app, filter_Forall_id by exact Hothers.
  rewrite filter_cons_False by (simpl; tauto). now rewrite app_nil_r.
Qed.

(** X22 (a throwing serializer vetoes the assignment).  The interceptor
    serializes the incoming value before the store takes it and does not
    catch: when the serializer of the first interceptor's field throws, on
    the new value or on the default, the assignment throws that exception and
    nothing is changed, the store's property included. *)
Theorem assign_aborted_by_throwing_serializer st obj prop key field v e :
  first_interceptor st obj prop key →
  Map_get (fields (this st)) key = Some field →
  serialize field v = Throw e
  ∨ (∃ sv, serialize field v = Ok sv ∧ serialize field (defaultValue field) = Throw e) →
  assign obj prop v st = (Throw e, st)
  ∧ heap_get (stores (assign obj prop v st).2) obj prop = heap_get (stores st) obj prop.
Proof.
  intros (pre & post & Hi & Hpre) Hget Hthrow.
  assert (Hh : intercept_handler key v st = (Throw e, st)).
  { unfold intercept_handler. rewrite Hget.
    destruct Hthrow as [-> | (sv & -> & ->)]; reflexivity. }
  assert (Ha : assign obj prop v st = (Throw e, st)).
  { unfold assign. rewrite Hi, run_interceptors_first by assumption. now rewrite Hh. }
  split; [exact Ha | now rewrite Ha].
Qed.

End PerFieldInterceptor.
End PerFieldInterceptor.

(** * Concrete runs for the further properties *)

Module MoreExamples.

#[local] Existing Instance demo_runtime.
Import Demo DemoMore.

(** X1: an object of class [Big] is also an [Object]; the table lists
    [Object] first, so its serializer is the one found. *)
Lemma getAutoSerializer_first_match_witness :
  getAutoSerializer (new_MobXURLSync table None) big
  = Some (s_serialize (classSerializer "Object"), s_deserialize (classSerializer "Object")).
Proof.
  apply (proj1 (getAutoSerializer_first_match (new_MobXURLSync table None) big)
           [("date", classSerializer "Date")] "object" (classSerializer "Object")
           [("big", classSerializer "Big")]).
  - reflexivity.
  - repeat constructor.
  - reflexivity.
Defined.

(** X2: [counter] is [undefined] and no serializers are given. *)
Lemma register_nullish_needs_serializers_witness :
  register 1%positive "counter" "counter" no_config (initial engine emptyStore (page ""))
  = (Throw (Error (missing_message "counter")), initial engine emptyStore (page "")).
Proof.
  apply (register_nullish_needs_serializers (initial engine emptyStore (page ""))
           1%positive "counter" "counter" no_config).
  - reflexivity.
  - left. reflexivity.
  - left. reflexivity.
Defined.


(** X4: the number [counter] is hydrated with the string [7]. *)
Lemma register_auto_hydrates_raw_string_witness :
  ∃ st', register 1%positive "counter" "counter" no_config (fresh "?counter=7") = (Ok (), st')
         ∧ heap_get (stores st') 1%positive "counter" = VString "7"
         ∧ typeof (heap_get (stores st') 1%positive "counter") = "string".
Proof.
  apply (register_auto_hydrates_raw_string (fresh "?counter=7") 1%positive "counter"
           "counter" no_config "7").
  - reflexivity.
  - reflexivity.
  - apply (bool_decide_eq_true_1 _). vm_compute. reflexivity.
  - vm_compute. reflexivity.
Defined.

Lemma synced_wf v search last : fields_wf (fields (this (synced v search last))).
Proof. split; [apply NoDup_singleton | repeat constructor]. Qed.

Lemma page_wf search : location_wf (location (page search)).
Proof. repeat split. discriminate. Qed.

(** X6: a flush with [counter = 5] on [/app?other=1&counter=2#top]. *)
Lemma flush_url_holds_registered_fields_only_witness :
  let st := synced (num 5) "?other=1&counter=2" 0 in
  let url := URLSearchParams.new (search (location (window (applyUrlUpdate st).2))) in
  URLSearchParams.get url "counter" = Some "5"
  ∧ URLSearchParams.has url "other" = false.
Proof.
  destruct (flush_url_holds_registered_fields_only (synced (num 5) "?other=1&counter=2" 0))
    as (Hget & Hother & _).
  - apply synced_wf.
  - repeat constructor. exists "5", "0". split; reflexivity.
  - apply page_wf.
  - cbv zeta. split.
    + apply (Hget "counter" counterField "5" "0"); [left | reflexivity | reflexivity].
    + apply Hother. simpl. intros H. apply list_elem_of_singleton in H. discriminate H.
Defined.

(** X7: the URL written for [counter = 5] hydrates a new engine with the
    string [5]. *)
Lemma flush_reload_round_trip_witness :
  let st := synced (num 5) "" 0 in
  let st_new := initial engine counterStore (window (applyUrlUpdate st).2) in
  ∃ st'', register 1%positive "counter" "counter" no_config st_new = (Ok (), st'')
          ∧ heap_get (stores st'') 1%positive "counter" = VString "5".
Proof.
  apply (flush_reload_round_trip (synced (num 5) "" 0) "counter" counterField "5" "0"
           (initial engine counterStore (window (applyUrlUpdate (synced (num 5) "" 0)).2))
           1%positive "counter" no_config ToString (fun s => Ok (VString s))).
  - apply synced_wf.
  - repeat constructor. exists "5", "0". split; reflexivity.
  - apply page_wf.
  - left.
  - reflexivity.
  - reflexivity.
  - reflexivity.
  - reflexivity.
  - vm_compute. reflexivity.
Defined.

(** X8: the serializer of [page] throws. *)
Lemma flush_with_throwing_serializer_witness :
  is_throw (applyUrlUpdate withBroken).1
  ∧ window (applyUrlUpdate withBroken).2 = window withBroken
  ∧ lastUpdateTime (this (applyUrlUpdate withBroken).2) = 1000
  ∧ is_throw (updateTimerCallback withBroken).1
  ∧ updateTimer (this (updateTimerCallback withBroken).2) = Some 4%nat
  ∧ window (updateTimerCallback withBroken).2 = window withBroken.
Proof.
  apply (flush_with_throwing_serializer withBroken "page" brokenField).
  - right. left.
  - intros (str & dflt & Hs & _). discriminate Hs.
Defined.

(** X9: flushing [counter = 5] twice. *)
Lemma flush_twice_witness :
  let st := synced (num 5) "" 0 in
  let st1 := (applyUrlUpdate st).2 in
  let st2 := (applyUrlUpdate st1).2 in
  origin (location (window st1)) = "http://localhost"
  ∧ pathname (location (window st1)) = "/app"
  ∧ location (window st2) = location (window st1)
  ∧ ∃ url, history (window st1) = (history (window st) ++ [url])%list
           ∧ history (window st2) = (history (window st) ++ [url; url])%list.
Proof.
  apply (flush_twice (synced (num 5) "" 0)).
  - apply synced_wf.
  - repeat constructor. exists "5", "0". split; reflexivity.
  - apply page_wf.
Defined.

(** X10: [page] of the second store is bound to no field. *)
Lemma assign_unbound_is_silent_witness :
  let st := synced (num 0) "" 0 in
  step (EvAssign 2%positive "page" (num 9)) st
  = with_stores st (heap_set (stores st) 2%positive "page" (num 9)).
Proof.
  apply (assign_unbound_is_silent (synced (num 0) "" 0) 2%positive "page" (num 9)).
  - repeat constructor. simpl. discriminate.
  - vm_compute. reflexivity.
Defined.

(** X11: the heap after the burst is the heap with the three assignments. *)
Lemma run_only_assignments_change_stores_witness :
  stores (run (burst ++ [EvClock 1600; EvTimeout 2]) (registered ""))
  = assigned burst (stores (registered "")).
Proof.
  apply (run_only_assignments_change_stores (burst ++ [EvClock 1600; EvTimeout 2])
           (registered "")).
  repeat constructor; simpl; tauto.
Defined.

(** X12: the timer left by the burst is due 500 ms after the write at 1000. *)
Lemma reachable_timer_due_witness :
  let st := run (EvRegister 1%positive "counter" "counter" no_config :: burst)
                (initial (new_MobXURLSync [] None) counterStore (page "")) in
  updateTimer (this st) = Some 2%nat
  ∧ lastUpdateTime (this st) ≠ 0
  ∧ 1500 = lastUpdateTime (this st) + debounceDelay (this st).
Proof.
  apply (reachable_timer_due [] None counterStore (page "")
           (EvRegister 1%positive "counter" "counter" no_config :: burst)).
  - reflexivity.
  - vm_compute. left.
Defined.

(** X13: with a delay of zero, a signal 3 ms after an update flushes. *)
Lemma zero_delay_never_defers_witness :
  let st := step (EvClock 1003) (undelayed (num 2) "?counter=1" 1000) in
  let st' := (scheduleUrlUpdate st).2 in
  timeouts (window st') = []
  ∧ updateTimer (this st') = None
  ∧ lastUpdateTime (this st') = 1003.
Proof.
  destruct (zero_delay_never_defers
              (step (EvClock 1003) (undelayed (num 2) "?counter=1" 1000)))
    as (H1 & H2 & H3 & _).
  - simpl. lia.
  - simpl. lia.
  - exact I.
  - cbv zeta. split; [exact H1 |]. split; [exact H2 | exact H3].
Defined.

(** X14: registering [counter] at its own value, on a URL without it. *)
Lemma register_at_default_is_silent_witness :
  let st := fresh "?other=1" in
  step (EvRegister 1%positive "counter" "counter" no_config) st
  = (register 1%positive "counter" "counter" no_config st).2
  ∧ history (window (register 1%positive "counter" "counter" no_config st).2) = []
  ∧ timeouts (window (register 1%positive "counter" "counter" no_config st).2) = [].
Proof.
  apply (register_at_default_is_silent (fresh "?other=1") 1%positive "counter" "counter"
           no_config (register 1%positive "counter" "counter" no_config (fresh "?other=1")).2).
  - reflexivity.
  - reflexivity.
  - vm_compute. reflexivity.
  - reflexivity.
Defined.

(** X5: [intercept] refuses the plain store after [counter] went into the
    field map; the map is still well formed. *)
Lemma reachable_fields_invariant_witness :
  fields_wf (fields (this (runReaction
                             (register_with (Some mobx_error) 1%positive "counter"
                                "counter" no_config (fresh "?counter=7")).2))).
Proof.
  apply (proj2 (proj2 reachable_fields_invariant) (fresh "?counter=7")
           (Some mobx_error) 1%positive "counter" "counter" no_config).
  apply (proj1 reachable_fields_invariant [] None counterStore (page "?counter=7") []).
Defined.

End MoreExamples.

Module PerFieldExamples.

#[local] Existing Instance demo_runtime.
Import Demo DemoMore.

Lemma pfRegistered_sole search : sole_interceptor (pfRegistered search) 1%positive "counter" "counter".
Proof.
  exists [], []. split; [| split; constructor].
  unfold pfRegistered, PerField.registerField, PerField.registerField_with,
    PerField.loadFromURLForField, PerField.assign.
  simpl.
  destruct (URLSearchParams.has _ _); [| reflexivity].
  destruct (URLSearchParams.get _ _); reflexivity.
Qed.

(** X15: [counter] registered twice. *)
Lemma registerField_rejects_duplicate_witness :
  ∃ f, Map_get (PerField.fields (PerField.this (pfRegistered ""))) "counter" = Some f
       ∧ PerField.registerField 2%positive "page" "counter" no_config (pfRegistered "")
         = (Throw (Error (PerField.duplicate_message "counter")), pfRegistered "").
Proof.
  apply (PerFieldProperties.registerField_rejects_duplicate (pfRegistered "") 2%positive
           "page" "counter" no_config).
  reflexivity.
Defined.

(** X16: a number resolves, and the caller's empty [config] comes back
    filled; an object with a numeric default does not resolve, and the
    caller's [config] keeps what it had. *)
Lemma registerField_resolution_witness :
  let r := PerField.registerField_with None 1%positive "counter" "counter" no_config
             (perField counterStore "") in
  let r' := PerField.registerField_with None 1%positive "counter" "counter" numeric_default
              (perField objectStore "") in
  r.2 = {| cfg_defaultValue := num 0; cfg_serialize := Some ToString;
           cfg_deserialize := Some (fun s => Ok (VString s)) |}
  ∧ Map_get (PerField.fields (PerField.this r.1.2)) "counter"
    = Some (pfCounterField None None)
  ∧ r'.2 = numeric_default
  ∧ r'.1 = (Throw (Error (PerField.missing_message "counter")), perField objectStore "").
Proof.
  split; [| split; [| split]].
  - apply (PerFieldProperties.registerField_resolution None (perField counterStore "")
             1%positive "counter" "counter" no_config); [reflexivity | constructor].
  - apply (PerFieldProperties.registerField_resolution None (perField counterStore "")
             1%positive "counter" "counter" no_config); [reflexivity | constructor].
  - apply (PerFieldProperties.registerField_resolution None (perField objectStore "")
             1%positive "counter" "counter" numeric_default); [reflexivity | constructor].
  - apply (PerFieldProperties.registerField_resolution None (perField objectStore "")
             1%positive "counter" "counter" numeric_default); [reflexivity | constructor].
Defined.

(** The caller's [config] is written before the missing-serializer error:
    an empty [config] comes back with the store's object as its
    [defaultValue]. *)
Example registerField_writes_config_before_throwing :
  PerField.registerField_with None 1%positive "counter" "counter" no_config
    (perField objectStore "")
  = (Throw (Error (PerField.missing_message "counter")), perField objectStore "",
     {| cfg_defaultValue := VObject ["Big"]; cfg_serialize := None;
        cfg_deserialize := None |}).
Proof. reflexivity. Qed.

(** X17: the deserializer rejects [?counter=x]; on [?counter=7] the value
    is hydrated and MobX's refusal to intercept leaves the call. *)
Lemma registerField_outcomes_witness :
  let r := PerField.registerField 1%positive "counter" "counter" strict_config
             (perField counterStore "?counter=x") in
  let r' := (PerField.registerField_with (Some mobx_error) 1%positive "counter" "counter"
               no_config (perField counterStore "?counter=7")).1 in
  (Map_has (PerField.fields (PerField.this r.2)) "counter" = true
   ∧ r.1 = Throw (Error "not a number")
   ∧ PerField.stores r.2 = counterStore
   ∧ PerField.interceptors r.2 = [])
  ∧ (Map_has (PerField.fields (PerField.this r'.2)) "counter" = true
     ∧ heap_get (PerField.stores r'.2) 1%positive "counter" = VString "7"
     ∧ r'.1 = Throw mobx_error
     ∧ PerField.interceptors r'.2 = []).
Proof.
  split.
  - apply (PerFieldProperties.registerField_outcomes None
             (perField counterStore "?counter=x")
             1%positive "counter" "counter" strict_config ToString
             (fun _ => Throw (Error "not a number")));
      [reflexivity | reflexivity | constructor].
  - apply (PerFieldProperties.registerField_outcomes (Some mobx_error)
             (perField counterStore "?counter=7")
             1%positive "counter" "counter" no_config ToString
             (fun s => Ok (VString s)));
      [reflexivity | reflexivity | constructor].
Defined.

(** X18: the store's value decides, not the default. *)
Lemma registerField_resolves_by_current_value_witness :
  Map_has (PerField.fields
             (PerField.this (PerField.registerField 1%positive "counter" "counter"
                               strict_config (perField counterStore "?counter=x")).2))
          "counter" = true
  ∧ PerField.registerField 1%positive "counter" "counter" numeric_default
      (perField objectStore "")
    = (Throw (Error (PerField.missing_message "counter")), perField objectStore "").
Proof.
  split.
  - apply (PerFieldProperties.registerField_resolves_by_current_value
             (perField counterStore "?counter=x") 1%positive "counter" "counter"
             strict_config); [reflexivity |].
    apply (bool_decide_eq_true_1 _). vm_compute. reflexivity.
  - apply (PerFieldProperties.registerField_resolves_by_current_value
             (perField objectStore "") 1%positive "counter" "counter" numeric_default).
    + reflexivity.
    + apply (bool_decide_eq_false_1 _). vm_compute. reflexivity.
    + constructor.
    + left. reflexivity.
Defined.

(** X19: assigning the default [0] on a URL without [counter]. *)
Lemma assign_unchanged_is_silent_witness :
  PerField.assign 1%positive "counter" (num 0) (pfRegistered "?page=2")
  = (Ok (),
     PerField.with_stores (pfRegistered "?page=2")
       (heap_set (PerField.stores (pfRegistered "?page=2")) 1%positive "counter" (num 0))).
Proof.
  apply (PerFieldInterceptor.assign_unchanged_is_silent (pfRegistered "?page=2")
           1%positive "counter" "counter" (pfCounterField None None) (num 0) "0" "0").
  - apply pfRegistered_sole.
  - vm_compute. reflexivity.
  - reflexivity.
  - reflexivity.
  - left. split; [reflexivity | vm_compute; reflexivity].
Defined.

(** X20: the first change of [counter] on [/app?page=2]. *)
Lemma assign_first_change_writes_now_witness :
  ∃ st', PerField.assign 1%positive "counter" (num 5) (pfRegistered "?page=2") = (Ok (), st')
         ∧ history (PerField.window st') = ["/app?page=2&counter=5"]
         ∧ URLSearchParams.get
             (URLSearchParams.new (search (location (PerField.window st')))) "page"
           = Some "2".
Proof.
  destruct (PerFieldInterceptor.assign_first_change_writes_now (pfRegistered "?page=2")
              1%positive "counter" "counter" (pfCounterField None None) (num 5) "5" "0")
    as (st' & Ha & _ & Hh & (_ & Hother) & _).
  - apply pfRegistered_sole.
  - vm_compute. reflexivity.
  - reflexivity.
  - reflexivity.
  - intros H. vm_compute in H. discriminate H.
  - left. reflexivity.
  - reflexivity.
  - reflexivity.
  - exists st'. split; [exact Ha |]. split.
    + rewrite Hh. vm_compute. reflexivity.
    + rewrite (Hother "page") by discriminate. vm_compute. reflexivity.
Defined.

Lemma pfChanged_sole : sole_interceptor pfChanged 1%positive "counter" "counter".
Proof. exists [], []. split; [vm_compute; reflexivity | split; constructor]. Qed.

(** X21: a second change 3 ms after the first is deferred to 1500.  By
    then the page is at [/other?counter=9] and [counter] is back at [0]: the
    timer writes the [counter=2] it was armed with, on the new path. *)
Lemma assign_within_delay_defers_witness :
  let moved := {| origin := "http://localhost"; pathname := "/other";
                  search := "?counter=9"; hash := "" |} in
  ∃ st', PerField.assign 1%positive "counter" (num 2) pfChanged = (Ok (), st')
         ∧ history (PerField.window st') = ["/app?counter=1"]
         ∧ timeouts (PerField.window st') = [(1%nat, 1500)]
         ∧ history (PerField.window
                      (PerField.timeout 1 (later moved counterStore 1500 st')))
           = ["/app?counter=1"; "/other?counter=2"].
Proof.
  intros moved.
  destruct (PerFieldInterceptor.assign_within_delay_defers pfChanged 1%positive "counter"
              "counter" (pfCounterField None (Some 1000)) (num 2) "2" "0" 1000)
    as (st' & Ha & _ & Hh & _ & Hto & _ & Hfire).
  - apply pfChanged_sole.
  - vm_compute. reflexivity.
  - reflexivity.
  - reflexivity.
  - intros H. vm_compute in H. discriminate H.
  - reflexivity.
  - discriminate.
  - reflexivity.
  - constructor.
  - constructor.
  - exists st'. split; [exact Ha |]. split; [rewrite Hh; vm_compute; reflexivity |].
    split; [rewrite Hto; vm_compute; reflexivity |].
    assert (Hn : nextTimeout (PerField.window pfChanged) = 1%nat)
      by (vm_compute; reflexivity).
    assert (Hdue : 1000 + PerField.throttleDelay (PerField.this pfChanged) <= 1500)
      by (vm_compute; discriminate).
    pose proof (Hfire moved counterStore 1500 Hdue eq_refl eq_refl) as Hf.
    cbv zeta in Hf. rewrite Hn in Hf.
    destruct Hf as (Hh2 & _). rewrite Hh2. vm_compute. reflexivity.
Defined.

(** X22: the serializer of [counter] throws; the store keeps its [0]. *)
Lemma assign_aborted_by_throwing_serializer_witness :
  PerField.assign 1%positive "counter" (num 5) pfBroken = (Throw (Error "boom"), pfBroken)
  ∧ heap_get (PerField.stores (PerField.assign 1%positive "counter" (num 5) pfBroken).2)
             1%positive "counter" = num 0.
Proof.
  apply (PerFieldInterceptor.assign_aborted_by_throwing_serializer pfBroken 1%positive
           "counter" "counter" pfBrokenField (num 5) (Error "boom")).
  - exists [], []. split; [vm_compute; reflexivity | constructor].
  - vm_compute. reflexivity.
  - left. reflexivity.
Defined.

End PerFieldExamples.
